(** * Encrypted wallet-secret storage: a model of [src/js/walletStorage.js]

    The module keeps a registry of known wallets and one encrypted recovery
    phrase per wallet in the browser's [localStorage].  This development
    embeds its functions in Rocq and states the guarantees of the
    specification over the embedding.  With them it embeds the functions of
    firstTimeSetup.js that keep the flag of the first-time wizard, which read
    the registry through [getStoredWallets].

    Platform services the module calls are modelled as follows.
    - [localStorage] is a finite map from strings to strings (stdpp's [gmap]);
      quota and access errors are not modelled.
    - [btoa]/[atob], [TextEncoder] and [TextDecoder] are written out after the
      WHATWG Infra and Encoding standards.
    - [JSON] and [crypto.subtle] are interfaces (type classes) whose laws are
      facts of ECMA-262 and of AES-GCM; an executable instance of each shows
      the laws can be met.  The decimal text of a number ([Number::toString])
      is an interface without laws.
    - [new Date()] and [crypto.getRandomValues] read tapes held in the world.
    - The number of arguments a call takes is a parameter of the engine
      ([Engine]); its other resource limits (memory, the storage quota) are
      not modelled. *)

From Stdlib Require Import NArith Strings.Byte.
From stdpp Require Import base option list strings gmap countable.
From Stdlib Require Import Floats.PrimFloat.

Local Open Scope N_scope.

(** ** Strings and byte arrays *)

(** A UTF-16 code unit: JavaScript strings are sequences of these. The
    bound is written with a quotient so that it stays small when unfolded. *)
Definition char16 : Type := { n : N | (n / 65536 =? 0) = true }.

(** [ToUint16]: what [String.fromCharCode] does to its argument. *)
Definition to_char16 (n : N) : char16 :=
  let m := n mod 65536 in
  match (m / 65536 =? 0) as b return ((m / 65536 =? 0) = b → char16) with
  | true => λ H, m ↾ H
  | false => λ _, 0 ↾ eq_refl
  end eq_refl.

#[global] Instance char16_eq_dec : EqDecision char16 := _.
#[global] Instance char16_countable : Countable char16 := _.

(** A JavaScript string. *)
Abbreviation jsstring := (list char16).

(** A string literal of the source (its characters are ASCII). *)
Definition js (s : string) : jsstring :=
  (λ a, to_char16 (Ascii.N_of_ascii a)) <$> String.list_ascii_of_string s.

(** [Uint8Array] contents. *)
Abbreviation bytes := (list byte).

Definition to_byte (n : N) : byte :=
  match Byte.of_N (n mod 256) with Some b => b | None => x00 end.

(** Exceptions the module can meet, and outcomes of a call. *)
Inductive exn :=
| TypeError | SyntaxError | InvalidCharacterError | OperationError | RangeError.

Inductive result (A : Type) : Type :=
| Return (a : A)
| Throw (e : exn).
Arguments Return {A} a.
Arguments Throw {A} e.

(** ** Text codecs of the platform *)

(** *** UTF-16 code units and Unicode scalar values *)

Definition is_high_surrogate (c : N) : bool := (0xD800 <=? c) && (c <=? 0xDBFF).
Definition is_low_surrogate (c : N) : bool := (0xDC00 <=? c) && (c <=? 0xDFFF).

(** Conversion of a string to scalar values (Web IDL [USVString]): a
    surrogate pair is one scalar value, a lone surrogate becomes U+FFFD. *)
Fixpoint to_scalars (s : list N) : list N :=
  match s with
  | [] => []
  | c :: r =>
      if is_high_surrogate c then
        match r with
        | d :: r' =>
            if is_low_surrogate d
            then (0x10000 + (c - 0xD800) * 0x400 + (d - 0xDC00)) :: to_scalars r'
            else 0xFFFD :: to_scalars r
        | [] => [0xFFFD]
        end
      else if is_low_surrogate c then 0xFFFD :: to_scalars r
      else c :: to_scalars r
  end.

(** [s.isWellFormed()]: no lone surrogate. *)
Fixpoint well_formed (s : list N) : bool :=
  match s with
  | [] => true
  | c :: r =>
      if is_high_surrogate c then
        match r with
        | d :: r' => is_low_surrogate d && well_formed r'
        | [] => false
        end
      else negb (is_low_surrogate c) && well_formed r
  end.

Definition isWellFormed (s : jsstring) : bool := well_formed (proj1_sig <$> s).

(** The string starts with U+FEFF, the byte order mark. *)
Definition starts_with_BOM (s : jsstring) : bool :=
  match s with
  | c :: _ => `c =? 0xFEFF
  | [] => false
  end.

(** The code units of a scalar value. *)
Definition of_scalar (cp : N) : jsstring :=
  if cp <? 0x10000 then [to_char16 cp]
  else [to_char16 (0xD800 + (cp - 0x10000) / 0x400);
        to_char16 (0xDC00 + (cp - 0x10000) mod 0x400)].

(** *** UTF-8 (WHATWG Encoding) *)

(** The UTF-8 encoder's handler for one scalar value. *)
Definition utf8_encode_scalar (cp : N) : bytes :=
  if cp <? 0x80 then [to_byte cp]
  else if cp <? 0x800 then
    [to_byte (N.shiftr cp 6 + 0xC0);
     to_byte (N.lor 0x80 (N.land cp 0x3F))]
  else if cp <? 0x10000 then
    [to_byte (N.shiftr cp 12 + 0xE0);
     to_byte (N.lor 0x80 (N.land (N.shiftr cp 6) 0x3F));
     to_byte (N.lor 0x80 (N.land cp 0x3F))]
  else
    [to_byte (N.shiftr cp 18 + 0xF0);
     to_byte (N.lor 0x80 (N.land (N.shiftr cp 12) 0x3F));
     to_byte (N.lor 0x80 (N.land (N.shiftr cp 6) 0x3F));
     to_byte (N.lor 0x80 (N.land cp 0x3F))].

(** [new TextEncoder().encode(s)]. *)
Definition TextEncoder_encode (s : jsstring) : bytes :=
  flat_map utf8_encode_scalar (to_scalars (proj1_sig <$> s)).

(** State of the UTF-8 decoder. *)
Record utf8_decoder := Utf8Decoder {
  code_point : N;
  bytes_seen : N;
  bytes_needed : N;
  lower_boundary : N;
  upper_boundary : N;
}.

Definition utf8_decoder_init : utf8_decoder := Utf8Decoder 0 0 0 0x80 0xBF.

(** The handler on a byte when no bytes are needed: a lead byte. *)
Definition utf8_lead (b : N) : list N * utf8_decoder :=
  if b <=? 0x7F then ([b], utf8_decoder_init)
  else if (0xC2 <=? b) && (b <=? 0xDF) then
    ([], Utf8Decoder (N.land b 0x1F) 0 1 0x80 0xBF)
  else if (0xE0 <=? b) && (b <=? 0xEF) then
    ([], Utf8Decoder (N.land b 0xF) 0 2
           (if b =? 0xE0 then 0xA0 else 0x80) (if b =? 0xED then 0x9F else 0xBF))
  else if (0xF0 <=? b) && (b <=? 0xF4) then
    ([], Utf8Decoder (N.land b 0x7) 0 3
           (if b =? 0xF0 then 0x90 else 0x80) (if b =? 0xF4 then 0x8F else 0xBF))
  else ([0xFFFD], utf8_decoder_init).

(** The handler on a byte: the scalars it emits and the next state. A byte
    that cannot continue a sequence ends it with U+FFFD and is read again. *)
Definition utf8_step (d : utf8_decoder) (b : N) : list N * utf8_decoder :=
  if bytes_needed d =? 0 then utf8_lead b
  else if (lower_boundary d <=? b) && (b <=? upper_boundary d) then
    let cp := N.lor (N.shiftl (code_point d) 6) (N.land b 0x3F) in
    if bytes_seen d + 1 =? bytes_needed d
    then ([cp], utf8_decoder_init)
    else ([], Utf8Decoder cp (bytes_seen d + 1) (bytes_needed d) 0x80 0xBF)
  else
    let '(out, d') := utf8_lead b in (0xFFFD :: out, d').

Fixpoint utf8_decode_from (d : utf8_decoder) (bs : bytes) : list N :=
  match bs with
  | [] => if bytes_needed d =? 0 then [] else [0xFFFD]
  | b :: r =>
      let '(out, d') := utf8_step d (Byte.to_N b) in
      out ++ utf8_decode_from d' r
  end.

(** [new TextDecoder().decode(buffer)]: not fatal, and a leading U+FEFF is
    dropped (the [ignoreBOM] option is off by default). *)
Definition TextDecoder_decode (bs : bytes) : jsstring :=
  let scalars := utf8_decode_from utf8_decoder_init bs in
  flat_map of_scalar
    (match scalars with
     | 0xFEFF :: r => r
     | _ => scalars
     end).

(** *** Base64 (WHATWG Infra) *)

Definition b64_char (i : N) : N :=
  if i <? 26 then 65 + i
  else if i <? 52 then 97 + (i - 26)
  else if i <? 62 then 48 + (i - 52)
  else if i =? 62 then 43
  else 47.

Definition b64_index (c : N) : option N :=
  if (65 <=? c) && (c <=? 90) then Some (c - 65)
  else if (97 <=? c) && (c <=? 122) then Some (c - 97 + 26)
  else if (48 <=? c) && (c <=? 57) then Some (c - 48 + 52)
  else if c =? 43 then Some 62
  else if c =? 47 then Some 63
  else None.

Definition b64_pad : N := 61.

Fixpoint b64_encode (bs : list N) : list N :=
  match bs with
  | [] => []
  | [a] => [b64_char (a / 4); b64_char (a mod 4 * 16); b64_pad; b64_pad]
  | [a; b] =>
      [b64_char (a / 4); b64_char (a mod 4 * 16 + b / 16);
       b64_char (b mod 16 * 4); b64_pad]
  | a :: b :: c :: r =>
      b64_char (a / 4) :: b64_char (a mod 4 * 16 + b / 16) ::
      b64_char (b mod 16 * 4 + c / 64) :: b64_char (c mod 64) :: b64_encode r
  end.

(** [btoa(s)]: throws on a code unit above U+00FF. *)
Definition btoa (s : jsstring) : result jsstring :=
  if forallb (λ c : char16, `c <=? 0xFF) s
  then Return (to_char16 <$> b64_encode (proj1_sig <$> s))
  else Throw InvalidCharacterError.

Definition is_ascii_whitespace (c : N) : bool :=
  (c =? 9) || (c =? 10) || (c =? 12) || (c =? 13) || (c =? 32).

(** Removal of a trailing [=] sign, and of one or two of them. *)
Definition strip_one (l : list N) : list N :=
  match rev l with
  | c :: r => if c =? b64_pad then rev r else l
  | [] => l
  end.

Definition strip_padding (l : list N) : list N := strip_one (strip_one l).

Fixpoint b64_decode (l : list N) : list N :=
  match l with
  | a :: b :: c :: d :: r =>
      (a * 4 + b / 16) :: (b mod 16 * 16 + c / 4) :: (c mod 4 * 64 + d) :: b64_decode r
  | [a; b; c] => [a * 4 + b / 16; b mod 16 * 16 + c / 4]
  | [a; b] => [a * 4 + b / 16]
  | _ => []
  end.

(** [atob(s)] (forgiving-base64 decode): throws on malformed input. *)
Definition atob (s : jsstring) : result jsstring :=
  let data := filter (λ c, is_ascii_whitespace c = false) (proj1_sig <$> s) in
  let data := if N.of_nat (length data) mod 4 =? 0 then strip_padding data else data in
  if N.of_nat (length data) mod 4 =? 1 then Throw InvalidCharacterError
  else match mapM b64_index data with
       | Some sextets => Return (to_char16 <$> b64_decode sextets)
       | None => Throw InvalidCharacterError
       end.

(** The string whose code units are the given bytes. *)
Definition char_codes (bs : bytes) : jsstring :=
  (λ b, to_char16 (Byte.to_N b)) <$> bs.

(** The engine: a call takes no more than [argument_limit] arguments. The
    figure is the engine's own: a fixed one in some engines, what the stack
    has left in others. *)
Class Engine := {
  argument_limit : N;
}.

(** [String.fromCharCode(...combined)]: the spread hands every byte to the
    call as an argument of its own, and the engine throws [RangeError] when
    they are more than a call takes. *)
Definition String_fromCharCode `{Engine} (bs : bytes) : result jsstring :=
  if N.of_nat (length bs) <=? argument_limit then Return (char_codes bs)
  else Throw RangeError.

(** [Uint8Array.from(s, c => c.charCodeAt(0))]. *)
Definition Uint8Array_from (s : jsstring) : bytes :=
  (λ c : char16, to_byte (`c)) <$> s.

(** [a.slice(start, stop)] for indices within range or beyond the end. *)
Definition slice {A} (start stop : nat) (a : list A) : list A :=
  take (stop - start) (drop start a).

(** ** JavaScript values that [JSON.parse] can return *)

Unset Elimination Schemes.
Inductive jsval : Type :=
| JNull
| JBool (b : bool)
| JNum (x : float)
| JStr (s : jsstring)
| JArr (elems : list jsval)
| JObj (props : list (jsstring * jsval)).
Set Elimination Schemes.

(** Own properties of an object, in property order. *)
Fixpoint get_prop (k : jsstring) (ps : list (jsstring * jsval)) : option jsval :=
  match ps with
  | [] => None
  | (k', v) :: ps' => if decide (k' = k) then Some v else get_prop k ps'
  end.

(** [o.k = v]: an existing property keeps its place, a new one goes last. *)
Fixpoint set_prop (k : jsstring) (v : jsval) (ps : list (jsstring * jsval))
  : list (jsstring * jsval) :=
  match ps with
  | [] => [(k, v)]
  | (k', v') :: ps' =>
      if decide (k' = k) then (k, v) :: ps' else (k', v') :: set_prop k v ps'
  end.

Definition is_digit (c : char16) : bool := (48 <=? `c) && (`c <=? 57).

(** Keys made of digits only may be array indices, which an object lists
    before its other keys whatever the insertion order. *)
Definition index_like (k : jsstring) : bool :=
  match k with [] => false | _ => forallb is_digit k end.

(** Values that [JSON.stringify] and [JSON.parse] carry unchanged: no numbers
    (-0 and the non-finite ones are not preserved), objects with distinct keys
    in insertion order. *)
Fixpoint json_plain (v : jsval) : Prop :=
  match v with
  | JNull | JBool _ | JStr _ => True
  | JNum _ => False
  | JArr l => (fix all l := match l with [] => True | x :: r => json_plain x ∧ all r end) l
  | JObj ps =>
      NoDup ps.*1 ∧ Forall (λ k, index_like k = false) ps.*1 ∧
      (fix all ps := match ps with [] => True | (_, x) :: r => json_plain x ∧ all r end) ps
  end.

(** ** Platform interfaces *)

(** [JSON.parse] (absent result: it threw [SyntaxError]) and [JSON.stringify]. *)
Class JSON := {
  JSON_parse : jsstring → option jsval;
  JSON_stringify : jsval → jsstring;
  JSON_parse_empty : JSON_parse [] = None;
  JSON_parse_null : JSON_parse (js "null") = Some JNull;
  JSON_parse_stringify v : json_plain v → JSON_parse (JSON_stringify v) = Some v;
}.

(** [crypto.subtle]: PBKDF2 key derivation ([importKey] of the raw password
    followed by [deriveKey]) and AES-GCM with its default 128-bit tag. A
    failed operation ([None]) is an [OperationError]. *)
Class WebCrypto := {
  CryptoKey : Type;
  pbkdf2_sha256 : ∀ (iterations length : N) (password salt : bytes), CryptoKey;
  aes_gcm_encrypt : CryptoKey → ∀ (iv plaintext : bytes), option bytes;
  aes_gcm_decrypt : CryptoKey → ∀ (iv ciphertext : bytes), option bytes;
  (** with a 96-bit IV encryption succeeds, and decryption under the same
      key and IV gives the plaintext back *)
  aes_gcm_correct k iv pt :
    length iv = 12%nat →
    ∃ ct, aes_gcm_encrypt k iv pt = Some ct ∧ aes_gcm_decrypt k iv ct = Some pt;
  (** a ciphertext shorter than the tag is rejected *)
  aes_gcm_short k iv ct :
    (length ct < 16)%nat → aes_gcm_decrypt k iv ct = None;
}.

(** AES-GCM appends its tag of 128 bits: a ciphertext is 16 bytes longer than
    the plaintext. *)
Class AesGcmTag `{WebCrypto} := {
  aes_gcm_length k iv pt ct :
    aes_gcm_encrypt k iv pt = Some ct → length ct = (length pt + 16)%nat;
}.

(** [Number::toString]: the text a number takes when it is joined to a
    string. *)
Class NumberFormat := {
  Number_toString : float → jsstring;
}.

(** ** The world: storage, clock, random source *)

(** Calls made to the cryptographic provider, most recent first. *)
Inductive crypto_call :=
| CallDeriveKey (password salt : bytes)
| CallEncrypt (iv plaintext : bytes)
| CallDecrypt (iv ciphertext : bytes).

Record world := World {
  storage : gmap jsstring jsstring;
  (** the strings successive [new Date().toISOString()] calls return *)
  clock : nat → jsstring;
  clock_reads : nat;
  (** the bytes [crypto.getRandomValues] hands out *)
  entropy : nat → byte;
  entropy_used : nat;
  crypto_calls : list crypto_call;
}.

Definition with_storage (f : gmap jsstring jsstring → gmap jsstring jsstring)
    (w : world) : world :=
  World (f (storage w)) (clock w) (clock_reads w) (entropy w) (entropy_used w)
        (crypto_calls w).

(** Programs: a state and exception monad over the world. *)
Definition M (A : Type) : Type := world → result A * world.

Definition ret {A} (a : A) : M A := λ w, (Return a, w).
Definition throw {A} (e : exn) : M A := λ w, (Throw e, w).
Definition bind {A B} (m : M A) (k : A → M B) : M B :=
  λ w, match m w with
       | (Return a, w') => k a w'
       | (Throw e, w') => (Throw e, w')
       end.
Definition try_catch {A} (m : M A) (handler : exn → M A) : M A :=
  λ w, match m w with
       | (Return a, w') => (Return a, w')
       | (Throw e, w') => handler e w'
       end.
Definition lift {A} (r : result A) : M A := λ w, (r, w).

#[global] Instance M_ret : MRet M := @ret.
#[global] Instance M_bind : MBind M := λ A B k m, bind m k.

(** *** localStorage *)

Definition getItem (k : jsstring) : M (option jsstring) :=
  λ w, (Return (storage w !! k), w).
Definition setItem (k v : jsstring) : M unit :=
  λ w, (Return (), with_storage (insert k v) w).
Definition removeItem (k : jsstring) : M unit :=
  λ w, (Return (), with_storage (delete k) w).

(** *** new Date().toISOString() *)

Definition tick (w : world) : world :=
  World (storage w) (clock w) (S (clock_reads w)) (entropy w) (entropy_used w)
        (crypto_calls w).

Definition Date_toISOString : M jsstring :=
  λ w, (Return (clock w (clock_reads w)), tick w).

(** *** crypto.getRandomValues(new Uint8Array(n)) *)

Definition draw (n : nat) (w : world) : world :=
  World (storage w) (clock w) (clock_reads w) (entropy w) (entropy_used w + n)
        (crypto_calls w).

Definition getRandomValues (n : nat) : M bytes :=
  λ w, (Return (entropy w <$> seq (entropy_used w) n), draw n w).

Definition called (c : crypto_call) (w : world) : world :=
  World (storage w) (clock w) (clock_reads w) (entropy w) (entropy_used w)
        (c :: crypto_calls w).

Definition record_call (c : crypto_call) : M unit :=
  λ w, (Return (), called c w).

(** ** walletStorage.js *)

Definition WALLET_LIST_KEY : jsstring := js "kaspa_wallets".
Definition MNEMONIC_PREFIX : jsstring := js "kaspa_mnemonic_".

Definition PBKDF2_ITERATIONS : N := 100000.
Definition SALT_LENGTH : nat := 16.
Definition IV_LENGTH : nat := 12.
Definition KEY_LENGTH : N := 256.

Section WalletStorage.
Context `{JSON} `{WebCrypto} `{Engine}.

(** *** Encryption *)

(** [deriveKey] (lines 20-46). *)
Definition deriveKey (password : jsstring) (salt : bytes) : M CryptoKey :=
  let passwordBuffer := TextEncoder_encode password in
  record_call (CallDeriveKey passwordBuffer salt);;
  mret (pbkdf2_sha256 PBKDF2_ITERATIONS KEY_LENGTH passwordBuffer salt).

Definition subtle_encrypt (key : CryptoKey) (iv data : bytes) : M bytes :=
  record_call (CallEncrypt iv data);;
  match aes_gcm_encrypt key iv data with
  | Some ct => mret ct
  | None => throw OperationError
  end.

Definition subtle_decrypt (key : CryptoKey) (iv data : bytes) : M bytes :=
  record_call (CallDecrypt iv data);;
  match aes_gcm_decrypt key iv data with
  | Some pt => mret pt
  | None => throw OperationError
  end.

(** [encrypt] (lines 54-78). *)
Definition encrypt (plaintext password : jsstring) : M jsstring :=
  let plaintextBuffer := TextEncoder_encode plaintext in
  salt ← getRandomValues SALT_LENGTH;
  iv ← getRandomValues IV_LENGTH;
  key ← deriveKey password salt;
  ciphertext ← subtle_encrypt key iv plaintextBuffer;
  let combined := salt ++ iv ++ ciphertext in
  binary ← lift (String_fromCharCode combined);
  lift (btoa binary).

(** [decrypt] (lines 87-106). *)
Definition decrypt (encoded password : jsstring) : M jsstring :=
  binary ← lift (atob encoded);
  let combined := Uint8Array_from binary in
  let salt := slice 0 SALT_LENGTH combined in
  let iv := slice SALT_LENGTH (SALT_LENGTH + IV_LENGTH) combined in
  let ciphertext := drop (SALT_LENGTH + IV_LENGTH) combined in
  key ← deriveKey password salt;
  plaintextBuffer ← subtle_decrypt key iv ciphertext;
  mret (TextDecoder_decode plaintextBuffer).

(** *** The registry *)

Definition JSON_parse_M (s : jsstring) : M jsval :=
  match JSON_parse s with
  | Some v => mret v
  | None => throw SyntaxError
  end.

(** [getStoredWallets] (lines 112-120). [!data] holds of [null] and of the
    empty string. *)
Definition getStoredWallets : M jsval :=
  try_catch
    (data ← getItem WALLET_LIST_KEY;
     match data with
     | None | Some [] => mret (JArr [])
     | Some d => JSON_parse_M d
     end)
    (λ _, mret (JArr [])).

(** [wallets.find] / [wallets.filter]: callable on arrays only. *)
Definition as_array (v : jsval) : M (list jsval) :=
  match v with
  | JArr l => mret l
  | _ => throw TypeError
  end.

(** [w.filename]: reading a property of [null] throws; strings, numbers,
    booleans and arrays have no such property ([None] is [undefined]). *)
Definition filename_of (w : jsval) : result (option jsval) :=
  match w with
  | JNull => Throw TypeError
  | JObj ps => Return (get_prop (js "filename") ps)
  | _ => Return None
  end.

(** [w.filename === filename] for a string [filename]. *)
Definition named (filename : jsstring) (w : jsval) : result bool :=
  match filename_of w with
  | Throw e => Throw e
  | Return (Some (JStr s)) => Return (bool_decide (s = filename))
  | Return _ => Return false
  end.

(** [wallets.find(w => w.filename === filename)]: the index of the first
    match stands for the reference [find] returns. *)
Fixpoint find_wallet (filename : jsstring) (ws : list jsval) : result (option nat) :=
  match ws with
  | [] => Return None
  | w :: ws' =>
      match named filename w with
      | Throw e => Throw e
      | Return true => Return (Some 0%nat)
      | Return false =>
          match find_wallet filename ws' with
          | Return (Some i) => Return (Some (S i))
          | r => r
          end
      end
  end.

(** [wallets.filter(w => w.filename !== filename)]. *)
Fixpoint filter_wallets (filename : jsstring) (ws : list jsval) : result (list jsval) :=
  match ws with
  | [] => Return []
  | w :: ws' =>
      match named filename w with
      | Throw e => Throw e
      | Return b =>
          match filter_wallets filename ws' with
          | Throw e => Throw e
          | Return r => Return (if b then r else w :: r)
          end
      end
  end.

(** Assignment to a property of the element at index [i]. *)
Definition set_member (k : jsstring) (v : jsval) (w : jsval) : jsval :=
  match w with
  | JObj ps => JObj (set_prop k v ps)
  | _ => w
  end.

(** The [network] argument: callers pass a network id or [null]. *)
Definition network_val (network : option jsstring) : jsval :=
  match network with Some s => JStr s | None => JNull end.

(** [addWalletToList] (lines 128-152). *)
Definition addWalletToList (filename : jsstring) (network : option jsstring)
    (hasMnemonic : bool) : M unit :=
  wallets ← getStoredWallets;
  ws ← as_array wallets;
  found ← lift (find_wallet filename ws);
  ws' ← match found with
        | Some i =>
            let ws1 := alter (set_member (js "network") (network_val network)) i ws in
            now ← Date_toISOString;
            let ws2 := alter (set_member (js "lastUsed") (JStr now)) i ws1 in
            mret (if hasMnemonic
                 then alter (set_member (js "hasMnemonic") (JBool true)) i ws2
                 else ws2)
        | None =>
            created ← Date_toISOString;
            used ← Date_toISOString;
            mret (ws ++ [JObj [(js "filename", JStr filename);
                              (js "network", network_val network);
                              (js "createdAt", JStr created);
                              (js "lastUsed", JStr used);
                              (js "hasMnemonic", JBool hasMnemonic)]])
        end;
  setItem WALLET_LIST_KEY (JSON_stringify (JArr ws')).

(** [removeWalletFromList] (lines 158-165). *)
Definition removeWalletFromList (filename : jsstring) : M unit :=
  wallets ← getStoredWallets;
  ws ← as_array wallets;
  filtered ← lift (filter_wallets filename ws);
  setItem WALLET_LIST_KEY (JSON_stringify (JArr filtered));;
  removeItem (MNEMONIC_PREFIX ++ filename).

(** [hasMnemonicStored] (lines 208-210). *)
Definition hasMnemonicStored (filename : jsstring) : M bool :=
  blob ← getItem (MNEMONIC_PREFIX ++ filename);
  mret (bool_decide (blob ≠ None)).

(** [storeMnemonic] (lines 174-185). *)
Definition storeMnemonic (filename mnemonic password : jsstring) : M unit :=
  encrypted ← encrypt mnemonic password;
  setItem (MNEMONIC_PREFIX ++ filename) encrypted;;
  wallets ← getStoredWallets;
  ws ← as_array wallets;
  wallet ← lift (find_wallet filename ws);
  match wallet with
  | Some i =>
      let ws' := alter (set_member (js "hasMnemonic") (JBool true)) i ws in
      setItem WALLET_LIST_KEY (JSON_stringify (JArr ws'))
  | None => mret ()
  end.

(** [retrieveMnemonic] (lines 193-201); [None] is [null]. *)
Definition retrieveMnemonic (filename password : jsstring) : M (option jsstring) :=
  try_catch
    (encrypted ← getItem (MNEMONIC_PREFIX ++ filename);
     match encrypted with
     | None | Some [] => mret None
     | Some blob => s ← decrypt blob password; mret (Some s)
     end)
    (λ _, mret None).

End WalletStorage.

(** *** Clearing the store *)

(** What a [for...of] over a string yields: its code points, a surrogate
    pair as one string. *)
Fixpoint code_points (s : jsstring) : list jsstring :=
  match s with
  | [] => []
  | c :: r =>
      if is_high_surrogate (`c) then
        match r with
        | d :: r' =>
            if is_low_surrogate (`d) then [c; d] :: code_points r'
            else [c] :: code_points r
        | [] => [[c]]
        end
      else [c] :: code_points r
  end.

(** [for (const x of v)]: arrays and strings are iterable; [null], booleans,
    numbers and the objects [JSON.parse] makes are not. *)
Definition iterate (v : jsval) : result (list jsval) :=
  match v with
  | JArr l => Return l
  | JStr s => Return (JStr <$> code_points s)
  | _ => Throw TypeError
  end.

Section ClearAll.
Context `{JSON} `{NumberFormat}.

(** [ToString(v)], as [+] with a string and [Array.prototype.join] apply it.
    An array is its elements joined by commas, [null] elements as the empty
    string. An object made by [JSON.parse] converts with the inherited
    [Object.prototype.toString]; an own property named [toString] hides it
    with a value that cannot be called, and the conversion throws. *)
Fixpoint ToString (v : jsval) : result jsstring :=
  match v with
  | JNull => Return (js "null")
  | JBool b => Return (if b then js "true" else js "false")
  | JNum x => Return (Number_toString x)
  | JStr s => Return s
  | JArr l =>
      (fix join (l : list jsval) : result jsstring :=
         match l with
         | [] => Return []
         | x :: r =>
             match (match x with JNull => Return [] | _ => ToString x end) with
             | Throw e => Throw e
             | Return s =>
                 match r with
                 | [] => Return s
                 | _ :: _ =>
                     match join r with
                     | Throw e => Throw e
                     | Return t => Return (s ++ js "," ++ t)
                     end
                 end
             end
         end) l
  | JObj ps =>
      match get_prop (js "toString") ps with
      | Some _ => Throw TypeError
      | None => Return (js "[object Object]")
      end
  end.

(** [ToString] of what a property read gave; [None] is [undefined]. *)
Definition ToString_prop (v : option jsval) : result jsstring :=
  match v with
  | None => Return (js "undefined")
  | Some v => ToString v
  end.

(** The loop of [clearAllWalletData] (lines 219-221). *)
Fixpoint remove_mnemonics (ws : list jsval) : M unit :=
  match ws with
  | [] => mret ()
  | wallet :: rest =>
      filename ← lift (filename_of wallet);
      suffix ← lift (ToString_prop filename);
      removeItem (MNEMONIC_PREFIX ++ suffix);;
      remove_mnemonics rest
  end.

(** [clearAllWalletData] (lines 215-225). *)
Definition clearAllWalletData : M unit :=
  wallets ← getStoredWallets;
  ws ← lift (iterate wallets);
  remove_mnemonics ws;;
  removeItem WALLET_LIST_KEY.

End ClearAll.

(** ** firstTimeSetup.js (src/unnamed/part_004): the flag of the first-time
    wizard *)

Definition FIRST_TIME_SETUP_KEY : jsstring := js "kaspa_first_time_setup_complete".

(** [v.length === 0]: reading a property of [null] throws; an array and a
    string have their length, an object its own property of that name,
    booleans and numbers none. *)
Definition length_is_zero (v : jsval) : result bool :=
  match v with
  | JNull => Throw TypeError
  | JArr l => Return (bool_decide (l = []))
  | JStr s => Return (bool_decide (s = []))
  | JObj ps =>
      Return (match get_prop (js "length") ps with
              | Some (JNum x) => PrimFloat.eqb x PrimFloat.zero
              | _ => false
              end)
  | JBool _ | JNum _ => Return false
  end.

Section FirstTimeSetup.
Context `{JSON}.

(** [isFirstTimeSetupNeeded] (lines 269-276). *)
Definition isFirstTimeSetupNeeded : M bool :=
  setupComplete ← getItem FIRST_TIME_SETUP_KEY;
  if bool_decide (setupComplete = Some (js "true")) then mret false
  else wallets ← getStoredWallets; lift (length_is_zero wallets).

(** [markFirstTimeSetupComplete] (lines 281-283). *)
Definition markFirstTimeSetupComplete : M unit :=
  setItem FIRST_TIME_SETUP_KEY (js "true").

(** [resetFirstTimeSetupFlag] (lines 289-291). *)
Definition resetFirstTimeSetupFlag : M unit :=
  removeItem FIRST_TIME_SETUP_KEY.

End FirstTimeSetup.

(** * Notions the properties are stated with *)

(** ** Observations of the registry *)

(** What the registry key holds, as [getStoredWallets] reads it. *)
Definition registry `{JSON} (st : gmap jsstring jsstring) : jsval :=
  match st !! WALLET_LIST_KEY with
  | None | Some [] => JArr []
  | Some d => default (JArr []) (JSON_parse d)
  end.

(** [getStoredWallets] returns the list [ws] in world [w]. *)
Definition lists `{JSON} (w : world) (ws : list jsval) : Prop :=
  getStoredWallets w = (Return (JArr ws), w).

(** The record [wallets.find] returns for [filename]. *)
Definition record_for (filename : jsstring) (ws : list jsval)
  : option (list (jsstring * jsval)) :=
  match find_wallet filename ws with
  | Return (Some i) =>
      match ws !! i with
      | Some (JObj ps) => Some ps
      | _ => None
      end
  | _ => None
  end.

(** The value of a field of the record for [filename]. *)
Definition field_of (k filename : jsstring) (ws : list jsval) : option jsval :=
  ps ← record_for filename ws; get_prop k ps.

(** The properties of a record after [addWalletToList] found it. *)
Definition touched (network : option jsstring) (now : jsstring) (hasMnemonic : bool)
    (ps : list (jsstring * jsval)) : list (jsstring * jsval) :=
  let ps2 := set_prop (js "lastUsed") (JStr now)
               (set_prop (js "network") (network_val network) ps) in
  if hasMnemonic then set_prop (js "hasMnemonic") (JBool true) ps2 else ps2.
Arguments touched : simpl never.

(** The record [addWalletToList] appends for an unknown filename. *)
Definition fresh_record (filename : jsstring) (network : option jsstring)
    (created used : jsstring) (hasMnemonic : bool) : list (jsstring * jsval) :=
  [(js "filename", JStr filename); (js "network", network_val network);
   (js "createdAt", JStr created); (js "lastUsed", JStr used);
   (js "hasMnemonic", JBool hasMnemonic)].

(** ** The registry invariant *)

Definition is_object (v : jsval) : Prop :=
  match v with JObj _ => True | _ => False end.

(** [getStoredWallets] returns a list of objects that JSON carries unchanged. *)
Definition well_formed_registry `{JSON} (w : world) : Prop :=
  ∃ ws, lists w ws ∧ json_plain (JArr ws) ∧ Forall is_object ws.

(** The filename a record carries: the string under [filename] of an
    object. *)
Definition name_of (v : jsval) : option jsstring :=
  match v with
  | JObj ps =>
      match get_prop (js "filename") ps with
      | Some (JStr s) => Some s
      | _ => None
      end
  | _ => None
  end.

(** The filenames a list names, in its order. *)
Definition names (ws : list jsval) : list jsstring := omap name_of ws.

(** Every entry is a record with a string filename. *)
Definition all_named (ws : list jsval) : Prop :=
  Forall (λ v, is_Some (name_of v)) ws.

(** [getStoredWallets] returns records that JSON carries unchanged, each with
    a filename, no filename twice. *)
Definition tidy_registry `{JSON} (w : world) : Prop :=
  ∃ ws, lists w ws ∧ json_plain (JArr ws) ∧ all_named ws ∧ NoDup (names ws).

(** The storage without the mnemonic keys of the given filenames. *)
Definition without (fs : list jsstring) (st : gmap jsstring jsstring)
  : gmap jsstring jsstring :=
  foldl (λ st f, delete (MNEMONIC_PREFIX ++ f) st) st fs.

Inductive api_call :=
| CallAdd (filename : jsstring) (network : option jsstring) (hasMnemonic : bool)
| CallRemove (filename : jsstring)
| CallStore (filename mnemonic password : jsstring)
| CallRetrieve (filename password : jsstring)
| CallClear
| CallMarkSetup
| CallResetSetup.

Definition after_call `{JSON} `{WebCrypto} `{Engine} `{NumberFormat}
    (c : api_call) (w : world) : world :=
  match c with
  | CallAdd f net h => (addWalletToList f net h w).2
  | CallRemove f => (removeWalletFromList f w).2
  | CallStore f m p => (storeMnemonic f m p w).2
  | CallRetrieve f p => (retrieveMnemonic f p w).2
  | CallClear => (clearAllWalletData w).2
  | CallMarkSetup => (markFirstTimeSetupComplete w).2
  | CallResetSetup => (resetFirstTimeSetupFlag w).2
  end.

(** The call returns: it does not throw. *)
Definition returns `{JSON} `{WebCrypto} `{Engine} `{NumberFormat}
    (c : api_call) (w : world) : Prop :=
  match c with
  | CallAdd f net h => (addWalletToList f net h w).1 = Return ()
  | CallRemove f => (removeWalletFromList f w).1 = Return ()
  | CallStore f m p => (storeMnemonic f m p w).1 = Return ()
  | CallRetrieve f p => ∃ r, (retrieveMnemonic f p w).1 = Return r
  | CallClear => (clearAllWalletData w).1 = Return ()
  | CallMarkSetup => (markFirstTimeSetupComplete w).1 = Return ()
  | CallResetSetup => (resetFirstTimeSetupFlag w).1 = Return ()
  end.

(** The world after a sequence of calls, and that each of them returns. *)
Definition after_calls `{JSON} `{WebCrypto} `{Engine} `{NumberFormat}
    (cs : list api_call) (w : world) : world :=
  foldl (λ w c, after_call c w) w cs.

Fixpoint all_return `{JSON} `{WebCrypto} `{Engine} `{NumberFormat}
    (cs : list api_call) (w : world) : Prop :=
  match cs with
  | [] => True
  | c :: cs' => returns c w ∧ all_return cs' (after_call c w)
  end.

(** ** Observations of the cipher *)

(** The fresh salt and IV [encrypt] draws in world [w]. *)
Definition salt_of (w : world) : bytes := entropy w <$> seq (entropy_used w) SALT_LENGTH.
Definition iv_of (w : world) : bytes :=
  entropy w <$> seq (entropy_used w + SALT_LENGTH) IV_LENGTH.

(** The key [deriveKey] computes. *)
Definition key_of `{WebCrypto} (password : jsstring) (salt : bytes) : CryptoKey :=
  pbkdf2_sha256 PBKDF2_ITERATIONS KEY_LENGTH (TextEncoder_encode password) salt.

(** The text is short enough for [encrypt]: with salt, IV and tag, its UTF-8
    bytes are no more than a call takes arguments. *)
Definition spreadable `{Engine} (m : jsstring) : Prop :=
  N.of_nat (length (TextEncoder_encode m)) + 44 ≤ argument_limit.

(** The call stores no phrase too long for [encrypt]. *)
Definition short_call `{Engine} (c : api_call) : Prop :=
  match c with
  | CallStore _ m _ => spreadable m
  | _ => True
  end.



(** The world after [encrypt] ran in [w]. *)
Definition encrypted (plaintext password : jsstring) (w : world) : world :=
  called (CallEncrypt (iv_of w) (TextEncoder_encode plaintext))
    (called (CallDeriveKey (TextEncoder_encode password) (salt_of w))
       (draw IV_LENGTH (draw SALT_LENGTH w))).

(** The world after [decrypt] reached the cipher in [w]. *)
Definition decrypted (password : jsstring) (combined : bytes) (w : world) : world :=
  called (CallDecrypt (slice SALT_LENGTH (SALT_LENGTH + IV_LENGTH) combined)
            (drop (SALT_LENGTH + IV_LENGTH) combined))
    (called (CallDeriveKey (TextEncoder_encode password)
               (slice 0 SALT_LENGTH combined)) w).

(** The world once the blob is stored. *)
Definition blob_stored (f blob m p : jsstring) (w : world) : world :=
  with_storage (insert (MNEMONIC_PREFIX ++ f) blob) (encrypted m p w).

(** What [retrieveMnemonic] returns is a function of the stored blob and the
    password. *)
Definition retrieved `{WebCrypto} (blob : option jsstring) (p : jsstring) : option jsstring :=
  match blob with
  | None | Some [] => None
  | Some blob =>
      match atob blob with
      | Throw _ => None
      | Return s =>
          let combined := Uint8Array_from s in
          TextDecoder_decode <$>
            aes_gcm_decrypt (key_of p (slice 0 SALT_LENGTH combined))
              (slice SALT_LENGTH (SALT_LENGTH + IV_LENGTH) combined)
              (drop (SALT_LENGTH + IV_LENGTH) combined)
      end
  end.

(** ** The codecs in arithmetic *)

(** A Unicode scalar value: a code point that is no surrogate. *)
Definition is_scalar (cp : N) : Prop := cp < 0x110000 ∧ ¬ (0xD800 ≤ cp ≤ 0xDFFF).

(** The six-bit groups of a byte sequence and the padding that follows. *)
Fixpoint to_sextets (bs : list N) : list N :=
  match bs with
  | [] => []
  | [a] => [a / 4; a mod 4 * 16]
  | [a; b] => [a / 4; a mod 4 * 16 + b / 16; b mod 16 * 4]
  | a :: b :: c :: r =>
      a / 4 :: (a mod 4 * 16 + b / 16) :: (b mod 16 * 4 + c / 64) :: c mod 64
        :: to_sextets r
  end.

Fixpoint b64_padding (bs : list N) : list N :=
  match bs with
  | [] => []
  | [_] => [b64_pad; b64_pad]
  | [_; _] => [b64_pad]
  | _ :: _ :: _ :: r => b64_padding r
  end.

(** The bytes of a scalar value, in arithmetic. *)
Definition utf8_units (cp : N) : list N :=
  if cp <? 0x80 then [cp]
  else if cp <? 0x800 then [cp / 64 + 0xC0; 0x80 + cp mod 64]
  else if cp <? 0x10000 then
    [cp / 4096 + 0xE0; 0x80 + cp / 64 mod 64; 0x80 + cp mod 64]
  else
    [cp / 262144 + 0xF0; 0x80 + cp / 4096 mod 64; 0x80 + cp / 64 mod 64;
     0x80 + cp mod 64].

(** The decoder run on byte values. *)
Fixpoint utf8_decode_units (d : utf8_decoder) (ns : list N) : list N :=
  match ns with
  | [] => if bytes_needed d =? 0 then [] else [0xFFFD]
  | b :: r =>
      let '(out, d') := utf8_step d b in
      out ++ utf8_decode_units d' r
  end.

(** ** A reference platform

    Executable functions for the two interfaces; that they meet the laws is
    shown with the properties. *)

Module Reference.

(** *** JSON: values as trees, trees as numbers, numbers as binary digits *)

Fixpoint to_tree (v : jsval) : gen_tree (bool + jsstring) :=
  match v with
  | JNull => GenNode 0 []
  | JBool b => GenLeaf (inl b)
  | JNum _ => GenNode 1 []
  | JStr s => GenLeaf (inr s)
  | JArr l => GenNode 2 (to_tree <$> l)
  | JObj ps => GenNode 3 ((λ kv, GenNode 4 [GenLeaf (inr kv.1); to_tree kv.2]) <$> ps)
  end.

Fixpoint of_tree (t : gen_tree (bool + jsstring)) : option jsval :=
  match t with
  | GenLeaf (inl b) => Some (JBool b)
  | GenLeaf (inr s) => Some (JStr s)
  | GenNode 0 [] => Some JNull
  | GenNode 2 ts =>
      JArr <$> (fix all ts :=
                  match ts with
                  | [] => Some []
                  | t :: r => v ← of_tree t; l ← all r; Some (v :: l)
                  end) ts
  | GenNode 3 ts =>
      JObj <$> (fix all ts :=
                  match ts with
                  | [] => Some []
                  | GenNode 4 [GenLeaf (inr k); t] :: r =>
                      v ← of_tree t; l ← all r; Some ((k, v) :: l)
                  | _ => None
                  end) ts
  | _ => None
  end.

Fixpoint pos_digits (p : positive) : jsstring :=
  match p with
  | xH => []
  | xO q => to_char16 48 :: pos_digits q
  | xI q => to_char16 49 :: pos_digits q
  end.

Fixpoint digits_pos (s : jsstring) : option positive :=
  match s with
  | [] => Some xH
  | c :: r =>
      if `c =? 48 then xO <$> digits_pos r
      else if `c =? 49 then xI <$> digits_pos r
      else None
  end.

Definition stringify (v : jsval) : jsstring :=
  match v with
  | JNull => js "null"
  | _ => to_char16 35 :: pos_digits (encode (to_tree v))
  end.

Definition parse (s : jsstring) : option jsval :=
  if decide (s = js "null") then Some JNull
  else match s with
       | c :: r =>
           if `c =? 35 then p ← digits_pos r; t ← decode p; of_tree t else None
       | [] => None
       end.

(** *** A cipher: the text followed by a 16-byte check of key, IV and text *)

Definition digest (l : bytes) : N := foldr (λ b acc, Byte.to_N b + 31 * acc) 7 l.

Definition tag (key : bytes * bytes) (iv text : bytes) : bytes :=
  replicate 16 (to_byte (digest key.1 + 3 * digest key.2 + 5 * digest iv
                         + 11 * digest text)).

Definition seal (key : bytes * bytes) (iv text : bytes) : option bytes :=
  Some (text ++ tag key iv text).

Definition open (key : bytes * bytes) (iv sealed : bytes) : option bytes :=
  let n := (length sealed - 16)%nat in
  if decide (length sealed < 16)%nat then None
  else if decide (Byte.to_N <$> drop n sealed = Byte.to_N <$> tag key iv (take n sealed))
       then Some (take n sealed)
       else None.

(** *** An ideal cipher: the ciphertext names the key and IV that sealed it *)

(** A byte array written so that no writing is the start of another. *)
Fixpoint framed (l : bytes) : bytes :=
  match l with
  | [] => [x00]
  | b :: r => x01 :: b :: framed r
  end.

(** [l] without its start [p], when it starts with it. *)
Fixpoint strip (p l : bytes) : option bytes :=
  match p, l with
  | [], _ => Some l
  | a :: p', b :: l' => if Byte.eqb a b then strip p' l' else None
  | _ :: _, [] => None
  end.

(** Sixteen bytes in the place of the tag, then the key (password and
    salt) and the IV. *)
Definition header (key : bytes * bytes) (iv : bytes) : bytes :=
  replicate 16 x00 ++ framed key.1 ++ framed key.2 ++ framed iv.

Definition ideal_seal (key : bytes * bytes) (iv text : bytes) : option bytes :=
  Some (header key iv ++ text).

Definition ideal_open (key : bytes * bytes) (iv sealed : bytes) : option bytes :=
  strip (header key iv) sealed.

(** *** Numbers: one text for all of them; no property rests on it *)

Definition number_text (x : float) : jsstring := js "NaN".

End Reference.

(** ** Worlds of the worked cases *)

(** A world with the given storage and clock, nothing drawn or called yet. *)
Definition world_with (st : gmap jsstring jsstring) (clk : nat → jsstring) : world :=
  World st clk 0 (λ _, x00) 0 [].

(** A clock that moves on by a millisecond between two readings. *)
Definition ticking_clock (n : nat) : jsstring :=
  match n with
  | O => js "2025-01-01T00:00:00.999Z"
  | _ => js "2025-01-01T00:00:01.000Z"
  end.

Definition frozen_clock (n : nat) : jsstring := js "2025-01-01T00:00:00.000Z".

(** The record of wallet [w1], its phrase saved. *)
Definition w1_record : list (jsstring * jsval) :=
  fresh_record (js "w1") (Some (js "testnet-10"))
    (js "2024-12-31T00:00:00.000Z") (js "2024-12-31T00:00:00.000Z") true.

(** A world whose registry lists [ws] and that holds a blob for [w1]. *)
Definition saved_world (ws : list jsval) (clk : nat → jsstring) : world :=
  world_with
    (<[WALLET_LIST_KEY := Reference.stringify (JArr ws)]>
       (<[MNEMONIC_PREFIX ++ js "w1" := js "blob"]> ∅))
    clk.

(** A world whose registry holds the text [null]. *)
Definition damaged_world : world :=
  world_with (<[WALLET_LIST_KEY := js "null"]> ∅) frozen_clock.

(** A phrase of 130000 letters [a]. *)
Definition long_phrase : jsstring := replicate (N.to_nat 130000) (to_char16 97).

(** The calls of a session: a wallet is registered, its phrase saved, the
    store cleared, the wallet registered again and removed. *)
Definition session : list api_call :=
  [CallAdd (js "w1") (Some (js "testnet-10")) false;
   CallStore (js "w1") (js "abandon ability able") (js "correct horse");
   CallRetrieve (js "w1") (js "correct horse");
   CallClear;
   CallMarkSetup;
   CallAdd (js "w1") None true;
   CallRemove (js "w1")].

(** ** Tactics *)

Ltac run :=
  unfold mbind, mret, M_bind, M_ret, bind, ret, throw, lift, try_catch,
    getItem, setItem, removeItem, Date_toISOString, getRandomValues,
    record_call, JSON_parse_M, as_array in *;
  simpl in *.

Ltac key_ne :=
  let E := fresh in
  intros E; apply (f_equal (fmap (M := list) proj1_sig)) in E;
  vm_compute in E; discriminate.

Ltac nbool :=
  repeat match goal with
         | |- context [N.leb ?a ?b] => destruct (N.leb_spec a b); try lia
         | |- context [N.ltb ?a ?b] => destruct (N.ltb_spec a b); try lia
         | |- context [N.eqb ?a ?b] => destruct (N.eqb_spec a b); try lia
         end;
  simpl.

Ltac Zify.zify_post_hook ::= Z.to_euclidean_division_equations.

(** * Properties *)

(** ** Code units, keys and properties *)

Lemma to_char16_val n : proj1_sig (to_char16 n) = n mod 65536.
Proof.
  unfold to_char16.
  generalize (eq_refl (n mod 65536 / 65536 =? 0)).
  generalize (n mod 65536 / 65536 =? 0) at 2 3.
  intros [] E; simpl; [done|].
  apply N.eqb_neq in E. rewrite N.div_small in E; [done|].
  by apply N.mod_upper_bound.
Qed.

Lemma char16_bound (c : char16) : `c < 65536.
Proof.
  destruct c as [n E]; simpl. apply N.eqb_eq in E.
  by apply N.div_small_iff in E.
Qed.

Lemma char16_eq (c d : char16) : `c = `d → c = d.
Proof. apply (proj2 (sig_eq_pi _ c d)). Qed.

Lemma to_char16_id (c : char16) : to_char16 (`c) = c.
Proof.
  apply char16_eq. rewrite to_char16_val.
  apply N.mod_small, char16_bound.
Qed.

(** The registry key is no mnemonic key: the two differ at their seventh
    character. *)
Lemma mnemonic_key_ne filename : MNEMONIC_PREFIX ++ filename ≠ WALLET_LIST_KEY.
Proof.
  intros E. apply (f_equal (λ s, proj1_sig <$> take 7 s)) in E.
  vm_compute in E. discriminate.
Qed.

Lemma mnemonic_key_inj f g : MNEMONIC_PREFIX ++ f = MNEMONIC_PREFIX ++ g → f = g.
Proof. apply app_inv_head. Qed.

(** The key of the setup flag is neither the registry key nor a mnemonic
    key. *)
Lemma setup_key_ne : FIRST_TIME_SETUP_KEY ≠ WALLET_LIST_KEY.
Proof. key_ne. Qed.

Lemma setup_key_no_mnemonic filename : MNEMONIC_PREFIX ++ filename ≠ FIRST_TIME_SETUP_KEY.
Proof.
  intros E. apply (f_equal (λ s, proj1_sig <$> take 7 s)) in E.
  vm_compute in E. discriminate.
Qed.

Lemma get_set_prop_eq k v ps : get_prop k (set_prop k v ps) = Some v.
Proof.
  induction ps as [|[k' v'] ps IH]; simpl.
  - by rewrite decide_True.
  - destruct (decide (k' = k)) as [->|Hne]; simpl.
    + by rewrite decide_True.
    + by rewrite decide_False.
Qed.

Lemma get_set_prop_ne k k' v ps :
  k ≠ k' → get_prop k' (set_prop k v ps) = get_prop k' ps.
Proof.
  intros Hne. induction ps as [|[k0 v0] ps IH]; simpl.
  - by rewrite decide_False.
  - destruct (decide (k0 = k)) as [->|Hk]; simpl.
    + by rewrite !decide_False.
    + destruct (decide (k0 = k')); done.
Qed.

Lemma set_prop_keys k v ps :
  (set_prop k v ps).*1 = if decide (k ∈ ps.*1) then ps.*1 else ps.*1 ++ [k].
Proof.
  induction ps as [|[k0 v0] ps IH]; csimpl; [done|].
  destruct (decide (k0 = k)) as [->|Hk]; csimpl.
  - rewrite decide_True; [done | left].
  - rewrite IH. destruct (decide (k ∈ ps.*1)) as [Hin|Hin].
    + rewrite decide_True; [done | by right].
    + rewrite decide_False; [done|].
      intros [?|?]%elem_of_cons; congruence.
Qed.

(** Induction on values, through arrays and objects. *)
Lemma jsval_ind (P : jsval → Prop) :
  P JNull → (∀ b, P (JBool b)) → (∀ x, P (JNum x)) → (∀ s, P (JStr s)) →
  (∀ l, Forall P l → P (JArr l)) →
  (∀ ps, Forall (λ kv, P kv.2) ps → P (JObj ps)) →
  ∀ v, P v.
Proof.
  intros Hnull Hbool Hnum Hstr Harr Hobj.
  fix F 1. intros [| b | x | s | l | ps].
  - exact Hnull.
  - apply Hbool.
  - apply Hnum.
  - apply Hstr.
  - apply Harr. induction l as [|v l IH]; constructor; [apply F | apply IH].
  - apply Hobj. induction ps as [|[k v] ps IH]; constructor; [apply F | apply IH].
Qed.

(** ** Values that JSON carries unchanged *)

Lemma json_plain_arr l : json_plain (JArr l) ↔ Forall json_plain l.
Proof.
  simpl. induction l as [|x l IH]; [by split; [constructor|]|].
  split.
  - intros [? ?]. constructor; [done | by apply IH].
  - inversion_clear 1. split; [done | by apply IH].
Qed.

Lemma json_plain_obj ps :
  json_plain (JObj ps) ↔
  NoDup ps.*1 ∧ Forall (λ k, index_like k = false) ps.*1 ∧
  Forall (λ kv, json_plain kv.2) ps.
Proof.
  simpl. do 2 apply and_iff_compat_l.
  induction ps as [|[k x] ps IH]; [by split; [constructor|]|].
  split.
  - intros [? ?]. constructor; [done | by apply IH].
  - inversion_clear 1. split; [done | by apply IH].
Qed.

Lemma set_prop_plain k v ps :
  index_like k = false → json_plain v →
  json_plain (JObj ps) → json_plain (JObj (set_prop k v ps)).
Proof.
  rewrite !json_plain_obj. intros Hk Hv (Hnd & Hidx & Hall).
  rewrite set_prop_keys. split_and!.
  - case_decide; [done|]. apply list.NoDup_app. split_and!; [done| |apply NoDup_singleton].
    intros x Hx ->%list_elem_of_singleton. done.
  - case_decide; [done|]. apply Forall_app. split; [done|]. by constructor.
  - clear Hnd Hidx. induction Hall as [|[k0 v0] ps Hx Hall IH]; simpl.
    + by repeat constructor.
    + case_decide; constructor; try done.
Qed.

Lemma set_member_plain k v w :
  index_like k = false → json_plain v → json_plain w →
  json_plain (set_member k v w).
Proof. destruct w; try done. apply set_prop_plain. Qed.

(** * The text codecs *)

(** ** Base64: what [btoa] writes, [atob] reads back *)

Lemma list_ind3 {A} (P : list A → Prop) :
  P [] → (∀ a, P [a]) → (∀ a b, P [a; b]) →
  (∀ a b c r, P r → P (a :: b :: c :: r)) →
  ∀ l, P l.
Proof.
  intros H0 H1 H2 H3 l.
  assert (P l ∧ (∀ a, P (a :: l)) ∧ (∀ a b, P (a :: b :: l))) as [? _]; [|done].
  induction l as [|x l (IH0 & IH1 & IH2)]; [by auto|].
  split_and!; auto.
Qed.

Lemma b64_encode_split bs :
  b64_encode bs = (b64_char <$> to_sextets bs) ++ b64_padding bs.
Proof.
  induction bs as [|a|a b|a b c r IH] using list_ind3; try done.
  cbn [b64_encode to_sextets b64_padding fmap list_fmap]. by rewrite IH.
Qed.

Lemma to_sextets_bound bs :
  Forall (λ n, n < 256) bs → Forall (λ n, n < 64) (to_sextets bs).
Proof.
  induction bs as [|a|a b|a b c r IH] using list_ind3; intros Hb.
  - constructor.
  - inversion_clear Hb. repeat constructor; lia.
  - inversion_clear Hb as [|?? Ha Hb']. inversion_clear Hb'.
    repeat constructor; lia.
  - inversion_clear Hb as [|?? Ha Hb']. inversion_clear Hb' as [|?? Hb Hc'].
    inversion_clear Hc' as [|?? Hc Hr]. cbn [to_sextets].
    repeat (constructor; [lia|]). by apply IH.
Qed.

Lemma b64_decode_sextets bs :
  Forall (λ n, n < 256) bs → b64_decode (to_sextets bs) = bs.
Proof.
  induction bs as [|a|a b|a b c r IH] using list_ind3; intros Hb.
  - done.
  - inversion_clear Hb. cbn. f_equal. lia.
  - inversion_clear Hb as [|?? Ha Hb']. inversion_clear Hb'.
    cbn. f_equal; [lia|]. f_equal. lia.
  - inversion_clear Hb as [|?? Ha Hb']. inversion_clear Hb' as [|?? Hb Hc'].
    inversion_clear Hc' as [|?? Hc Hr]. cbn [to_sextets b64_decode].
    rewrite IH by done. f_equal; [lia|]. f_equal; [lia|]. f_equal. lia.
Qed.

(** Lengths: the groups never leave one character over, and with the
    padding they fill whole quadruples. *)
Lemma to_sextets_length bs :
  ∃ q r, length (to_sextets bs) = (4 * q + r)%nat ∧ (r = 0 ∨ r = 2 ∨ r = 3)%nat ∧
         (length (to_sextets bs) + length (b64_padding bs) =
            4 * (q + (if decide (r = 0%nat) then 0 else 1)))%nat.
Proof.
  induction bs as [|a|a b|a b c r (q & r' & E & Hr & Ep)] using list_ind3.
  - exists 0%nat, 0%nat. simpl. lia.
  - exists 0%nat, 2%nat. simpl. lia.
  - exists 0%nat, 3%nat. simpl. lia.
  - exists (S q), r'. cbn [to_sextets b64_padding length]. rewrite E in *.
    split; [lia|]. split; [done|]. destruct (decide (r' = 0%nat)); lia.
Qed.

(** A check of all indices below 64. *)
Lemma below_64 (P : N → bool) :
  forallb P (N.of_nat <$> seq 0 64) = true → ∀ i, i < 64 → P i = true.
Proof.
  intros Hall i Hi. rewrite forallb_forall in Hall. apply Hall.
  apply in_map_iff. exists (N.to_nat i). split; [lia|].
  apply in_seq. lia.
Qed.

Lemma b64_index_char i : i < 64 → b64_index (b64_char i) = Some i.
Proof.
  intros Hi.
  pose proof (below_64 (λ i, bool_decide (b64_index (b64_char i) = Some i))
                eq_refl i Hi) as Hb.
  by apply bool_decide_eq_true in Hb.
Qed.

Lemma b64_char_plain i :
  i < 64 →
  is_ascii_whitespace (b64_char i) = false ∧ (b64_char i =? b64_pad) = false ∧
  b64_char i < 65536.
Proof.
  intros Hi.
  pose proof (below_64
    (λ i, negb (is_ascii_whitespace (b64_char i)) && negb (b64_char i =? b64_pad)
          && (b64_char i <? 65536)) eq_refl i Hi) as Hb.
  apply andb_true_iff in Hb as [Hb H3]. apply andb_true_iff in Hb as [H1 H2].
  apply negb_true_iff in H1, H2. by apply N.ltb_lt in H3.
Qed.

Lemma strip_one_pad l : strip_one (l ++ [b64_pad]) = l.
Proof. unfold strip_one. rewrite rev_unit. simpl. apply rev_involutive. Qed.

Lemma strip_one_chars l :
  Forall (λ n, n < 64) l → strip_one (b64_char <$> l) = b64_char <$> l.
Proof.
  intros Hl. unfold strip_one.
  destruct (rev (b64_char <$> l)) as [|c r] eqn:E; [done|].
  assert (c ∈ b64_char <$> l) as Hc.
  { apply list_elem_of_In, in_rev. rewrite E. by left. }
  apply list_elem_of_fmap in Hc as (i & -> & Hi).
  rewrite list.Forall_forall in Hl.
  by destruct (b64_char_plain i (Hl i Hi)) as (_ & -> & _).
Qed.

Lemma strip_padding_encode bs :
  Forall (λ n, n < 256) bs →
  strip_padding (b64_encode bs) = b64_char <$> to_sextets bs.
Proof.
  intros Hb. rewrite b64_encode_split. unfold strip_padding.
  pose proof (strip_one_chars _ (to_sextets_bound bs Hb)) as Hs.
  assert (b64_padding bs = [] ∨ b64_padding bs = [b64_pad] ∨
          b64_padding bs = [b64_pad; b64_pad]) as [->|[->| ->]].
  { clear. induction bs as [|a|a b|a b c r IH] using list_ind3; simpl; auto. }
  - by rewrite app_nil_r, !Hs.
  - by rewrite strip_one_pad, Hs.
  - change [b64_pad; b64_pad] with ([b64_pad] ++ [b64_pad]).
    by rewrite app_assoc, !strip_one_pad.
Qed.

Lemma mapM_b64_index l :
  Forall (λ n, n < 64) l → mapM b64_index (b64_char <$> l) = Some l.
Proof.
  intros Hl. apply mapM_Some.
  induction Hl as [|i l Hi Hl IH]; csimpl; constructor;
    auto using b64_index_char.
Qed.

Lemma b64_encode_chars bs :
  Forall (λ n, n < 256) bs →
  Forall (λ c, is_ascii_whitespace c = false ∧ c < 65536) (b64_encode bs).
Proof.
  intros Hb. rewrite b64_encode_split. apply Forall_app. split.
  - apply Forall_fmap. eapply list.Forall_impl; [by apply to_sextets_bound|].
    intros i Hi. simpl. by destruct (b64_char_plain i Hi) as (? & _ & ?).
  - clear. induction bs as [|a|a b|a b c r IH] using list_ind3; simpl;
      repeat constructor; done.
Qed.

Lemma fmap_to_char16_val (l : list N) :
  Forall (λ c, c < 65536) l → proj1_sig <$> (to_char16 <$> l) = l.
Proof.
  induction 1 as [|c l Hc Hl IH]; [done|]. csimpl.
  rewrite to_char16_val, N.mod_small, IH; done.
Qed.

Lemma filter_all {A} (P : A → Prop) `{!∀ x, Decision (P x)} (l : list A) :
  Forall P l → filter P l = l.
Proof.
  induction 1 as [|x l Hx Hl IH]; [done|].
  rewrite filter_cons_True by done. by rewrite IH.
Qed.

(** Bytes as a binary string and back. *)
Lemma char_codes_val (bs : bytes) :
  proj1_sig <$> char_codes bs = Byte.to_N <$> bs.
Proof.
  unfold char_codes. rewrite <- list_fmap_compose.
  apply list_fmap_ext. intros _ b _. simpl.
  rewrite to_char16_val. apply N.mod_small.
  pose proof (Byte.to_N_bounded b). lia.
Qed.

Lemma to_byte_to_N (b : byte) : to_byte (Byte.to_N b) = b.
Proof.
  unfold to_byte. rewrite N.mod_small
    by (pose proof (Byte.to_N_bounded b); lia).
  by rewrite Byte.of_to_N.
Qed.

Lemma to_N_to_byte n : n < 256 → Byte.to_N (to_byte n) = n.
Proof.
  intros Hn. unfold to_byte. rewrite N.mod_small by done.
  destruct (Byte.of_N n) as [b|] eqn:E.
  - by apply Byte.to_of_N.
  - apply Byte.of_N_None_iff in E. lia.
Qed.

Lemma Uint8Array_from_String (bs : bytes) :
  Uint8Array_from (char_codes bs) = bs.
Proof.
  unfold Uint8Array_from, char_codes. rewrite <- list_fmap_compose.
  rewrite <- (list_fmap_id bs) at 2. apply list_fmap_ext. intros _ b _. simpl.
  rewrite to_char16_val, N.mod_small
    by (pose proof (Byte.to_N_bounded b); lia).
  apply to_byte_to_N.
Qed.

Lemma bytes_bound (bs : bytes) : Forall (λ n, n < 256) (Byte.to_N <$> bs).
Proof.
  apply Forall_fmap, Forall_true. intros b. simpl.
  pose proof (Byte.to_N_bounded b). lia.
Qed.

(** [atob] undoes [btoa] on every byte sequence. *)
Lemma atob_btoa (bs : bytes) :
  ∃ blob, btoa (char_codes bs) = Return blob ∧
          atob blob = Return (char_codes bs).
Proof.
  pose proof (bytes_bound bs) as Hb.
  exists (to_char16 <$> b64_encode (Byte.to_N <$> bs)). split.
  - unfold btoa. rewrite char_codes_val.
    replace (forallb _ _) with true; [done|]. symmetry.
    apply forallb_forall. intros c Hc. apply N.leb_le.
    assert (proj1_sig c ∈ proj1_sig <$> char_codes bs) as Hin.
    { apply list_elem_of_fmap. exists c. split; [done|]. by apply list_elem_of_In. }
    rewrite char_codes_val in Hin.
    apply list_elem_of_fmap in Hin as (b & -> & _).
    apply Byte.to_N_bounded.
  - pose proof (b64_encode_chars _ Hb) as Hc.
    unfold atob. rewrite fmap_to_char16_val
      by (eapply list.Forall_impl; [done|]; by intros ? [_ ?]).
    rewrite filter_all by (eapply list.Forall_impl; [done|]; by intros ? [? _]).
    destruct (to_sextets_length (Byte.to_N <$> bs)) as (q & r & E & Hr & Ep).
    assert (length (b64_encode (Byte.to_N <$> bs)) =
            (4 * (q + (if decide (r = 0%nat) then 0 else 1)))%nat) as El.
    { by rewrite b64_encode_split, length_app, length_fmap. }
    replace (N.of_nat (length (b64_encode (Byte.to_N <$> bs))) mod 4 =? 0)
      with true by (symmetry; apply N.eqb_eq; rewrite El; lia).
    rewrite strip_padding_encode by done.
    replace (N.of_nat (length (b64_char <$> to_sextets (Byte.to_N <$> bs))) mod 4 =? 1)
      with false by (symmetry; apply N.eqb_neq; rewrite length_fmap, E; lia).
    rewrite mapM_b64_index by (by apply to_sextets_bound).
    rewrite b64_decode_sextets by done.
    unfold char_codes. by rewrite <- list_fmap_compose.
Qed.

(** ** UTF-8: what [TextEncoder] writes, [TextDecoder] reads back *)

Lemma lor_shiftl_small a n b : b < 2 ^ n → N.lor (N.shiftl a n) b = a * 2 ^ n + b.
Proof.
  intros Hb. rewrite N.shiftl_mul_pow2.
  rewrite <- N.lxor_lor, <- N.add_nocarry_lxor; try done;
    (apply N.bits_inj; intros m; rewrite N.land_spec, N.bits_0;
     destruct (N.lt_ge_cases m n) as [Hm|Hm];
     [ by rewrite N.mul_pow2_bits_low
     | destruct (N.eq_dec b 0) as [->|Hb0];
       [ by rewrite N.bits_0, andb_false_r
       | rewrite (N.bits_above_log2 b m), andb_false_r; [done|];
         apply N.log2_lt_pow2; [lia|];
         eapply N.lt_le_trans; [done|]; by apply N.pow_le_mono_r ] ]).
Qed.

Lemma lor_0x80 y : y < 64 → N.lor 0x80 y = 0x80 + y.
Proof. intros Hy. apply (lor_shiftl_small 2 6 y Hy). Qed.

Lemma land_0x3F x : N.land x 0x3F = x mod 64.
Proof. apply (N.land_ones x 6). Qed.

Lemma land_0x1F x : N.land x 0x1F = x mod 32.
Proof. apply (N.land_ones x 5). Qed.

Lemma land_0xF x : N.land x 0xF = x mod 16.
Proof. apply (N.land_ones x 4). Qed.

Lemma land_0x7 x : N.land x 0x7 = x mod 8.
Proof. apply (N.land_ones x 3). Qed.

Lemma trail_byte x : N.lor 0x80 (N.land x 0x3F) = 0x80 + x mod 64.
Proof. rewrite land_0x3F. apply lor_0x80. lia. Qed.

Lemma utf8_encode_scalar_units cp :
  cp < 0x110000 → Byte.to_N <$> utf8_encode_scalar cp = utf8_units cp.
Proof.
  intros Hcp. unfold utf8_encode_scalar, utf8_units.
  rewrite !trail_byte, !N.shiftr_div_pow2.
  change (2 ^ 6) with 64. change (2 ^ 12) with 4096. change (2 ^ 18) with 262144.
  nbool; by rewrite !to_N_to_byte by lia.
Qed.

(** The decoder's handler, case by case. *)
Lemma utf8_step_ascii b :
  b ≤ 0x7F → utf8_step utf8_decoder_init b = ([b], utf8_decoder_init).
Proof. intros Hb. unfold utf8_step, utf8_lead. simpl. by nbool. Qed.

Lemma utf8_step_lead2 b :
  0xC2 ≤ b ≤ 0xDF →
  utf8_step utf8_decoder_init b = ([], Utf8Decoder (b mod 32) 0 1 0x80 0xBF).
Proof.
  intros Hb. unfold utf8_step, utf8_lead. simpl. rewrite land_0x1F. by nbool.
Qed.

Lemma utf8_step_lead3 b :
  0xE0 ≤ b ≤ 0xEF →
  utf8_step utf8_decoder_init b =
    ([], Utf8Decoder (b mod 16) 0 2 (if b =? 0xE0 then 0xA0 else 0x80)
           (if b =? 0xED then 0x9F else 0xBF)).
Proof.
  intros Hb. unfold utf8_step, utf8_lead. simpl. rewrite land_0xF.
  destruct (N.leb_spec b 0x7F); [lia|].
  destruct (N.leb_spec 0xC2 b); [|lia].
  destruct (N.leb_spec b 0xDF); [lia|]. simpl.
  destruct (N.leb_spec 0xE0 b); [|lia].
  destruct (N.leb_spec b 0xEF); [|lia]. done.
Qed.

Lemma utf8_step_lead4 b :
  0xF0 ≤ b ≤ 0xF4 →
  utf8_step utf8_decoder_init b =
    ([], Utf8Decoder (b mod 8) 0 3 (if b =? 0xF0 then 0x90 else 0x80)
           (if b =? 0xF4 then 0x8F else 0xBF)).
Proof.
  intros Hb. unfold utf8_step, utf8_lead. simpl. rewrite land_0x7.
  destruct (N.leb_spec b 0x7F); [lia|].
  destruct (N.leb_spec 0xC2 b); [|lia].
  destruct (N.leb_spec b 0xDF); [lia|]. simpl.
  destruct (N.leb_spec 0xE0 b); [|lia].
  destruct (N.leb_spec b 0xEF); [lia|]. simpl.
  destruct (N.leb_spec 0xF0 b); [|lia].
  destruct (N.leb_spec b 0xF4); [|lia]. done.
Qed.

Lemma utf8_step_trail cp seen needed lo hi b :
  needed ≠ 0 → lo ≤ b ≤ hi →
  utf8_step (Utf8Decoder cp seen needed lo hi) b =
    if seen + 1 =? needed
    then ([cp * 64 + b mod 64], utf8_decoder_init)
    else ([], Utf8Decoder (cp * 64 + b mod 64) (seen + 1) needed 0x80 0xBF).
Proof.
  intros Hn Hb. unfold utf8_step. simpl.
  destruct (N.eqb_spec needed 0); [done|].
  destruct (N.leb_spec lo b); [|lia].
  destruct (N.leb_spec b hi); [|lia]. simpl.
  rewrite land_0x3F, (lor_shiftl_small cp 6) by lia. done.
Qed.

Lemma utf8_decode_from_units d (bs : bytes) :
  utf8_decode_from d bs = utf8_decode_units d (Byte.to_N <$> bs).
Proof.
  revert d. induction bs as [|b bs IH]; intros d; [done|].
  csimpl. destruct (utf8_step d (Byte.to_N b)) as [out d']. by rewrite IH.
Qed.

#[local] Arguments utf8_step : simpl never.
#[local] Arguments N.div : simpl never.
#[local] Arguments N.modulo : simpl never.
#[local] Arguments N.mul : simpl never.

Lemma utf8_decode_units_scalar cp rest :
  is_scalar cp →
  utf8_decode_units utf8_decoder_init (utf8_units cp ++ rest) =
    cp :: utf8_decode_units utf8_decoder_init rest.
Proof.
  intros [Hlt Hs]. unfold utf8_units.
  destruct (N.ltb_spec cp 0x80); [|destruct (N.ltb_spec cp 0x800);
    [|destruct (N.ltb_spec cp 0x10000)]]; simpl.
  - by rewrite utf8_step_ascii by lia.
  - rewrite utf8_step_lead2 by lia. simpl.
    rewrite utf8_step_trail by lia. simpl. f_equal. lia.
  - rewrite utf8_step_lead3 by lia. simpl.
    rewrite utf8_step_trail by (nbool; lia). simpl.
    rewrite utf8_step_trail by lia. simpl. f_equal. lia.
  - rewrite utf8_step_lead4 by lia. simpl.
    rewrite utf8_step_trail by (nbool; lia). simpl.
    rewrite utf8_step_trail by lia. simpl.
    rewrite utf8_step_trail by lia. simpl. f_equal. lia.
Qed.

Lemma utf8_decode_encode (cps : list N) :
  Forall is_scalar cps →
  utf8_decode_from utf8_decoder_init (flat_map utf8_encode_scalar cps) = cps.
Proof.
  intros Hc. rewrite utf8_decode_from_units.
  induction Hc as [|cp cps Hcp Hc IH]; [done|].
  cbn [flat_map]. rewrite fmap_app, utf8_encode_scalar_units by apply Hcp.
  by rewrite utf8_decode_units_scalar, IH.
Qed.

(** ** UTF-16: code units and scalar values *)

Lemma list_ind2 {A} (P : list A → Prop) :
  P [] → (∀ a, P [a]) → (∀ a b l, P l → P (b :: l) → P (a :: b :: l)) →
  ∀ l, P l.
Proof.
  intros H0 H1 H2 l.
  assert (P l ∧ ∀ a, P (a :: l)) as [? _]; [|done].
  induction l as [|x l [IH0 IH1]]; [by auto|]. split; auto.
Qed.

Lemma to_scalars_cons a r :
  to_scalars (a :: r) =
    if is_high_surrogate a then
      match r with
      | d :: r' =>
          if is_low_surrogate d
          then (0x10000 + (a - 0xD800) * 0x400 + (d - 0xDC00)) :: to_scalars r'
          else 0xFFFD :: to_scalars r
      | [] => [0xFFFD]
      end
    else if is_low_surrogate a then 0xFFFD :: to_scalars r
    else a :: to_scalars r.
Proof. done. Qed.

Lemma is_high_surrogate_spec c :
  if is_high_surrogate c then 0xD800 ≤ c ≤ 0xDBFF else c < 0xD800 ∨ 0xDBFF < c.
Proof. unfold is_high_surrogate. nbool; lia. Qed.

Lemma is_low_surrogate_spec c :
  if is_low_surrogate c then 0xDC00 ≤ c ≤ 0xDFFF else c < 0xDC00 ∨ 0xDFFF < c.
Proof. unfold is_low_surrogate. nbool; lia. Qed.

Lemma to_scalars_scalar s :
  Forall (λ c, c < 65536) s → Forall is_scalar (to_scalars s).
Proof.
  unfold is_scalar.
  induction s as [|a|a b l IH1 IH2] using list_ind2; intros Hs.
  - constructor.
  - inversion_clear Hs. rewrite to_scalars_cons.
    pose proof (is_high_surrogate_spec a). pose proof (is_low_surrogate_spec a).
    destruct (is_high_surrogate a), (is_low_surrogate a);
      repeat constructor; lia.
  - inversion_clear Hs as [|?? Ha Hs']. pose proof Hs' as Hbl.
    inversion_clear Hs' as [|?? Hb Hl]. rewrite to_scalars_cons.
    pose proof (is_high_surrogate_spec a). pose proof (is_low_surrogate_spec a).
    pose proof (is_low_surrogate_spec b).
    destruct (is_high_surrogate a), (is_low_surrogate a), (is_low_surrogate b);
      (constructor; [lia|]); auto.
Qed.

Lemma of_scalar_pair a b :
  is_high_surrogate a = true → is_low_surrogate b = true →
  of_scalar (0x10000 + (a - 0xD800) * 0x400 + (b - 0xDC00)) =
    [to_char16 a; to_char16 b].
Proof.
  unfold is_high_surrogate, is_low_surrogate, of_scalar.
  intros [?%N.leb_le ?%N.leb_le]%andb_true_iff
         [?%N.leb_le ?%N.leb_le]%andb_true_iff.
  destruct (N.ltb_spec (0x10000 + (a - 0xD800) * 0x400 + (b - 0xDC00)) 0x10000);
    [lia|].
  f_equal; [|f_equal]; f_equal; lia.
Qed.

Lemma of_scalar_unit c :
  c < 65536 → of_scalar c = [to_char16 c].
Proof. intros Hc. unfold of_scalar. by nbool. Qed.

Lemma to_scalars_roundtrip s :
  Forall (λ c, c < 65536) s → well_formed s = true →
  flat_map of_scalar (to_scalars s) = to_char16 <$> s.
Proof.
  induction s as [|a|a b l IH1 IH2] using list_ind2; intros Hs Hw.
  - done.
  - inversion_clear Hs. rewrite to_scalars_cons. simpl in Hw.
    destruct (is_high_surrogate a); [done|].
    destruct (is_low_surrogate a); [done|]. simpl.
    by rewrite of_scalar_unit.
  - inversion_clear Hs as [|?? Ha Hs']. pose proof Hs' as Hbl.
    inversion_clear Hs' as [|?? Hb Hl]. rewrite to_scalars_cons.
    change (well_formed (a :: b :: l)) with
      (if is_high_surrogate a then is_low_surrogate b && well_formed l
       else negb (is_low_surrogate a) && well_formed (b :: l)) in Hw.
    destruct (is_high_surrogate a) eqn:Eh.
    + apply andb_true_iff in Hw as [El Hw]. rewrite El. cbn [flat_map].
      rewrite of_scalar_pair, IH1 by done. done.
    + apply andb_true_iff in Hw as [El%negb_true_iff Hw]. rewrite El.
      cbn [flat_map]. rewrite of_scalar_unit, IH2 by done. done.
Qed.

Lemma to_scalars_no_BOM s :
  match s with c :: _ => (c =? 0xFEFF) = false | [] => True end →
  match to_scalars s with
  | 0xFEFF :: r => r
  | _ => to_scalars s
  end = to_scalars s.
Proof.
  destruct s as [|a s]; [done|]. intros Ha%N.eqb_neq. rewrite to_scalars_cons.
  pose proof (is_high_surrogate_spec a). pose proof (is_low_surrogate_spec a).
  assert (∀ x r, x ≠ 0xFEFF →
            match x :: r with 0xFEFF :: r' => r' | _ => x :: r end = x :: r)
    as Hx.
  { intros x r Hne. destruct x as [|p]; [done|].
    repeat (destruct p as [p|p|]; try done). }
  destruct (is_high_surrogate a).
  - destruct s as [|b s]; [done|].
    pose proof (is_low_surrogate_spec b).
    destruct (is_low_surrogate b); [|done]. apply Hx. lia.
  - destruct (is_low_surrogate a); [done|]. by apply Hx.
Qed.

(** What [TextDecoder] reads from what [TextEncoder] wrote: the string
    itself when it is well formed and does not start with U+FEFF. *)
Lemma TextDecoder_TextEncoder (s : jsstring) :
  isWellFormed s = true → starts_with_BOM s = false →
  TextDecoder_decode (TextEncoder_encode s) = s.
Proof.
  intros Hw Hb. unfold TextDecoder_decode, TextEncoder_encode.
  assert (Forall (λ c, c < 65536) (proj1_sig <$> s)) as Hs.
  { apply Forall_fmap, Forall_true. intros c. apply char16_bound. }
  rewrite utf8_decode_encode by (by apply to_scalars_scalar).
  rewrite to_scalars_no_BOM by (by destruct s).
  rewrite to_scalars_roundtrip by done.
  rewrite <- list_fmap_compose. rewrite <- (list_fmap_id s) at 2.
  apply list_fmap_ext. intros _ c _. apply to_char16_id.
Qed.

(** ** Running the registry functions *)

Section RegistryFacts.
Context `{JSON}.

Lemma getStoredWallets_run w :
  getStoredWallets w = (Return (registry (storage w)), w).
Proof.
  unfold getStoredWallets, registry. run.
  destruct (storage w !! WALLET_LIST_KEY) as [[|c d]|]; try done.
  by destruct (JSON_parse (c :: d)).
Qed.

Lemma lists_registry w ws : lists w ws ↔ registry (storage w) = JArr ws.
Proof.
  unfold lists. rewrite getStoredWallets_run. split; [congruence|by intros ->].
Qed.

Lemma JSON_stringify_nonempty v : json_plain v → JSON_stringify v ≠ [].
Proof.
  intros Hv E. pose proof (JSON_parse_stringify v Hv) as Hp.
  rewrite E, JSON_parse_empty in Hp. done.
Qed.

Lemma registry_insert st v :
  json_plain v → registry (<[WALLET_LIST_KEY := JSON_stringify v]> st) = v.
Proof.
  intros Hv. unfold registry. rewrite lookup_insert_eq.
  pose proof (JSON_stringify_nonempty v Hv).
  destruct (JSON_stringify v) eqn:E; [done|].
  rewrite <- E, JSON_parse_stringify; done.
Qed.

Lemma registry_insert_ne st k v :
  k ≠ WALLET_LIST_KEY → registry (<[k := v]> st) = registry st.
Proof. intros Hk. unfold registry. by rewrite lookup_insert_ne. Qed.

Lemma registry_delete_ne st k :
  k ≠ WALLET_LIST_KEY → registry (delete k st) = registry st.
Proof. intros Hk. unfold registry. by rewrite lookup_delete_ne. Qed.

End RegistryFacts.

(** ** Finding and filtering records *)

Lemma named_set_member f k v w :
  k ≠ js "filename" → named f (set_member k v w) = named f w.
Proof.
  intros Hk. destruct w; try done.
  unfold named; simpl. by rewrite get_set_prop_ne.
Qed.

Lemma find_wallet_alter f k v i ws :
  k ≠ js "filename" →
  find_wallet f (alter (set_member k v) i ws) = find_wallet f ws.
Proof.
  intros Hk. revert i. induction ws as [|w ws IH]; intros [|i]; try done.
  - simpl. by rewrite named_set_member.
  - change (alter (set_member k v) (S i) (w :: ws))
      with (w :: alter (set_member k v) i ws).
    simpl. by rewrite IH.
Qed.

Lemma find_wallet_Some f ws i :
  find_wallet f ws = Return (Some i) →
  ∃ ps, ws !! i = Some (JObj ps) ∧ get_prop (js "filename") ps = Some (JStr f).
Proof.
  revert i. induction ws as [|w ws IH]; intros i; simpl; [done|].
  destruct (named f w) as [[]|] eqn:En; [| |done].
  - intros [= <-]. simpl. unfold named in En.
    destruct w as [| | | | |ps]; simpl in En; try done.
    exists ps. split; [done|].
    destruct (get_prop (js "filename") ps) as [[]|]; try done.
    injection En as En. by apply bool_decide_eq_true in En as ->.
  - destruct (find_wallet f ws) as [[j|]|]; [|done..].
    intros [= <-]. simpl. by apply IH.
Qed.

Lemma find_wallet_lt f ws i :
  find_wallet f ws = Return (Some i) → (i < length ws)%nat.
Proof.
  intros (ps & Hi & _)%find_wallet_Some. by apply lookup_lt_Some in Hi.
Qed.

Lemma find_wallet_app f ws w :
  find_wallet f ws = Return None →
  find_wallet f (ws ++ [w]) =
    match named f w with
    | Return true => Return (Some (length ws))
    | Return false => Return None
    | Throw e => Throw e
    end.
Proof.
  induction ws as [|x ws IH]; simpl.
  - intros _. by destruct (named f w) as [[]|].
  - destruct (named f x) as [[]|]; [done| |done].
    destruct (find_wallet f ws) as [[j|]|]; [done| |done].
    intros _. rewrite IH by done. by destruct (named f w) as [[]|].
Qed.

Lemma alter_lookup_insert {A} (g : A → A) i (l : list A) x :
  l !! i = Some x → alter g i l = <[i := g x]> l.
Proof.
  revert i. induction l as [|y l IH]; intros [|i]; try done.
  - by intros [= ->].
  - intros Hi. change (alter g (S i) (y :: l)) with (y :: alter g i l).
    simpl. f_equal. by apply IH.
Qed.

Lemma filter_wallets_total f ws :
  JNull ∉ ws → ∃ r, filter_wallets f ws = Return r.
Proof.
  induction ws as [|w ws IH]; simpl; [by eexists|].
  intros [Hw Hws]%not_elem_of_cons. destruct (IH Hws) as [r ->].
  unfold named. destruct w; try done; simpl; try by eexists.
  destruct (get_prop _ _) as [[]|]; by eexists.
Qed.

Lemma filter_wallets_sublist f ws r :
  filter_wallets f ws = Return r → sublist r ws.
Proof.
  revert r. induction ws as [|w ws IH]; simpl; intros r.
  - intros [= <-]. constructor.
  - destruct (named f w) as [b|]; [|done].
    destruct (filter_wallets f ws) as [r'|]; [|done].
    intros [= <-]. destruct b; [apply sublist_cons | apply sublist_skip]; auto.
Qed.

Lemma filter_wallets_find f ws r :
  filter_wallets f ws = Return r → find_wallet f r = Return None.
Proof.
  revert r. induction ws as [|w ws IH]; simpl; intros r.
  - by intros [= <-].
  - destruct (named f w) as [b|] eqn:En; [|done].
    destruct (filter_wallets f ws) as [r'|]; [|done].
    intros [= <-]. destruct b; [by apply IH|].
    simpl. rewrite En. by rewrite (IH r').
Qed.

Lemma filter_wallets_none f ws :
  find_wallet f ws = Return None → filter_wallets f ws = Return ws.
Proof.
  induction ws as [|w ws IH]; simpl; [done|].
  destruct (named f w) as [[]|]; [done| |done].
  destruct (find_wallet f ws) as [[j|]|]; [done| |done].
  intros _. by rewrite IH.
Qed.

(** Records that are kept: those [named] does not select. *)
Lemma filter_wallets_keeps f ws r w :
  filter_wallets f ws = Return r →
  w ∈ r ↔ w ∈ ws ∧ named f w = Return false.
Proof.
  revert r. induction ws as [|x ws IH]; simpl; intros r.
  - intros [= <-]. split; [by intros ?%elem_of_nil | by intros [?%elem_of_nil _]].
  - destruct (named f x) as [b|] eqn:En; [|done].
    destruct (filter_wallets f ws) as [r'|]; [|done].
    intros [= <-]. specialize (IH r' eq_refl). destruct b.
    + rewrite IH, elem_of_cons. split; [tauto|].
      intros [[->|?] Hn]; [congruence | done].
    + rewrite !elem_of_cons, IH. split; [|tauto].
      intros [->|[? ?]]; [by split; [left|] | by split; [right|]].
Qed.

(** ** addWalletToList, step by step *)

Section UpsertFacts.
Context `{JSON}.

Lemma alter_insert_eq {A} (g : A → A) i (l : list A) x :
  (i < length l)%nat → alter g i (<[i := x]> l) = <[i := g x]> l.
Proof.
  intros Hlt. rewrite (alter_lookup_insert g i _ x).
  - by rewrite list_insert_insert_eq.
  - by apply list_lookup_insert_eq.
Qed.

Lemma touched_alters net now (h : bool) i (ws : list jsval) ps :
  ws !! i = Some (JObj ps) →
  (if h
   then alter (set_member (js "hasMnemonic") (JBool true)) i
          (alter (set_member (js "lastUsed") (JStr now)) i
             (alter (set_member (js "network") (network_val net)) i ws))
   else alter (set_member (js "lastUsed") (JStr now)) i
          (alter (set_member (js "network") (network_val net)) i ws))
  = <[i := JObj (touched net now h ps)]> ws.
Proof.
  intros Hi. assert (Hlt := lookup_lt_Some _ _ _ Hi).
  rewrite (alter_lookup_insert _ i ws _ Hi).
  rewrite (alter_insert_eq _ i ws _ Hlt).
  unfold touched. destruct h; [|done].
  by rewrite (alter_insert_eq _ i ws _ Hlt).
Qed.

Lemma addWalletToList_existing w f net h ws i ps :
  lists w ws → find_wallet f ws = Return (Some i) → ws !! i = Some (JObj ps) →
  addWalletToList f net h w =
    (Return (),
     with_storage
       (insert WALLET_LIST_KEY
          (JSON_stringify
             (JArr (<[i := JObj (touched net (clock w (clock_reads w)) h ps)]> ws))))
       (tick w)).
Proof.
  intros Hl Hf Hi. unfold addWalletToList. run. rewrite Hl. simpl.
  rewrite Hf. simpl. by rewrite (touched_alters _ _ _ _ _ _ Hi).
Qed.

Lemma addWalletToList_new w f net h ws :
  lists w ws → find_wallet f ws = Return None →
  addWalletToList f net h w =
    (Return (),
     with_storage
       (insert WALLET_LIST_KEY
          (JSON_stringify
             (JArr (ws ++ [JObj (fresh_record f net (clock w (clock_reads w))
                                   (clock w (S (clock_reads w))) h)]))))
       (tick (tick w))).
Proof.
  intros Hl Hf. unfold addWalletToList. run. rewrite Hl. simpl.
  by rewrite Hf.
Qed.

Lemma touched_plain net now h ps :
  json_plain (JObj ps) → json_plain (JObj (touched net now h ps)).
Proof.
  intros Hps. unfold touched.
  assert (json_plain (JObj (set_prop (js "lastUsed") (JStr now)
            (set_prop (js "network") (network_val net) ps)))).
  { apply set_prop_plain; [done..|]. apply set_prop_plain; [done| |done].
    by destruct net. }
  destruct h; [|done]. by apply set_prop_plain.
Qed.

Lemma fresh_record_plain f net created used h :
  json_plain (JObj (fresh_record f net created used h)).
Proof.
  apply json_plain_obj. split_and!.
  - apply (bool_decide_unpack _). by vm_compute.
  - by repeat constructor.
  - repeat constructor; try done. by destruct net.
Qed.

Lemma insert_plain ws i v :
  json_plain (JArr ws) → json_plain v → json_plain (JArr (<[i := v]> ws)).
Proof.
  rewrite !json_plain_arr. intros Hws Hv.
  destruct (decide (i < length ws)%nat).
  - by apply Forall_insert.
  - by rewrite list_insert_ge by lia.
Qed.

Lemma lookup_plain ws i v :
  json_plain (JArr ws) → ws !! i = Some v → json_plain v.
Proof. rewrite json_plain_arr, Forall_lookup. eauto. Qed.

Lemma touched_get net now h ps k :
  get_prop k (touched net now h ps) =
    if decide (k = js "hasMnemonic") then
      if h then Some (JBool true) else get_prop k ps
    else if decide (k = js "lastUsed") then Some (JStr now)
    else if decide (k = js "network") then Some (network_val net)
    else get_prop k ps.
Proof.
  unfold touched.
  assert (js "lastUsed" ≠ js "hasMnemonic") by key_ne.
  assert (js "network" ≠ js "hasMnemonic") by key_ne.
  assert (js "network" ≠ js "lastUsed") by key_ne.
  destruct (decide (k = js "hasMnemonic")) as [->|].
  { destruct h; [by rewrite get_set_prop_eq|]. by rewrite !get_set_prop_ne. }
  assert (get_prop k (set_prop (js "lastUsed") (JStr now)
            (set_prop (js "network") (network_val net) ps)) =
          if decide (k = js "lastUsed") then Some (JStr now)
          else if decide (k = js "network") then Some (network_val net)
          else get_prop k ps) as E.
  { destruct (decide (k = js "lastUsed")) as [->|]; [by rewrite get_set_prop_eq|].
    rewrite get_set_prop_ne by done.
    destruct (decide (k = js "network")) as [->|]; [by rewrite get_set_prop_eq|].
    by rewrite get_set_prop_ne. }
  destruct h; [|done]. by rewrite get_set_prop_ne.
Qed.

Lemma find_wallet_insert_touched f ws i ps net now h :
  find_wallet f ws = Return (Some i) → ws !! i = Some (JObj ps) →
  find_wallet f (<[i := JObj (touched net now h ps)]> ws) = Return (Some i).
Proof.
  intros Hf Hi.
  assert (js "network" ≠ js "filename") by key_ne.
  assert (js "lastUsed" ≠ js "filename") by key_ne.
  assert (js "hasMnemonic" ≠ js "filename") by key_ne.
  rewrite <- (touched_alters net now h i ws ps Hi).
  destruct h; simpl; by rewrite ?find_wallet_alter.
Qed.

End UpsertFacts.

(** ** The registry: upserts *)

Section Upsert.
Context `{JSON}.

Lemma lists_after_write w w' ws' :
  json_plain (JArr ws') →
  storage w' = <[WALLET_LIST_KEY := JSON_stringify (JArr ws')]> (storage w) →
  lists w' ws'.
Proof.
  intros Hp Hs. apply lists_registry. rewrite Hs. by apply registry_insert.
Qed.

Lemma record_for_Some f ws ps :
  record_for f ws = Some ps ↔
  ∃ i, find_wallet f ws = Return (Some i) ∧ ws !! i = Some (JObj ps).
Proof.
  unfold record_for. split.
  - destruct (find_wallet f ws) as [[i|]|]; [|done..].
    destruct (ws !! i) as [[]|] eqn:Hi; try done. intros [= ->]. eauto.
  - intros (i & -> & ->). done.
Qed.

(** C5. The [hasMnemonic] flag is monotone under [addWalletToList]: in a
    world whose registry lists records that JSON carries unchanged, if the
    record for [f] has [hasMnemonic] true, then after
    [addWalletToList f net false] the record for [f] still has it true. *)
Theorem hasMnemonic_monotone w f net ws :
  lists w ws → json_plain (JArr ws) →
  field_of (js "hasMnemonic") f ws = Some (JBool true) →
  ∃ ws', lists (addWalletToList f net false w).2 ws' ∧
         field_of (js "hasMnemonic") f ws' = Some (JBool true).
Proof.
  intros Hl Hp Hflag. unfold field_of in Hflag.
  destruct (record_for f ws) as [ps|] eqn:Hrec; [|done]. simpl in Hflag.
  apply record_for_Some in Hrec as (i & Hf & Hi).
  rewrite (addWalletToList_existing w f net false ws i ps) by done.
  cbn [fst snd]. eexists. split.
  - eapply lists_after_write; [|done].
    apply insert_plain; [done|]. apply touched_plain. by eapply lookup_plain.
  - unfold field_of.
    assert (record_for f (<[i:=JObj (touched net (clock w (clock_reads w)) false ps)]> ws)
            = Some (touched net (clock w (clock_reads w)) false ps)) as ->.
    { apply record_for_Some. exists i. split.
      - by apply find_wallet_insert_touched.
      - apply list_lookup_insert_eq. by eapply lookup_lt_Some. }
    simpl. rewrite touched_get. by rewrite decide_True.
Qed.

(** C10. [addWalletToList] on a filename that has a record changes that
    record's [network], [lastUsed] and (when asked) [hasMnemonic] and
    nothing else: [createdAt] and every other property of the record, every
    other record, the positions of all records and every other storage key
    are as before. *)
Theorem addWalletToList_frame w f net h ws i ps :
  lists w ws → json_plain (JArr ws) →
  find_wallet f ws = Return (Some i) → ws !! i = Some (JObj ps) →
  let w' := (addWalletToList f net h w).2 in
  ∃ ws' ps',
    (addWalletToList f net h w).1 = Return () ∧
    lists w' ws' ∧
    length ws' = length ws ∧
    (∀ j, j ≠ i → ws' !! j = ws !! j) ∧
    find_wallet f ws' = Return (Some i) ∧
    ws' !! i = Some (JObj ps') ∧
    get_prop (js "createdAt") ps' = get_prop (js "createdAt") ps ∧
    get_prop (js "filename") ps' = get_prop (js "filename") ps ∧
    (∀ k, k ∉ [js "network"; js "lastUsed"; js "hasMnemonic"] →
          get_prop k ps' = get_prop k ps) ∧
    get_prop (js "network") ps' = Some (network_val net) ∧
    get_prop (js "lastUsed") ps' = Some (JStr (clock w (clock_reads w))) ∧
    get_prop (js "hasMnemonic") ps' =
      (if h then Some (JBool true) else get_prop (js "hasMnemonic") ps) ∧
    (∀ k, k ≠ WALLET_LIST_KEY → storage w' !! k = storage w !! k).
Proof.
  intros Hl Hp Hf Hi. cbv zeta.
  rewrite (addWalletToList_existing w f net h ws i ps) by done.
  cbn [fst snd]. assert (Hlt := lookup_lt_Some _ _ _ Hi).
  exists (<[i:=JObj (touched net (clock w (clock_reads w)) h ps)]> ws),
         (touched net (clock w (clock_reads w)) h ps).
  split_and!; try done.
  - eapply lists_after_write; [|done].
    apply insert_plain; [done|]. apply touched_plain. by eapply lookup_plain.
  - apply length_insert.
  - intros j Hj. by apply list_lookup_insert_ne.
  - by apply find_wallet_insert_touched.
  - by apply list_lookup_insert_eq.
  - rewrite touched_get. rewrite !decide_False; [done|key_ne..].
  - rewrite touched_get. rewrite !decide_False; [done|key_ne..].
  - intros k Hk. rewrite touched_get.
    rewrite !decide_False; [done|..]; intros ->; apply Hk; set_solver.
  - rewrite touched_get. rewrite decide_False by key_ne.
    rewrite decide_False by key_ne. by rewrite decide_True.
  - rewrite touched_get. rewrite decide_False by key_ne. by rewrite decide_True.
  - rewrite touched_get. by rewrite decide_True.
  - intros k Hk. simpl. by rewrite lookup_insert_ne.
Qed.

Lemma fresh_record_found f net created used h ws :
  find_wallet f ws = Return None →
  record_for f (ws ++ [JObj (fresh_record f net created used h)])
    = Some (fresh_record f net created used h).
Proof.
  intros Hf. apply record_for_Some. exists (length ws). split.
  - rewrite find_wallet_app by done. unfold named. simpl.
    by rewrite bool_decide_eq_true_2.
  - by rewrite lookup_app_r, Nat.sub_diag.
Qed.

Lemma snoc_plain ws v :
  json_plain (JArr ws) → json_plain v → json_plain (JArr (ws ++ [v])).
Proof.
  intros Hws Hv. apply json_plain_arr, Forall_app.
  split; [by apply json_plain_arr|]. by constructor.
Qed.

(** C9, as the code has it. [addWalletToList] on a filename without a
    record appends one record; its [createdAt] is the clock reading of the
    first [new Date()] of the call and its [lastUsed] the reading of the
    second, so the two fields are equal exactly when the two readings are. *)
Theorem addWalletToList_new_record w f net h ws :
  lists w ws → json_plain (JArr ws) → find_wallet f ws = Return None →
  let created := clock w (clock_reads w) in
  let used := clock w (S (clock_reads w)) in
  let w' := (addWalletToList f net h w).2 in
  let ws' := ws ++ [JObj (fresh_record f net created used h)] in
  (addWalletToList f net h w).1 = Return () ∧
  lists w' ws' ∧
  record_for f ws' = Some (fresh_record f net created used h) ∧
  field_of (js "createdAt") f ws' = Some (JStr created) ∧
  field_of (js "lastUsed") f ws' = Some (JStr used) ∧
  (field_of (js "createdAt") f ws' = field_of (js "lastUsed") f ws' ↔
   created = used).
Proof.
  intros Hl Hp Hf. cbv zeta.
  rewrite (addWalletToList_new w f net h ws) by done.
  cbn [fst snd]. set (created := clock w (clock_reads w)).
  set (used := clock w (S (clock_reads w))).
  pose proof (fresh_record_found f net created used h ws Hf) as Hrec.
  assert (field_of (js "createdAt") f (ws ++ [JObj (fresh_record f net created used h)])
          = Some (JStr created)) as Hc.
  { unfold field_of. rewrite Hrec. reflexivity. }
  assert (field_of (js "lastUsed") f (ws ++ [JObj (fresh_record f net created used h)])
          = Some (JStr used)) as Hu.
  { unfold field_of. rewrite Hrec. reflexivity. }
  split_and!; try done.
  - eapply lists_after_write; [|done].
    apply snoc_plain; [done|]. apply fresh_record_plain.
  - rewrite Hc, Hu. split; congruence.
Qed.

End Upsert.

(** ** The registry: listing and removal *)

Section ListRemove.
Context `{JSON}.

(** X22. [getStoredWallets] never throws and leaves the world alone. It
    returns the empty list when the registry key is absent or holds text
    that [JSON.parse] rejects, and otherwise what the text parses to,
    whatever that is: for a registry written as a list of records, those
    records in their order, and a record added for a new filename goes
    last. *)
Theorem getStoredWallets_total w :
  ∃ v, getStoredWallets w = (Return v, w) ∧
    (storage w !! WALLET_LIST_KEY = None → v = JArr []) ∧
    (∀ d, storage w !! WALLET_LIST_KEY = Some d → JSON_parse d = None →
          v = JArr []) ∧
    (∀ d x, storage w !! WALLET_LIST_KEY = Some d → JSON_parse d = Some x →
            v = x) ∧
    (∀ ws, json_plain (JArr ws) →
           storage w !! WALLET_LIST_KEY = Some (JSON_stringify (JArr ws)) →
           v = JArr ws) ∧
    (∀ ws f net h, v = JArr ws → json_plain (JArr ws) →
       find_wallet f ws = Return None →
       ∃ r, (getStoredWallets (addWalletToList f net h w).2).1
            = Return (JArr (ws ++ [r]))).
Proof.
  exists (registry (storage w)). split; [apply getStoredWallets_run|].
  unfold registry. split_and!.
  - by intros ->.
  - intros d -> Hd. destruct d; [done|]. by rewrite Hd.
  - intros d x -> Hd. destruct d; [|by rewrite Hd].
    by rewrite JSON_parse_empty in Hd.
  - intros ws Hp ->. pose proof (JSON_stringify_nonempty _ Hp).
    destruct (JSON_stringify (JArr ws)) eqn:E; [done|].
    by rewrite <- E, JSON_parse_stringify.
  - intros ws f net h Hv Hp Hf.
    assert (lists w ws) as Hl by (by apply lists_registry).
    rewrite (addWalletToList_new w f net h ws) by done. cbn [fst snd].
    eexists. rewrite getStoredWallets_run. cbn [fst]. f_equal.
    simpl. apply registry_insert.
    apply json_plain_arr, Forall_app. split; [by apply json_plain_arr|].
    constructor; [|done]. apply fresh_record_plain.
Qed.

Lemma removeWalletFromList_run w f ws r :
  lists w ws → filter_wallets f ws = Return r →
  removeWalletFromList f w =
    (Return (),
     with_storage
       (λ st, delete (MNEMONIC_PREFIX ++ f)
                (<[WALLET_LIST_KEY := JSON_stringify (JArr r)]> st)) w).
Proof.
  intros Hl Hf. unfold removeWalletFromList. run. rewrite Hl. simpl.
  by rewrite Hf.
Qed.

Lemma filter_wallets_idem f ws r :
  filter_wallets f ws = Return r → filter_wallets f r = Return r.
Proof. intros Hf. by apply filter_wallets_none, (filter_wallets_find f ws). Qed.

Lemma sublist_plain ws r :
  sublist r ws → json_plain (JArr ws) → json_plain (JArr r).
Proof.
  rewrite !json_plain_arr. intros Hs Hws.
  apply list.Forall_forall. intros x Hx. rewrite list.Forall_forall in Hws.
  apply Hws. by eapply elem_of_sublist.
Qed.

Lemma lists_after_remove w f r :
  json_plain (JArr r) →
  lists (with_storage
           (λ st, delete (MNEMONIC_PREFIX ++ f)
                    (<[WALLET_LIST_KEY := JSON_stringify (JArr r)]> st)) w) r.
Proof.
  intros Hp. apply lists_registry. cbn [storage with_storage].
  rewrite registry_delete_ne by apply mnemonic_key_ne.
  by apply registry_insert.
Qed.

(** X21. [removeWalletFromList] is idempotent where the registry lists
    records. When [getStoredWallets] returns a list without [null] entries
    that JSON carries unchanged, [removeWalletFromList f] does not throw,
    running it twice leaves the world it leaves when run once, no record for
    [f] and no blob under [f]'s key remain, the other records are kept in
    their order (all of them when [f] had no record) and no other key is
    touched. *)
Theorem removeWalletFromList_idempotent w f ws :
  lists w ws → json_plain (JArr ws) → JNull ∉ ws →
  let w1 := (removeWalletFromList f w).2 in
  let w2 := (removeWalletFromList f w1).2 in
  (removeWalletFromList f w).1 = Return () ∧
  (removeWalletFromList f w1).1 = Return () ∧
  w2 = w1 ∧
  storage w1 !! (MNEMONIC_PREFIX ++ f) = None ∧
  (∀ k, k ≠ WALLET_LIST_KEY → k ≠ MNEMONIC_PREFIX ++ f →
        storage w1 !! k = storage w !! k) ∧
  ∃ ws1, lists w1 ws1 ∧
         find_wallet f ws1 = Return None ∧
         sublist ws1 ws ∧
         (∀ v, v ∈ ws1 ↔ v ∈ ws ∧ named f v = Return false) ∧
         (find_wallet f ws = Return None → ws1 = ws).
Proof.
  intros Hl Hp Hnull. cbv zeta.
  destruct (filter_wallets_total f ws Hnull) as [r Hr].
  assert (json_plain (JArr r)) as Hpr
    by (eapply sublist_plain; [by eapply filter_wallets_sublist|done]).
  pose proof (lists_after_remove w f r Hpr) as Hl1.
  rewrite (removeWalletFromList_run w f ws r) by done. cbn [fst snd].
  set (w1 := with_storage _ w) in *.
  rewrite (removeWalletFromList_run w1 f r r)
    by (try done; by eapply filter_wallets_idem).
  cbn [fst snd]. split_and!; try done.
  - subst w1. destruct w. unfold with_storage.
    cbn [storage clock clock_reads entropy entropy_used crypto_calls].
    f_equal. apply map_eq. intros k.
    destruct (decide (k = MNEMONIC_PREFIX ++ f)) as [->|];
      [by rewrite !lookup_delete_eq|].
    rewrite !lookup_delete_ne by done.
    destruct (decide (k = WALLET_LIST_KEY)) as [->|];
      [by rewrite !lookup_insert_eq|].
    rewrite !lookup_insert_ne by done. rewrite lookup_delete_ne by done.
    by rewrite lookup_insert_ne.
  - subst w1. cbn [storage with_storage]. by rewrite lookup_delete_eq.
  - intros k Hk1 Hk2. subst w1. cbn [storage with_storage].
    rewrite lookup_delete_ne by done. by rewrite lookup_insert_ne.
  - exists r. split_and!; try done.
    + by eapply filter_wallets_find.
    + by eapply filter_wallets_sublist.
    + intros v. by apply filter_wallets_keeps.
    + intros Hn. rewrite (filter_wallets_none _ _ Hn) in Hr. congruence.
Qed.

End ListRemove.

(** * Encryption and decryption *)

Section Cipher.
Context `{WebCrypto} `{Engine}.

Lemma String_fromCharCode_fits bs :
  N.of_nat (length bs) ≤ argument_limit →
  String_fromCharCode bs = Return (char_codes bs).
Proof.
  intros Hb. unfold String_fromCharCode.
  by destruct (N.leb_spec (N.of_nat (length bs)) argument_limit); [|lia].
Qed.

Lemma String_fromCharCode_long bs :
  argument_limit < N.of_nat (length bs) → String_fromCharCode bs = Throw RangeError.
Proof.
  intros Hb. unfold String_fromCharCode.
  by destruct (N.leb_spec (N.of_nat (length bs)) argument_limit); [lia|].
Qed.

Lemma encrypt_unfold w m p :
  encrypt m p w =
    (match aes_gcm_encrypt (key_of p (salt_of w)) (iv_of w) (TextEncoder_encode m) with
     | Some ct =>
         match String_fromCharCode (salt_of w ++ iv_of w ++ ct) with
         | Return binary => btoa binary
         | Throw e => Throw e
         end
     | None => Throw OperationError
     end, encrypted m p w).
Proof.
  unfold encrypt, deriveKey, subtle_encrypt, key_of, encrypted.
  cbv [mbind mret M_bind M_ret bind ret throw lift getRandomValues record_call].
  change (entropy (draw SALT_LENGTH w) <$>
            seq (entropy_used (draw SALT_LENGTH w)) IV_LENGTH) with (iv_of w).
  change (entropy w <$> seq (entropy_used w) SALT_LENGTH) with (salt_of w).
  destruct (aes_gcm_encrypt _ _ _) as [ct|]; [|done].
  by destruct (String_fromCharCode _).
Qed.

Lemma combined_length w (ct : bytes) :
  length (salt_of w ++ iv_of w ++ ct) = (SALT_LENGTH + IV_LENGTH + length ct)%nat.
Proof.
  rewrite !length_app. unfold salt_of, iv_of.
  rewrite !length_fmap, !length_seq. lia.
Qed.

(** [encrypt] seals, and returns when the bytes it joins fit a call. *)
Lemma encrypt_sealed w m p :
  ∃ ct,
    aes_gcm_encrypt (key_of p (salt_of w)) (iv_of w) (TextEncoder_encode m) = Some ct ∧
    aes_gcm_decrypt (key_of p (salt_of w)) (iv_of w) ct = Some (TextEncoder_encode m) ∧
    (N.of_nat (SALT_LENGTH + IV_LENGTH + length ct) ≤ argument_limit →
     ∃ blob, atob blob = Return (char_codes (salt_of w ++ iv_of w ++ ct)) ∧
             encrypt m p w = (Return blob, encrypted m p w)) ∧
    (argument_limit < N.of_nat (SALT_LENGTH + IV_LENGTH + length ct) →
     encrypt m p w = (Throw RangeError, encrypted m p w)).
Proof.
  destruct (aes_gcm_correct (key_of p (salt_of w)) (iv_of w) (TextEncoder_encode m))
    as (ct & Henc & Hdec).
  { unfold iv_of. by rewrite length_fmap, length_seq. }
  exists ct. split_and!; try done.
  - intros Hfit.
    destruct (atob_btoa (salt_of w ++ iv_of w ++ ct)) as (blob & Hb & Ha).
    exists blob. split; [done|].
    rewrite encrypt_unfold, Henc, String_fromCharCode_fits, Hb; [done|].
    by rewrite combined_length.
  - intros Hlong. rewrite encrypt_unfold, Henc, String_fromCharCode_long; [done|].
    by rewrite combined_length.
Qed.

(** Whatever the text, [encrypt] returns a blob or throws [RangeError], and
    leaves the storage alone. *)
Lemma encrypt_outcome w m p :
  (encrypt m p w).2 = encrypted m p w ∧
  ((∃ blob, (encrypt m p w).1 = Return blob) ∨ (encrypt m p w).1 = Throw RangeError).
Proof.
  destruct (encrypt_sealed w m p) as (ct & _ & _ & Hfit & Hlong).
  destruct (N.le_gt_cases (N.of_nat (SALT_LENGTH + IV_LENGTH + length ct))
              argument_limit) as [Hle|Hgt].
  - destruct (Hfit Hle) as (blob & _ & ->). split; [done|]. left. by eexists.
  - rewrite (Hlong Hgt). split; [done|]. by right.
Qed.

Section Tagged.
Context `{!AesGcmTag}.

Lemma sealed_length k iv m ct :
  aes_gcm_encrypt k iv (TextEncoder_encode m) = Some ct →
  N.of_nat (SALT_LENGTH + IV_LENGTH + length ct)
    = N.of_nat (length (TextEncoder_encode m)) + 44.
Proof.
  intros Henc. rewrite (aes_gcm_length _ _ _ _ Henc).
  unfold SALT_LENGTH, IV_LENGTH. lia.
Qed.

Lemma encrypt_run w m p :
  spreadable m →
  ∃ ct blob,
    aes_gcm_encrypt (key_of p (salt_of w)) (iv_of w) (TextEncoder_encode m) = Some ct ∧
    aes_gcm_decrypt (key_of p (salt_of w)) (iv_of w) ct = Some (TextEncoder_encode m) ∧
    atob blob = Return (char_codes (salt_of w ++ iv_of w ++ ct)) ∧
    encrypt m p w = (Return blob, encrypted m p w).
Proof.
  intros Hs. destruct (encrypt_sealed w m p) as (ct & Henc & Hdec & Hfit & _).
  destruct Hfit as (blob & Ha & He).
  { rewrite (sealed_length _ _ _ _ Henc). exact Hs. }
  by exists ct, blob.
Qed.

Lemma encrypt_too_long w m p :
  ¬ spreadable m → encrypt m p w = (Throw RangeError, encrypted m p w).
Proof.
  intros Hs. destruct (encrypt_sealed w m p) as (ct & Henc & _ & _ & Hlong).
  apply Hlong. rewrite (sealed_length _ _ _ _ Henc). unfold spreadable in Hs. lia.
Qed.

End Tagged.

Lemma decrypt_run w blob p s :
  atob blob = Return s →
  let combined := Uint8Array_from s in
  decrypt blob p w =
    (match aes_gcm_decrypt (key_of p (slice 0 SALT_LENGTH combined))
             (slice SALT_LENGTH (SALT_LENGTH + IV_LENGTH) combined)
             (drop (SALT_LENGTH + IV_LENGTH) combined) with
     | Some pt => Return (TextDecoder_decode pt)
     | None => Throw OperationError
     end, decrypted p combined w).
Proof.
  intros Ha. cbv zeta. unfold decrypt, deriveKey, subtle_decrypt, key_of, decrypted.
  cbv [mbind mret M_bind M_ret bind ret throw lift record_call].
  rewrite Ha. by destruct (aes_gcm_decrypt _ _ _).
Qed.

Lemma decrypt_malformed w blob p e :
  atob blob = Throw e → decrypt blob p w = (Throw e, w).
Proof.
  intros Ha. unfold decrypt. cbv [mbind M_bind bind lift]. by rewrite Ha.
Qed.

Lemma salt_of_length w : length (salt_of w) = SALT_LENGTH.
Proof. unfold salt_of. by rewrite length_fmap, length_seq. Qed.

Lemma iv_of_length w : length (iv_of w) = IV_LENGTH.
Proof. unfold iv_of. by rewrite length_fmap, length_seq. Qed.

(** The parts [decrypt] cuts out of what [encrypt] joined. *)
Lemma slices_of_combined (salt iv ct : bytes) :
  length salt = SALT_LENGTH → length iv = IV_LENGTH →
  slice 0 SALT_LENGTH (salt ++ iv ++ ct) = salt ∧
  slice SALT_LENGTH (SALT_LENGTH + IV_LENGTH) (salt ++ iv ++ ct) = iv ∧
  drop (SALT_LENGTH + IV_LENGTH) (salt ++ iv ++ ct) = ct.
Proof.
  intros Hs Hi. unfold slice. split_and!.
  - rewrite drop_0, Nat.sub_0_r, <- Hs. by rewrite take_app_length.
  - rewrite <- Hs at 3. rewrite drop_app_length.
    replace (SALT_LENGTH + IV_LENGTH - SALT_LENGTH)%nat with (length iv) by lia.
    by rewrite take_app_length.
  - rewrite <- Hs, <- Hi, <- drop_drop, drop_app_length.
    by rewrite drop_app_length.
Qed.

(** Decrypting a blob that holds salt, IV and ciphertext: the verdict is the
    cipher's on them. *)
Lemma decrypt_combined w2 blob p2 salt iv ct :
  length salt = SALT_LENGTH → length iv = IV_LENGTH →
  atob blob = Return (char_codes (salt ++ iv ++ ct)) →
  decrypt blob p2 w2 =
    (match aes_gcm_decrypt (key_of p2 salt) iv ct with
     | Some pt => Return (TextDecoder_decode pt)
     | None => Throw OperationError
     end, decrypted p2 (salt ++ iv ++ ct) w2).
Proof.
  intros Hs Hi Ha. rewrite (decrypt_run w2 blob p2 _ Ha). cbv zeta.
  rewrite Uint8Array_from_String.
  by destruct (slices_of_combined salt iv ct Hs Hi) as (-> & -> & ->).
Qed.

Section TaggedRoundTrip.
Context `{!AesGcmTag}.

(** Decrypting what [encrypt] returned, under any password: the verdict is
    the cipher's, on the salt, IV and ciphertext [encrypt] used. *)
Lemma decrypt_encrypt_run w m p1 p2 :
  spreadable m →
  ∃ ct blob,
    aes_gcm_encrypt (key_of p1 (salt_of w)) (iv_of w) (TextEncoder_encode m) = Some ct ∧
    encrypt m p1 w = (Return blob, encrypted m p1 w) ∧
    ∀ w2, decrypt blob p2 w2 =
      (match aes_gcm_decrypt (key_of p2 (salt_of w)) (iv_of w) ct with
       | Some pt => Return (TextDecoder_decode pt)
       | None => Throw OperationError
       end, decrypted p2 (salt_of w ++ iv_of w ++ ct) w2).
Proof.
  intros Hs. destruct (encrypt_run w m p1 Hs) as (ct & blob & Henc & _ & Ha & Hrun).
  exists ct, blob. split_and!; try done. intros w2.
  by apply decrypt_combined; [apply salt_of_length|apply iv_of_length|].
Qed.

(** Under a password with the same UTF-8 bytes the plaintext comes back as
    [TextDecoder] reads it. *)
Lemma decrypt_encrypt_same_bytes w m p1 p2 :
  spreadable m →
  TextEncoder_encode p1 = TextEncoder_encode p2 →
  ∃ blob, encrypt m p1 w = (Return blob, encrypted m p1 w) ∧
    ∀ w2, (decrypt blob p2 w2).1 =
          Return (TextDecoder_decode (TextEncoder_encode m)).
Proof.
  intros Hs Hp.
  destruct (encrypt_run w m p1 Hs) as (ct & blob & Henc & Hdec & Ha & Hrun).
  exists blob. split; [done|]. intros w2.
  rewrite (decrypt_combined w2 blob p2 _ _ _ (salt_of_length w) (iv_of_length w) Ha).
  unfold key_of in *. rewrite <- Hp, Hdec. done.
Qed.

End TaggedRoundTrip.

End Cipher.

Section Secrets.
Context `{WebCrypto} `{Engine}.

(** C1, for the strings [encrypt] takes and [TextDecoder] gives back. For
    every password [p] and every well-formed string [m] that does not start
    with U+FEFF (the empty string included) and whose UTF-8 bytes, with the
    44 bytes of salt, IV and tag, fit one call's arguments, [encrypt m p]
    returns a blob, and [decrypt] of that blob under [p] returns exactly
    [m], in whatever world it runs. *)
Theorem decrypt_encrypt_roundtrip `{!AesGcmTag} w m p :
  spreadable m → isWellFormed m = true → starts_with_BOM m = false →
  ∃ blob w1, encrypt m p w = (Return blob, w1) ∧
             ∀ w2, (decrypt blob p w2).1 = Return m.
Proof.
  intros Hs Hw Hb.
  destruct (encrypt_run w m p Hs) as (ct & blob & Henc & Hdec & Ha & Hrun).
  exists blob, (encrypted m p w). split; [done|]. intros w2.
  rewrite (decrypt_combined w2 blob p _ _ _ (salt_of_length w) (iv_of_length w) Ha).
  cbn [fst]. rewrite Hdec. by rewrite TextDecoder_TextEncoder.
Qed.

Lemma atob_throws blob e : atob blob = Throw e → e = InvalidCharacterError.
Proof.
  unfold atob. repeat case_match; congruence.
Qed.

Lemma Uint8Array_from_length s : length (Uint8Array_from s) = length s.
Proof. apply length_fmap. Qed.

(** C2, as the code has it. Malformed base64 makes [decrypt] throw
    [InvalidCharacterError] with the world untouched, so before any call to
    the provider. A well-formed blob that decodes to fewer than 28 bytes
    (and any below 44) is not refused at that stage: [decrypt] derives a key
    from the truncated salt, hands the cipher a ciphertext shorter than its
    tag, and throws the cipher's [OperationError]. *)
Theorem decrypt_guard w blob p :
  (∀ e, atob blob = Throw e →
        e = InvalidCharacterError ∧ decrypt blob p w = (Throw e, w)) ∧
  (∀ s, atob blob = Return s → (length s < 44)%nat →
        let combined := Uint8Array_from s in
        let w' := (decrypt blob p w).2 in
        (decrypt blob p w).1 = Throw OperationError ∧
        crypto_calls w' =
          CallDecrypt (slice SALT_LENGTH (SALT_LENGTH + IV_LENGTH) combined)
                      (drop (SALT_LENGTH + IV_LENGTH) combined)
          :: CallDeriveKey (TextEncoder_encode p) (slice 0 SALT_LENGTH combined)
          :: crypto_calls w).
Proof.
  split.
  - intros e He. split; [by eapply atob_throws|]. by apply decrypt_malformed.
  - intros s Hs Hlen. cbv zeta. rewrite (decrypt_run w blob p s Hs). cbv zeta.
    cbn [fst snd]. rewrite aes_gcm_short; [done|].
    rewrite length_drop, Uint8Array_from_length.
    unfold SALT_LENGTH, IV_LENGTH. lia.
Qed.


(** C4. [retrieveMnemonic] never throws: it returns [null] when no blob is
    stored under the filename's key and when [decrypt] of the stored blob
    throws, whatever the cause, and the decrypted string otherwise. *)
Theorem retrieveMnemonic_total w f p :
  ∃ r w', retrieveMnemonic f p w = (Return r, w') ∧
    (storage w !! (MNEMONIC_PREFIX ++ f) = None → r = None) ∧
    (∀ blob e w1, storage w !! (MNEMONIC_PREFIX ++ f) = Some blob →
                  decrypt blob p w = (Throw e, w1) → r = None) ∧
    (∀ blob s w1, storage w !! (MNEMONIC_PREFIX ++ f) = Some blob → blob ≠ [] →
                  decrypt blob p w = (Return s, w1) → r = Some s).
Proof.
  unfold retrieveMnemonic.
  cbv [mbind mret M_bind M_ret bind ret try_catch getItem].
  destruct (storage w !! (MNEMONIC_PREFIX ++ f)) as [[|c blob]|] eqn:Es.
  - exists None, w. split_and!; try done. intros blob s w1 [= <-] Hne. by destruct Hne.
  - destruct (decrypt (c :: blob) p w) as [[s|e] w1] eqn:Ed.
    + exists (Some s), w1. split_and!; try done; intros; simplify_eq; congruence.
    + exists None, w1. split_and!; try done; intros; simplify_eq; congruence.
  - exists None, w. split_and!; done.
Qed.

End Secrets.

(** ** storeMnemonic *)

Section StoreMnemonic.
Context `{JSON} `{WebCrypto} `{Engine}.

Lemma lists_blob_stored f blob m p w ws :
  lists w ws → lists (blob_stored f blob m p w) ws.
Proof.
  rewrite !lists_registry. intros <-. unfold blob_stored.
  cbn [storage with_storage encrypted called draw].
  apply registry_insert_ne, mnemonic_key_ne.
Qed.

Lemma storeMnemonic_run w f m p ws blob :
  lists w ws → encrypt m p w = (Return blob, encrypted m p w) →
  storeMnemonic f m p w =
    match find_wallet f ws with
    | Throw e => (Throw e, blob_stored f blob m p w)
    | Return (Some i) =>
        (Return (),
         with_storage
           (insert WALLET_LIST_KEY
              (JSON_stringify
                 (JArr (alter (set_member (js "hasMnemonic") (JBool true)) i ws))))
           (blob_stored f blob m p w))
    | Return None => (Return (), blob_stored f blob m p w)
    end.
Proof.
  intros Hl He. pose proof (lists_blob_stored f blob m p w ws Hl) as Hl1.
  unfold storeMnemonic. cbv [mbind M_bind bind]. rewrite He.
  cbv [setItem]. fold (blob_stored f blob m p w). rewrite Hl1.
  cbv [as_array mret M_ret ret lift].
  by destruct (find_wallet f ws) as [[i|]|].
Qed.

Lemma lists_encrypted m p w ws : lists w ws → lists (encrypted m p w) ws.
Proof. by rewrite !lists_registry. Qed.

Lemma storeMnemonic_thrown w f m p e :
  encrypt m p w = (Throw e, encrypted m p w) →
  storeMnemonic f m p w = (Throw e, encrypted m p w).
Proof.
  intros He. unfold storeMnemonic. cbv [mbind M_bind bind]. by rewrite He.
Qed.

(** The two ways [storeMnemonic] goes: [encrypt] throws and nothing is
    written, or the blob is written and the registry looked up. *)
Lemma storeMnemonic_outcome w f m p ws :
  lists w ws →
  (encrypt m p w = (Throw RangeError, encrypted m p w) ∧
   storeMnemonic f m p w = (Throw RangeError, encrypted m p w)) ∨
  (∃ blob,
     encrypt m p w = (Return blob, encrypted m p w) ∧
     storeMnemonic f m p w =
       match find_wallet f ws with
       | Throw e => (Throw e, blob_stored f blob m p w)
       | Return (Some i) =>
           (Return (),
            with_storage
              (insert WALLET_LIST_KEY
                 (JSON_stringify
                    (JArr (alter (set_member (js "hasMnemonic") (JBool true)) i ws))))
              (blob_stored f blob m p w))
       | Return None => (Return (), blob_stored f blob m p w)
       end).
Proof.
  intros Hl. destruct (encrypt_outcome w m p) as [Hw Hr].
  destruct (encrypt m p w) as [r w1] eqn:He. cbn [fst snd] in *. subst w1.
  destruct Hr as [[blob ->]| ->].
  - right. exists blob. split; [done|]. by apply storeMnemonic_run.
  - left. split; [done|]. by apply storeMnemonic_thrown.
Qed.

(** C7, for the phrases [encrypt] takes. In a world whose registry lists
    records that JSON carries unchanged, and for a phrase [m] whose UTF-8
    bytes, with the 44 bytes of salt, IV and tag, fit one call's arguments,
    [storeMnemonic f m p] stores the blob [encrypt m p] returned under [f]'s
    mnemonic key; afterwards the registry has as many records as before, and
    it has a record for [f] with [hasMnemonic] true exactly when it had a
    record for [f] before. Without such a record the list is the one
    before. *)
Theorem storeMnemonic_spec `{!AesGcmTag} w f m p ws :
  spreadable m → lists w ws → json_plain (JArr ws) →
  let w' := (storeMnemonic f m p w).2 in
  ∃ blob ws',
    encrypt m p w = (Return blob, encrypted m p w) ∧
    storage w' !! (MNEMONIC_PREFIX ++ f) = Some blob ∧
    lists w' ws' ∧
    length ws' = length ws ∧
    (field_of (js "hasMnemonic") f ws' = Some (JBool true) ↔
     ∃ i, find_wallet f ws = Return (Some i)) ∧
    (find_wallet f ws = Return None →
     ws' = ws ∧ (storeMnemonic f m p w).1 = Return ()) ∧
    (∀ i, find_wallet f ws = Return (Some i) →
          (storeMnemonic f m p w).1 = Return ()).
Proof.
  intros Hs Hl Hp. cbv zeta.
  destruct (encrypt_run w m p Hs) as (ct & blob & _ & _ & _ & He).
  pose proof (lists_blob_stored f blob m p w ws Hl) as Hl1.
  assert (storage (blob_stored f blob m p w) !! (MNEMONIC_PREFIX ++ f) = Some blob)
    as Hb by apply lookup_insert_eq.
  rewrite (storeMnemonic_run w f m p ws blob Hl He).
  destruct (find_wallet f ws) as [[i|]|] eqn:Hf; cbn [fst snd].
  - destruct (find_wallet_Some f ws i Hf) as (ps & Hi & Hname).
    assert (Hlt := lookup_lt_Some _ _ _ Hi).
    rewrite (alter_lookup_insert _ _ _ _ Hi).
    exists blob, (<[i := JObj (set_prop (js "hasMnemonic") (JBool true) ps)]> ws).
    split_and!; try done.
    + cbn [storage with_storage].
      rewrite lookup_insert_ne by (intros E; by apply (mnemonic_key_ne f)).
      done.
    + eapply lists_after_write; [|done]. apply insert_plain; [done|].
      apply set_prop_plain; [done..|]. by eapply lookup_plain.
    + apply length_insert.
    + split; [by eauto|]. intros _. unfold field_of.
      assert (record_for f (<[i:=JObj (set_prop (js "hasMnemonic") (JBool true) ps)]> ws)
              = Some (set_prop (js "hasMnemonic") (JBool true) ps)) as ->.
      { apply record_for_Some. exists i. split; [|by apply list_lookup_insert_eq].
        change (JObj (set_prop (js "hasMnemonic") (JBool true) ps))
          with (set_member (js "hasMnemonic") (JBool true) (JObj ps)).
        rewrite <- (alter_lookup_insert _ i ws (JObj ps) Hi).
        rewrite find_wallet_alter by key_ne. done. }
      simpl. apply get_set_prop_eq.
  - exists blob, ws. split_and!; try done.
    unfold field_of. split; [|by intros [i ?]].
    destruct (record_for f ws) as [ps|] eqn:Hrec; [|done].
    apply record_for_Some in Hrec as (i & Hi & _). congruence.
  - exists blob, ws. split_and!; try done.
    unfold field_of. split; [|by intros [i ?]].
    destruct (record_for f ws) as [ps|] eqn:Hrec; [|done].
    apply record_for_Some in Hrec as (i & Hi & _). congruence.
Qed.

End StoreMnemonic.

(** * Clearing the store *)

Section ClearFacts.
Context `{JSON} `{NumberFormat}.

Lemma with_storage_id w : with_storage id w = w.
Proof. by destruct w. Qed.

Lemma ToString_arr_cons x r :
  ToString (JArr (x :: r)) =
    match (match x with JNull => Return [] | _ => ToString x end) with
    | Throw e => Throw e
    | Return s =>
        match r with
        | [] => Return s
        | _ :: _ =>
            match ToString (JArr r) with
            | Throw e => Throw e
            | Return t => Return (s ++ js "," ++ t)
            end
        end
    end.
Proof. done. Qed.

Lemma ToString_throws v e : ToString v = Throw e → e = TypeError.
Proof.
  revert e. induction v as [| b | x | s | l IH | ps _] using jsval_ind;
    intros e; try done.
  - induction IH as [|x l Hx Hl IHl]; [done|].
    rewrite ToString_arr_cons.
    assert (∀ e, match x with JNull => Return [] | _ => ToString x end = Throw e
                 → e = TypeError) as Hx'.
    { intros e'. destruct x; try done; apply Hx. }
    destruct (match x with JNull => Return [] | _ => ToString x end) as [s|e'].
    + destruct l; [done|]. destruct (ToString (JArr (j :: l))); [done|].
      intros [= <-]. by apply IHl.
    + intros [= <-]. by apply Hx'.
  - simpl. destruct (get_prop _ ps); [|done]. by intros [= <-].
Qed.

Lemma ToString_prop_throws v e : ToString_prop v = Throw e → e = TypeError.
Proof. destruct v; [apply ToString_throws|done]. Qed.

Lemma filename_of_throws v e : filename_of v = Throw e → e = TypeError.
Proof. destruct v; simpl; congruence. Qed.

Lemma remove_mnemonics_cons v rest w :
  remove_mnemonics (v :: rest) w =
    match filename_of v with
    | Throw e => (Throw e, w)
    | Return fn =>
        match ToString_prop fn with
        | Throw e => (Throw e, w)
        | Return s => remove_mnemonics rest (with_storage (delete (MNEMONIC_PREFIX ++ s)) w)
        end
    end.
Proof.
  cbn [remove_mnemonics]. cbv [mbind M_bind bind lift removeItem].
  destruct (filename_of v) as [fn|]; [|done].
  by destruct (ToString_prop fn).
Qed.

(** Whatever the list, the loop touches mnemonic keys only, and nothing of
    the world besides the storage. *)
Lemma remove_mnemonics_frame ws w :
  ∃ st, (remove_mnemonics ws w).2 = with_storage (λ _, st) w ∧
        (∀ k, (∀ s, k ≠ MNEMONIC_PREFIX ++ s) → st !! k = storage w !! k) ∧
        (∀ e, (remove_mnemonics ws w).1 = Throw e → e = TypeError).
Proof.
  revert w. induction ws as [|v ws IH]; intros w.
  - exists (storage w). split_and!; try done. by destruct w.
  - rewrite remove_mnemonics_cons.
    destruct (filename_of v) as [fn|e0] eqn:Ef.
    2:{ exists (storage w). split_and!; try done; [by destruct w|].
        intros e [= <-]. by eapply filename_of_throws. }
    destruct (ToString_prop fn) as [s|e0] eqn:Es.
    2:{ exists (storage w). split_and!; try done; [by destruct w|].
        intros e [= <-]. by eapply ToString_prop_throws. }
    destruct (IH (with_storage (delete (MNEMONIC_PREFIX ++ s)) w)) as (st & -> & Hk & He).
    exists st. split_and!; try done.
    intros k Hp. rewrite Hk by done. cbn [storage with_storage].
    by rewrite lookup_delete_ne.
Qed.

Lemma name_of_filename v s :
  name_of v = Some s → filename_of v = Return (Some (JStr s)).
Proof.
  destruct v as [| | | | |ps]; try done. simpl.
  destruct (get_prop _ ps) as [[]|]; try done. by intros [= ->].
Qed.

Lemma names_cons v ws :
  names (v :: ws) =
    match name_of v with Some s => s :: names ws | None => names ws end.
Proof. done. Qed.

Lemma remove_mnemonics_named ws w :
  all_named ws →
  remove_mnemonics ws w = (Return (), with_storage (without (names ws)) w).
Proof.
  intros Hn. revert w. induction Hn as [|v ws [s Hs] Hws IH]; intros w.
  - by destruct w.
  - rewrite remove_mnemonics_cons, (name_of_filename v s Hs). cbn [ToString_prop ToString].
    rewrite IH. rewrite (names_cons v ws), Hs. done.
Qed.

Lemma lookup_without fs st k :
  without fs st !! k =
    if decide (k ∈ (MNEMONIC_PREFIX ++.) <$> fs) then None else st !! k.
Proof.
  revert st. induction fs as [|f fs IH]; intros st; [done|].
  cbn [without foldl]. fold (without fs (delete (MNEMONIC_PREFIX ++ f) st)).
  rewrite IH. rewrite fmap_cons.
  destruct (decide (k ∈ (MNEMONIC_PREFIX ++.) <$> fs)) as [Hin|Hin].
  - rewrite decide_True; [done|]. by right.
  - destruct (decide (k = MNEMONIC_PREFIX ++ f)) as [->|Hne].
    + rewrite lookup_delete_eq. rewrite decide_True; [done|]. by left.
    + rewrite lookup_delete_ne by done. rewrite decide_False; [done|].
      by intros [?|?]%elem_of_cons.
Qed.

Lemma clearAllWalletData_run w ws :
  lists w ws → all_named ws →
  clearAllWalletData w =
    (Return (), with_storage (λ st, delete WALLET_LIST_KEY (without (names ws) st)) w).
Proof.
  intros Hl Hn. unfold clearAllWalletData. cbv [mbind M_bind bind].
  rewrite Hl. cbv [lift iterate]. rewrite remove_mnemonics_named by done.
  done.
Qed.


Lemma clearAllWalletData_unfold w :
  clearAllWalletData w =
    match iterate (registry (storage w)) with
    | Throw e => (Throw e, w)
    | Return ws =>
        match remove_mnemonics ws w with
        | (Return _, w1) => (Return (), with_storage (delete WALLET_LIST_KEY) w1)
        | (Throw e, w1) => (Throw e, w1)
        end
    end.
Proof.
  unfold clearAllWalletData. cbv [mbind M_bind bind].
  rewrite getStoredWallets_run. cbv [lift removeItem].
  destruct (iterate _); [|done]. by destruct (remove_mnemonics _ _) as [[]].
Qed.

Lemma iterate_throws v e : iterate v = Throw e → e = TypeError.
Proof. destruct v; simpl; congruence. Qed.

Lemma clearAllWalletData_returned w :
  (clearAllWalletData w).1 = Return () →
  storage (clearAllWalletData w).2 !! WALLET_LIST_KEY = None.
Proof.
  rewrite clearAllWalletData_unfold.
  destruct (iterate (registry (storage w))) as [ws|e]; [|done].
  destruct (remove_mnemonics ws w) as [[[]|e] w1]; [|done].
  intros _. apply lookup_delete_eq.
Qed.

Lemma clearAllWalletData_thrown w e :
  (clearAllWalletData w).1 = Throw e →
  storage (clearAllWalletData w).2 !! WALLET_LIST_KEY = storage w !! WALLET_LIST_KEY.
Proof.
  rewrite clearAllWalletData_unfold.
  destruct (iterate (registry (storage w))) as [ws|e0]; [|done].
  destruct (remove_mnemonics_frame ws w) as (st & Hw & Hk & _).
  destruct (remove_mnemonics ws w) as [[[]|e0] w1]; [done|].
  cbn [fst snd] in *. subst w1. intros _. apply Hk.
  intros s. apply not_eq_sym, mnemonic_key_ne.
Qed.

(** X1. [clearAllWalletData] on a registry that lists records with string
    filenames returns; afterwards the registry key and the mnemonic key of
    every listed filename are absent, [getStoredWallets] returns the empty
    list, and every other key is as before: a blob stored under a filename
    the registry does not list stays. *)
Theorem clearAllWalletData_effect w ws :
  lists w ws → all_named ws →
  let w' := (clearAllWalletData w).2 in
  (clearAllWalletData w).1 = Return () ∧
  storage w' !! WALLET_LIST_KEY = None ∧
  lists w' [] ∧
  (∀ f, f ∈ names ws → storage w' !! (MNEMONIC_PREFIX ++ f) = None) ∧
  (∀ f, f ∉ names ws →
        storage w' !! (MNEMONIC_PREFIX ++ f) = storage w !! (MNEMONIC_PREFIX ++ f)) ∧
  (∀ k, k ≠ WALLET_LIST_KEY → (∀ f, k ≠ MNEMONIC_PREFIX ++ f) →
        storage w' !! k = storage w !! k).
Proof.
  intros Hl Hn. cbv zeta. rewrite (clearAllWalletData_run w ws Hl Hn).
  cbn [fst snd storage with_storage].
  assert (∀ f, MNEMONIC_PREFIX ++ f ∈ (MNEMONIC_PREFIX ++.) <$> names ws ↔ f ∈ names ws)
    as Hin.
  { intros f. rewrite list_elem_of_fmap. split; [|by eauto].
    by intros (g & ->%mnemonic_key_inj & ?). }
  split_and!; try done.
  - apply lookup_delete_eq.
  - apply lists_registry. cbn [storage with_storage]. unfold registry.
    by rewrite lookup_delete_eq.
  - intros f Hf. rewrite lookup_delete_ne by apply not_eq_sym, mnemonic_key_ne.
    rewrite lookup_without, decide_True; [done|]. by apply Hin.
  - intros f Hf. rewrite lookup_delete_ne by apply not_eq_sym, mnemonic_key_ne.
    rewrite lookup_without, decide_False; [done|]. by rewrite Hin.
  - intros k Hk Hp. rewrite lookup_delete_ne by done.
    rewrite lookup_without, decide_False; [done|].
    intros (g & -> & _)%list_elem_of_fmap. by apply (Hp g).
Qed.

(** X2. In every world, whatever the registry holds and whether the call
    returns or throws, [clearAllWalletData] changes nothing but the storage,
    and in it only the registry key and keys that start with the mnemonic
    prefix. It throws nothing but [TypeError], and then the registry key is
    as before; when it returns, the registry key is absent. *)
Theorem clearAllWalletData_frame w :
  let r := clearAllWalletData w in
  (∃ st, r.2 = with_storage (λ _, st) w) ∧
  (∀ k, k ≠ WALLET_LIST_KEY → (∀ f, k ≠ MNEMONIC_PREFIX ++ f) →
        storage r.2 !! k = storage w !! k) ∧
  (r.1 = Return () ∨
   r.1 = Throw TypeError ∧ storage r.2 !! WALLET_LIST_KEY = storage w !! WALLET_LIST_KEY) ∧
  (r.1 = Return () → storage r.2 !! WALLET_LIST_KEY = None).
Proof.
  cbv zeta. rewrite clearAllWalletData_unfold.
  destruct (iterate (registry (storage w))) as [ws|e] eqn:Ei.
  2:{ apply iterate_throws in Ei as ->. split_and!; try done.
      - exists (storage w). by destruct w.
      - by right. }
  destruct (remove_mnemonics_frame ws w) as (st & Hw & Hk & He).
  destruct (remove_mnemonics ws w) as [[[]|e] w1]; cbn [fst snd] in *; subst w1.
  - split_and!.
    + by eexists.
    + intros k Hk1 Hk2. cbn [storage with_storage].
      rewrite lookup_delete_ne by done. by apply Hk.
    + by left.
    + intros _. apply lookup_delete_eq.
  - rewrite (He e eq_refl). split_and!; try done.
    + by eexists.
    + intros k _ Hk2. by apply Hk.
    + right. split; [done|]. apply Hk. intros s. apply not_eq_sym, mnemonic_key_ne.
Qed.

(** X3. When [clearAllWalletData] returns, [getStoredWallets] returns the
    empty list afterwards, and a second call returns as well and leaves the
    world as the first left it. *)
Theorem clearAllWalletData_idempotent w :
  (clearAllWalletData w).1 = Return () →
  let w' := (clearAllWalletData w).2 in
  lists w' [] ∧ clearAllWalletData w' = (Return (), w').
Proof.
  intros Hr. cbv zeta.
  pose proof (clearAllWalletData_returned w Hr) as Hk.
  assert (registry (storage (clearAllWalletData w).2) = JArr []) as Hreg.
  { unfold registry. by rewrite Hk. }
  split; [by apply lists_registry|].
  rewrite clearAllWalletData_unfold, Hreg. cbn [iterate remove_mnemonics].
  cbv [mret M_ret ret]. f_equal.
  destruct (clearAllWalletData w).2 as [st c cr en eu cc]. cbn [storage] in *.
  unfold with_storage. cbn [storage clock clock_reads entropy entropy_used crypto_calls].
  f_equal. by apply delete_id.
Qed.

End ClearFacts.

(** * The registry invariant

    Every world the module's own functions reach from a storage without a
    registry lists records that JSON carries unchanged: the hypotheses of
    the registry theorems are what the module itself maintains. *)

Section Invariant.
Context `{JSON} `{WebCrypto} `{Engine} `{NumberFormat}.

Lemma find_wallet_objects f ws :
  Forall is_object ws → ∃ r, find_wallet f ws = Return r.
Proof.
  induction 1 as [|w ws Hw Hws [r IH]]; simpl; [by eexists|].
  destruct w as [| | | | |ps]; try done. unfold named. simpl.
  destruct (get_prop (js "filename") ps) as [[| | |s| |]|]; rewrite IH;
    try (destruct r; by eexists).
  destruct (bool_decide (s = f)); [by eexists|]. destruct r; by eexists.
Qed.

Lemma objects_not_null ws : Forall is_object ws → JNull ∉ ws.
Proof.
  intros Hws Hin. rewrite list.Forall_forall in Hws. by apply (Hws JNull).
Qed.

Lemma decrypt_storage blob p w : storage (decrypt blob p w).2 = storage w.
Proof.
  destruct (atob blob) as [s|e] eqn:Ha.
  - by rewrite (decrypt_run w blob p s Ha).
  - by rewrite (decrypt_malformed w blob p e Ha).
Qed.

Lemma retrieveMnemonic_storage f p w :
  storage (retrieveMnemonic f p w).2 = storage w.
Proof.
  unfold retrieveMnemonic.
  cbv [mbind mret M_bind M_ret bind ret try_catch getItem].
  destruct (storage w !! (MNEMONIC_PREFIX ++ f)) as [[|c blob]|]; try done.
  pose proof (decrypt_storage (c :: blob) p w) as Hs.
  by destruct (decrypt (c :: blob) p w) as [[s|e] w1].
Qed.

Lemma well_formed_registry_step c w :
  well_formed_registry w → well_formed_registry (after_call c w).
Proof.
  intros (ws & Hl & Hp & Ho).
  destruct c as [f net h|f|f m p|f p| | |]; cbn [after_call].
  - destruct (find_wallet_objects f ws Ho) as [[i|] Hf].
    + destruct (find_wallet_Some f ws i Hf) as (ps & Hi & _).
      rewrite (addWalletToList_existing w f net h ws i ps) by done.
      exists (<[i:=JObj (touched net (clock w (clock_reads w)) h ps)]> ws).
      assert (json_plain (JObj (touched net (clock w (clock_reads w)) h ps)))
        by (apply touched_plain; by eapply lookup_plain).
      split_and!.
      * eapply lists_after_write; [|done]. by apply insert_plain.
      * by apply insert_plain.
      * by apply Forall_insert.
    + rewrite (addWalletToList_new w f net h ws) by done.
      eexists. split_and!.
      * eapply lists_after_write; [|done].
        apply json_plain_arr, Forall_app. split; [by apply json_plain_arr|].
        constructor; [|done]. apply fresh_record_plain.
      * apply json_plain_arr, Forall_app. split; [by apply json_plain_arr|].
        constructor; [|done]. apply fresh_record_plain.
      * apply Forall_app. split; [done|]. by constructor.
  - destruct (filter_wallets_total f ws (objects_not_null ws Ho)) as [ws1 Hr].
    pose proof (filter_wallets_sublist f ws ws1 Hr) as Hsub.
    assert (json_plain (JArr ws1)) as Hp1 by (by eapply sublist_plain).
    rewrite (removeWalletFromList_run w f ws ws1) by done. cbn [snd].
    exists ws1. split_and!; [by apply lists_after_remove|done|].
    apply list.Forall_forall. intros v Hv. rewrite list.Forall_forall in Ho.
    apply Ho. by eapply elem_of_sublist.
  - destruct (storeMnemonic_outcome w f m p ws Hl) as [[_ ->]|(blob & He & ->)].
    { exists ws. split_and!; [by apply lists_encrypted|done..]. }
    pose proof (lists_blob_stored f blob m p w ws Hl) as Hl1.
    destruct (find_wallet f ws) as [[i|]|] eqn:Hf; cbn [snd];
      [|by exists ws..].
    destruct (find_wallet_Some f ws i Hf) as (ps & Hi & _).
    rewrite (alter_lookup_insert _ _ _ _ Hi).
    assert (json_plain (set_member (js "hasMnemonic") (JBool true) (JObj ps)))
      by (apply set_member_plain; [done..|]; by eapply lookup_plain).
    eexists. split_and!.
    + eapply lists_after_write; [|done]. by apply insert_plain.
    + by apply insert_plain.
    + by apply Forall_insert.
  - exists ws. split_and!; [|done..].
    apply lists_registry. rewrite retrieveMnemonic_storage.
    by apply lists_registry.
  - destruct (clearAllWalletData w).1 as [[]|e] eqn:Hr.
    + exists []. split_and!; [|done|constructor].
      apply lists_registry. unfold registry.
      by rewrite (clearAllWalletData_returned w Hr).
    + exists ws. split_and!; [|done..].
      apply lists_registry. apply lists_registry in Hl.
      unfold registry in *. by rewrite (clearAllWalletData_thrown w e Hr).
  - exists ws. split_and!; [|done..].
    apply lists_registry. cbn [storage snd markFirstTimeSetupComplete setItem with_storage].
    rewrite registry_insert_ne by apply setup_key_ne. by apply lists_registry.
  - exists ws. split_and!; [|done..].
    apply lists_registry. cbn [storage snd resetFirstTimeSetupFlag removeItem with_storage].
    rewrite registry_delete_ne by apply setup_key_ne. by apply lists_registry.
Qed.

(** From a storage without a registry, any sequence of calls leaves a
    registry of the shape the registry theorems assume. *)
Lemma well_formed_registry_reachable (cs : list api_call) w :
  storage w !! WALLET_LIST_KEY = None →
  well_formed_registry (foldl (λ w c, after_call c w) w cs).
Proof.
  intros Hs.
  assert (well_formed_registry w) as Hw.
  { exists []. split_and!; [|done|constructor].
    apply lists_registry. unfold registry. by rewrite Hs. }
  clear Hs. revert w Hw. induction cs as [|c cs IH]; intros w Hw; [done|].
  simpl. apply IH. by apply well_formed_registry_step.
Qed.

End Invariant.

(** * Further properties of the code *)

(** ** Filenames of a list of records *)

Lemma names_app ws1 ws2 : names (ws1 ++ ws2) = names ws1 ++ names ws2.
Proof. apply omap_app. Qed.

Lemma name_of_named f v s :
  name_of v = Some s → named f v = Return (bool_decide (s = f)).
Proof.
  destruct v as [| | | | |ps]; try done. unfold named. simpl.
  destruct (get_prop _ ps) as [[]|]; try done. by intros [= ->].
Qed.

Lemma name_of_set_member k x v :
  k ≠ js "filename" → name_of (set_member k x v) = name_of v.
Proof.
  intros Hk. destruct v; try done. simpl. by rewrite get_set_prop_ne.
Qed.

Lemma name_of_fresh_record f net created used h :
  name_of (JObj (fresh_record f net created used h)) = Some f.
Proof. done. Qed.

Lemma name_of_touched net now h ps :
  name_of (JObj (touched net now h ps)) = name_of (JObj ps).
Proof.
  simpl. rewrite touched_get. by rewrite !decide_False by key_ne.
Qed.

Lemma names_insert ws i v v' :
  ws !! i = Some v → name_of v' = name_of v → names (<[i := v']> ws) = names ws.
Proof.
  revert i. induction ws as [|x ws IH]; intros [|i]; try done.
  - intros [= ->] Hn. change (<[0%nat := v']> (v :: ws)) with (v' :: ws).
    rewrite !names_cons. by rewrite Hn.
  - intros Hi Hn. change (<[S i := v']> (x :: ws)) with (x :: <[i := v']> ws).
    rewrite !names_cons. by rewrite (IH i).
Qed.

Lemma all_named_insert ws i v v' :
  all_named ws → ws !! i = Some v → name_of v' = name_of v →
  all_named (<[i := v']> ws).
Proof.
  intros Hws Hi Hn. apply Forall_insert; [done|].
  rewrite Hn. by eapply (Forall_lookup_1 _ _ _ _ Hws).
Qed.

Lemma all_named_objects ws : all_named ws → Forall is_object ws.
Proof.
  intros Hn. eapply list.Forall_impl; [exact Hn|]. by intros [] [? ?].
Qed.

Lemma names_sublist ws1 ws2 : sublist ws1 ws2 → sublist (names ws1) (names ws2).
Proof.
  induction 1 as [|x l1 l2 _ IH|x l1 l2 _ IH]; [constructor|..];
    rewrite !names_cons; destruct (name_of x); try done.
  - by constructor.
  - by constructor.
Qed.

(** Among records with filenames, [find_wallet] finds none exactly when the
    filename is not among the names. *)
Lemma find_wallet_names f ws :
  all_named ws →
  (f ∈ names ws → ∃ i, find_wallet f ws = Return (Some i)) ∧
  (f ∉ names ws → find_wallet f ws = Return None).
Proof.
  induction 1 as [|v ws [s Hs] _ [IH1 IH2]]; [split; [by intros ?%elem_of_nil|done]|].
  rewrite names_cons, Hs. cbn [find_wallet]. rewrite (name_of_named f v s Hs).
  destruct (decide (s = f)) as [->|Hne].
  - rewrite bool_decide_eq_true_2 by done. split; [eauto|].
    intros Hn. destruct Hn. by left.
  - rewrite bool_decide_eq_false_2 by done. split.
    + intros [?|Hin]%elem_of_cons; [done|].
      destruct (IH1 Hin) as [i ->]. eauto.
    + intros Hn. rewrite IH2; [done|]. intros ?. apply Hn. by right.
Qed.

Lemma find_wallet_None_names f ws :
  all_named ws → find_wallet f ws = Return None → f ∉ names ws.
Proof.
  intros Hn Hf Hin. destruct (find_wallet_names f ws Hn) as [H1 _].
  destruct (H1 Hin) as [i Hi]. congruence.
Qed.

Lemma all_named_sublist ws r : sublist r ws → all_named ws → all_named r.
Proof.
  intros Hs Hws. apply list.Forall_forall. intros x Hx.
  unfold all_named in Hws. rewrite list.Forall_forall in Hws.
  apply Hws. by eapply elem_of_sublist.
Qed.

Section Tidy.
Context `{JSON} `{WebCrypto} `{Engine} `{NumberFormat}.

Lemma retrieveMnemonic_returns f p w : ∃ r, (retrieveMnemonic f p w).1 = Return r.
Proof.
  unfold retrieveMnemonic.
  cbv [mbind mret M_bind M_ret bind ret try_catch getItem].
  destruct (storage w !! (MNEMONIC_PREFIX ++ f)) as [[|c blob]|]; [by eexists| |by eexists].
  destruct (decrypt (c :: blob) p w) as [[s|e] w1]; by eexists.
Qed.

Lemma tidy_registry_empty w :
  storage w !! WALLET_LIST_KEY = None → tidy_registry w.
Proof.
  intros Hs. exists []. split_and!; [|done|constructor|constructor].
  apply lists_registry. unfold registry. by rewrite Hs.
Qed.

Lemma tidy_registry_same w w' ws :
  storage w' !! WALLET_LIST_KEY = storage w !! WALLET_LIST_KEY →
  lists w ws → lists w' ws.
Proof. rewrite !lists_registry. unfold registry. by intros ->. Qed.

Lemma tidy_registry_step `{!AesGcmTag} c w :
  tidy_registry w →
  (short_call c → returns c w) ∧ tidy_registry (after_call c w).
Proof.
  intros (ws & Hl & Hp & Hn & Hd).
  pose proof (all_named_objects ws Hn) as Ho.
  destruct c as [f net h|f|f m p|f p| | |]; cbn [after_call returns].
  - destruct (find_wallet_objects f ws Ho) as [[i|] Hf].
    + destruct (find_wallet_Some f ws i Hf) as (ps & Hi & _).
      rewrite (addWalletToList_existing w f net h ws i ps) by done.
      split; [done|]. cbn [snd].
      exists (<[i:=JObj (touched net (clock w (clock_reads w)) h ps)]> ws).
      assert (json_plain (JObj (touched net (clock w (clock_reads w)) h ps)))
        by (apply touched_plain; by eapply lookup_plain).
      split_and!.
      * eapply lists_after_write; [|done]. by apply insert_plain.
      * by apply insert_plain.
      * eapply all_named_insert; [done..|]. apply name_of_touched.
      * rewrite (names_insert ws i (JObj ps)); [done..|]. apply name_of_touched.
    + rewrite (addWalletToList_new w f net h ws) by done.
      split; [done|]. cbn [snd]. eexists. split_and!.
      * eapply lists_after_write; [|done].
        apply snoc_plain; [done|]. apply fresh_record_plain.
      * apply snoc_plain; [done|]. apply fresh_record_plain.
      * apply Forall_app. split; [done|]. constructor; [by eexists|constructor].
      * rewrite names_app. apply list.NoDup_app. split_and!; [done| |].
        -- intros x Hx [->|?%elem_of_nil]%elem_of_cons; [|done].
           by apply (find_wallet_None_names f ws).
        -- apply NoDup_singleton.
  - destruct (filter_wallets_total f ws (objects_not_null ws Ho)) as [ws1 Hr].
    pose proof (filter_wallets_sublist f ws ws1 Hr) as Hsub.
    assert (json_plain (JArr ws1)) as Hp1 by (by eapply sublist_plain).
    rewrite (removeWalletFromList_run w f ws ws1) by done.
    split; [done|]. cbn [snd].
    exists ws1. split_and!; [by apply lists_after_remove|done|..].
    + by eapply all_named_sublist.
    + exact (sublist_NoDup _ _ Hd (names_sublist _ _ Hsub)).
  - destruct (storeMnemonic_outcome w f m p ws Hl) as [[He ->]|(blob & He & ->)].
    { split.
      - intros Hs. destruct (encrypt_run w m p Hs) as (? & ? & _ & _ & _ & He').
        congruence.
      - exists ws. split_and!; [by apply lists_encrypted|done..]. }
    pose proof (lists_blob_stored f blob m p w ws Hl) as Hl1.
    destruct (find_wallet_objects f ws Ho) as [[i|] Hf]; rewrite Hf; cbn [fst snd].
    2:{ split; [done|]. by exists ws. }
    split; [done|].
    destruct (find_wallet_Some f ws i Hf) as (ps & Hi & _).
    rewrite (alter_lookup_insert _ _ _ _ Hi).
    assert (json_plain (set_member (js "hasMnemonic") (JBool true) (JObj ps)))
      by (apply set_member_plain; [done..|]; by eapply lookup_plain).
    assert (name_of (set_member (js "hasMnemonic") (JBool true) (JObj ps))
            = name_of (JObj ps)) as Hname by (apply name_of_set_member; key_ne).
    eexists. split_and!.
    + eapply lists_after_write; [|done]. by apply insert_plain.
    + by apply insert_plain.
    + by eapply all_named_insert.
    + by rewrite (names_insert ws i (JObj ps)).
  - split; [intros _; apply retrieveMnemonic_returns|].
    exists ws. split_and!; [|done..].
    apply lists_registry. rewrite retrieveMnemonic_storage.
    by apply lists_registry.
  - rewrite (clearAllWalletData_run w ws Hl Hn). split; [done|]. cbn [snd].
    apply tidy_registry_empty. cbn [storage with_storage]. apply lookup_delete_eq.
  - split; [done|]. exists ws. split_and!; [|done..].
    eapply tidy_registry_same; [|done].
    cbn [storage snd markFirstTimeSetupComplete setItem with_storage].
    apply lookup_insert_ne, setup_key_ne.
  - split; [done|]. exists ws. split_and!; [|done..].
    eapply tidy_registry_same; [|done].
    cbn [storage snd resetFirstTimeSetupFlag removeItem with_storage].
    apply lookup_delete_ne, setup_key_ne.
Qed.

(** X4. The registry stays tidy. From a world whose registry lists records
    that JSON carries unchanged, each with a string filename and no filename
    twice (a storage without registry is one), every sequence of calls to
    [addWalletToList], [removeWalletFromList], [storeMnemonic],
    [retrieveMnemonic], [clearAllWalletData], [markFirstTimeSetupComplete]
    and [resetFirstTimeSetupFlag], with any arguments, ends in such a world
    again: no filename is ever listed twice. When no phrase stored is too
    long for [encrypt], none of the calls throws. *)
Theorem tidy_registry_kept `{!AesGcmTag} (cs : list api_call) w :
  tidy_registry w →
  tidy_registry (after_calls cs w) ∧ (Forall short_call cs → all_return cs w).
Proof.
  revert w. induction cs as [|c cs IH]; intros w Hw; [done|].
  destruct (tidy_registry_step c w Hw) as [Hr Hw'].
  destruct (IH _ Hw') as [Hend Hrs].
  split; [exact Hend|]. intros Hcs. inversion_clear Hcs as [|?? Hc Hcs'].
  split; [by apply Hr|by apply Hrs].
Qed.

End Tidy.

(** ** The registry functions in any world *)

Lemma named_throws f v e : named f v = Throw e → e = TypeError.
Proof.
  unfold named. destruct v as [| | | | |ps]; simpl; try done; [congruence|].
  by destruct (get_prop _ ps) as [[]|].
Qed.

Lemma find_wallet_throws f ws e : find_wallet f ws = Throw e → e = TypeError.
Proof.
  induction ws as [|v ws IH]; simpl; [done|].
  destruct (named f v) as [[]|e'] eqn:En; [done| |].
  - destruct (find_wallet f ws) as [[i|]|e']; [done..|]. intros [= <-]. by apply IH.
  - intros [= <-]. by eapply named_throws.
Qed.

Lemma filter_wallets_throws f ws e : filter_wallets f ws = Throw e → e = TypeError.
Proof.
  induction ws as [|v ws IH]; simpl; [done|].
  destruct (named f v) as [b|e'] eqn:En.
  - destruct (filter_wallets f ws) as [r|e']; [done|]. intros [= <-]. by apply IH.
  - intros [= <-]. by eapply named_throws.
Qed.

Section AnyWorld.
Context `{JSON}.

Lemma addWalletToList_cases w f net h :
  match registry (storage w) with
  | JArr ws =>
      match find_wallet f ws with
      | Throw e => addWalletToList f net h w = (Throw e, w)
      | Return o =>
          ∃ v n, addWalletToList f net h w =
                   (Return (), with_storage (insert WALLET_LIST_KEY v) (Nat.iter n tick w))
      end
  | _ => addWalletToList f net h w = (Throw TypeError, w)
  end.
Proof.
  unfold addWalletToList. cbv [mbind M_bind bind]. rewrite getStoredWallets_run.
  destruct (registry (storage w)) as [| | | |ws|]; try done.
  cbv [as_array mret M_ret ret lift].
  destruct (find_wallet f ws) as [[i|]|e]; [| |done].
  - cbv [Date_toISOString setItem]. eexists _, 1%nat. reflexivity.
  - cbv [Date_toISOString setItem]. eexists _, 2%nat. reflexivity.
Qed.

Lemma removeWalletFromList_cases w f :
  match registry (storage w) with
  | JArr ws =>
      match filter_wallets f ws with
      | Throw e => removeWalletFromList f w = (Throw e, w)
      | Return r =>
          removeWalletFromList f w =
            (Return (),
             with_storage
               (λ st, delete (MNEMONIC_PREFIX ++ f)
                        (<[WALLET_LIST_KEY := JSON_stringify (JArr r)]> st)) w)
      end
  | _ => removeWalletFromList f w = (Throw TypeError, w)
  end.
Proof.
  unfold removeWalletFromList. cbv [mbind M_bind bind]. rewrite getStoredWallets_run.
  destruct (registry (storage w)) as [| | | |ws|]; try done.
  cbv [as_array mret M_ret ret lift].
  by destruct (filter_wallets f ws) as [r|e].
Qed.

Lemma storage_iter_tick n w : storage (Nat.iter n tick w) = storage w.
Proof. induction n as [|n IH]; [done|]. simpl. exact IH. Qed.

(** X5. [addWalletToList] is all or nothing, in every world: it returns,
    having written the registry key and no other, or it throws [TypeError]
    and leaves the world as it was. It returns exactly when the registry
    value is a list on which the search for the filename does not meet
    [null]. *)
Theorem addWalletToList_all_or_nothing w f net h :
  let r := addWalletToList f net h w in
  (r.1 = Return () ∧ is_Some (storage r.2 !! WALLET_LIST_KEY) ∨
   r = (Throw TypeError, w)) ∧
  (∀ k, k ≠ WALLET_LIST_KEY → storage r.2 !! k = storage w !! k) ∧
  (r.1 = Return () ↔
   ∃ ws o, registry (storage w) = JArr ws ∧ find_wallet f ws = Return o).
Proof.
  cbv zeta. pose proof (addWalletToList_cases w f net h) as Hc.
  destruct (registry (storage w)) as [| | | |ws|] eqn:Er;
    try (rewrite Hc; split_and!; [by right|done|]; split; [done|];
         by intros (ws & o & ? & _)).
  destruct (find_wallet f ws) as [o|e] eqn:Ef.
  - destruct Hc as (v & n & ->). cbn [fst snd storage with_storage]. split_and!.
    + left. split; [done|]. rewrite lookup_insert_eq. by eexists.
    + intros k Hk. rewrite lookup_insert_ne by done. by rewrite storage_iter_tick.
    + split; [|done]. intros _. by exists ws, o.
  - rewrite Hc. apply find_wallet_throws in Ef as Ht. subst e. split_and!.
    + by right.
    + done.
    + split; [done|]. intros (ws' & o & [= <-] & Hf). congruence.
Qed.

(** X6. [removeWalletFromList] is all or nothing, in every world: it
    returns, and then the mnemonic key of the filename is absent and no key
    but that one and the registry key has changed, or it throws [TypeError]
    and leaves the world as it was, the stored blob included. It returns
    exactly when the registry value is a list without [null] entries. *)
Theorem removeWalletFromList_all_or_nothing w f :
  let r := removeWalletFromList f w in
  (r.1 = Return () ∧ storage r.2 !! (MNEMONIC_PREFIX ++ f) = None ∨
   r = (Throw TypeError, w)) ∧
  (∀ k, k ≠ WALLET_LIST_KEY → k ≠ MNEMONIC_PREFIX ++ f →
        storage r.2 !! k = storage w !! k) ∧
  (r.1 = Return () ↔ ∃ ws, registry (storage w) = JArr ws ∧ JNull ∉ ws).
Proof.
  cbv zeta. pose proof (removeWalletFromList_cases w f) as Hc.
  destruct (registry (storage w)) as [| | | |ws|] eqn:Er;
    try (rewrite Hc; split_and!; [by right|done|]; split; [done|];
         by intros (ws & ? & _)).
  destruct (filter_wallets f ws) as [r|e] eqn:Ef.
  - rewrite Hc. cbn [fst snd storage with_storage]. split_and!.
    + left. split; [done|]. apply lookup_delete_eq.
    + intros k Hk1 Hk2. rewrite lookup_delete_ne by done. by rewrite lookup_insert_ne.
    + split; [|done]. intros _. exists ws. split; [done|].
      clear Hc Er. revert r Ef. induction ws as [|v ws IH]; intros r; [by intros _ ?%elem_of_nil|].
      simpl. destruct (named f v) as [b|] eqn:En; [|done].
      destruct (filter_wallets f ws) as [r'|]; [|done]. intros _.
      intros [<-|Hin]%elem_of_cons; [done|]. by apply (IH r').
  - rewrite Hc. apply filter_wallets_throws in Ef as Ht. subst e. split_and!.
    + by right.
    + done.
    + split; [done|]. intros (ws' & [= <-] & Hnull).
      destruct (filter_wallets_total f ws Hnull) as [r Hr]. congruence.
Qed.

End AnyWorld.

(** ** Stored phrases in any world *)

Section Blobs.
Context `{JSON} `{WebCrypto} `{Engine}.

Lemma retrieveMnemonic_result f p w :
  (retrieveMnemonic f p w).1 = Return (retrieved (storage w !! (MNEMONIC_PREFIX ++ f)) p).
Proof.
  unfold retrieveMnemonic, retrieved.
  cbv [mbind mret M_bind M_ret bind ret try_catch getItem].
  destruct (storage w !! (MNEMONIC_PREFIX ++ f)) as [[|c blob]|]; try done.
  destruct (atob (c :: blob)) as [s|e] eqn:Ha.
  - rewrite (decrypt_run w (c :: blob) p s Ha). cbv zeta.
    by destruct (aes_gcm_decrypt _ _ _).
  - by rewrite (decrypt_malformed w (c :: blob) p e Ha).
Qed.

(** A blob [encrypt] returned holds the salt, IV and ciphertext it used. *)
Lemma encrypt_returned w m p blob :
  encrypt m p w = (Return blob, encrypted m p w) →
  ∃ ct,
    aes_gcm_decrypt (key_of p (salt_of w)) (iv_of w) ct = Some (TextEncoder_encode m) ∧
    atob blob = Return (char_codes (salt_of w ++ iv_of w ++ ct)).
Proof.
  intros He. destruct (encrypt_sealed w m p) as (ct & _ & Hdec & Hfit & Hlong).
  exists ct. split; [done|].
  destruct (N.le_gt_cases (N.of_nat (SALT_LENGTH + IV_LENGTH + length ct))
              argument_limit) as [Hle|Hgt].
  - destruct (Hfit Hle) as (blob' & Ha & He'). congruence.
  - rewrite (Hlong Hgt) in He. done.
Qed.

Lemma encrypt_blob_nonempty w m p blob :
  encrypt m p w = (Return blob, encrypted m p w) → blob ≠ [].
Proof.
  intros (ct & _ & Ha)%encrypt_returned ->.
  assert (atob [] = Return []) as E by reflexivity.
  rewrite E in Ha.
  apply (f_equal (λ r, match r with Return s => length s | Throw _ => 0%nat end)) in Ha.
  cbv beta iota in Ha. unfold char_codes in Ha.
  rewrite length_fmap, length_app, salt_of_length in Ha. done.
Qed.

(** In every world [storeMnemonic] stores the blob before it reads the
    registry, unless [encrypt] threw. *)
Lemma storeMnemonic_cases w f m p :
  (encrypt m p w = (Throw RangeError, encrypted m p w) ∧
   storeMnemonic f m p w = (Throw RangeError, encrypted m p w)) ∨
  ∃ blob,
    encrypt m p w = (Return blob, encrypted m p w) ∧
    match registry (storage w) with
    | JArr ws =>
        match find_wallet f ws with
        | Throw e => storeMnemonic f m p w = (Throw e, blob_stored f blob m p w)
        | Return (Some i) =>
            ∃ v, storeMnemonic f m p w =
                   (Return (), with_storage (insert WALLET_LIST_KEY v)
                                 (blob_stored f blob m p w))
        | Return None => storeMnemonic f m p w = (Return (), blob_stored f blob m p w)
        end
    | _ => storeMnemonic f m p w = (Throw TypeError, blob_stored f blob m p w)
    end.
Proof.
  destruct (encrypt_outcome w m p) as [Hw Hr].
  destruct (encrypt m p w) as [r w1] eqn:He. cbn [fst snd] in *. subst w1.
  destruct Hr as [[blob ->]| ->]; [right|left; split; [done|by apply storeMnemonic_thrown]].
  exists blob. split; [done|].
  destruct (registry (storage w)) as [| | | |ws|] eqn:Er.
  5:{ apply lists_registry in Er.
      rewrite (storeMnemonic_run w f m p ws blob Er He).
      destruct (find_wallet f ws) as [[i|]|e]; [by eexists|done..]. }
  all: unfold storeMnemonic; cbv [mbind M_bind bind]; rewrite He;
    cbv [setItem]; fold (blob_stored f blob m p w);
    rewrite getStoredWallets_run; unfold blob_stored;
    cbn [storage with_storage encrypted called draw];
    rewrite registry_insert_ne by apply mnemonic_key_ne; by rewrite Er.
Qed.

Lemma storeMnemonic_stored w f m p blob :
  encrypt m p w = (Return blob, encrypted m p w) →
  storage (storeMnemonic f m p w).2 !! (MNEMONIC_PREFIX ++ f) = Some blob.
Proof.
  intros He.
  destruct (storeMnemonic_cases w f m p) as [[He' _]|(blob' & He' & Hc)];
    [congruence|].
  assert (blob' = blob) as -> by congruence.
  assert (storage (blob_stored f blob m p w) !! (MNEMONIC_PREFIX ++ f) = Some blob)
    as Hb by apply lookup_insert_eq.
  destruct (registry (storage w)) as [| | | |ws|]; try by rewrite Hc.
  destruct (find_wallet f ws) as [[i|]|e]; try by rewrite Hc.
  destruct Hc as [v ->]. cbn [snd storage with_storage].
  rewrite lookup_insert_ne by (apply not_eq_sym, mnemonic_key_ne). exact Hb.
Qed.

(** The blob [encrypt] made of a phrase [TextDecoder] gives back reads as
    that phrase under the same password. *)
Lemma retrieved_encrypted w m p blob :
  isWellFormed m = true → starts_with_BOM m = false →
  encrypt m p w = (Return blob, encrypted m p w) →
  retrieved (Some blob) p = Some m.
Proof.
  intros Hw Hb He.
  pose proof (encrypt_blob_nonempty w m p blob He) as Hne.
  destruct (encrypt_returned w m p blob He) as (ct & Hdec & Ha).
  unfold retrieved. destruct blob as [|c blob]; [done|]. rewrite Ha. cbv zeta.
  rewrite Uint8Array_from_String.
  destruct (slices_of_combined (salt_of w) (iv_of w) ct
              (salt_of_length w) (iv_of_length w)) as (-> & -> & ->).
  rewrite Hdec. cbn [fmap option_fmap option_map]. by rewrite TextDecoder_TextEncoder.
Qed.

Lemma storeMnemonic_other_keys w f m p k :
  k ≠ WALLET_LIST_KEY → k ≠ MNEMONIC_PREFIX ++ f →
  storage (storeMnemonic f m p w).2 !! k = storage w !! k.
Proof.
  intros Hk1 Hk2.
  destruct (storeMnemonic_cases w f m p) as [[_ ->]|(blob & He & Hc)]; [done|].
  assert (storage (blob_stored f blob m p w) !! k = storage w !! k) as Hb.
  { unfold blob_stored. cbn [storage with_storage encrypted called draw].
    by rewrite lookup_insert_ne. }
  destruct (registry (storage w)) as [| | | |ws|]; try by rewrite Hc.
  destruct (find_wallet f ws) as [[i|]|e]; try by rewrite Hc.
  destruct Hc as [v ->]. cbn [snd storage with_storage].
  by rewrite lookup_insert_ne.
Qed.

(** X7. What [storeMnemonic] stored, [retrieveMnemonic] gives back. For
    every world, whatever its registry holds, every filename and password and
    every well-formed phrase that does not start with U+FEFF and is short
    enough for [encrypt]: [retrieveMnemonic f p] after [storeMnemonic f m p]
    returns [m], also when [storeMnemonic] threw on a damaged registry, and
    in every later world that still holds the blob. *)
Theorem store_retrieve_roundtrip `{!AesGcmTag} w f m p :
  spreadable m → isWellFormed m = true → starts_with_BOM m = false →
  let w' := (storeMnemonic f m p w).2 in
  (retrieveMnemonic f p w').1 = Return (Some m) ∧
  (∀ w2, storage w2 !! (MNEMONIC_PREFIX ++ f) = storage w' !! (MNEMONIC_PREFIX ++ f) →
         (retrieveMnemonic f p w2).1 = Return (Some m)).
Proof.
  intros Hsp Hw Hb. cbv zeta.
  destruct (encrypt_run w m p Hsp) as (ct & blob & _ & _ & _ & He).
  pose proof (storeMnemonic_stored w f m p blob He) as Hs.
  pose proof (retrieved_encrypted w m p blob Hw Hb He) as Hr.
  split.
  - by rewrite retrieveMnemonic_result, Hs, Hr.
  - intros w2 Hw2. by rewrite retrieveMnemonic_result, Hw2, Hs, Hr.
Qed.

(** X8. [storeMnemonic] writes the blob first and touches nothing else but
    the registry key. In every world, for a phrase short enough for
    [encrypt], it returns or throws [TypeError], and the blob [encrypt] made
    is stored under the filename's key either way; for a longer phrase it
    throws [RangeError] and the storage is as before. In both cases every
    key other than the filename's and the registry key is as before, and
    what [retrieveMnemonic] returns for any other filename is what it
    returned before. *)
Theorem storeMnemonic_frame `{!AesGcmTag} w f m p :
  let r := storeMnemonic f m p w in
  (spreadable m →
   (r.1 = Return () ∨ r.1 = Throw TypeError) ∧
   ∃ blob, encrypt m p w = (Return blob, encrypted m p w) ∧
           storage r.2 !! (MNEMONIC_PREFIX ++ f) = Some blob) ∧
  (¬ spreadable m → r.1 = Throw RangeError ∧ storage r.2 = storage w) ∧
  (∀ k, k ≠ WALLET_LIST_KEY → k ≠ MNEMONIC_PREFIX ++ f →
        storage r.2 !! k = storage w !! k) ∧
  (∀ g q, g ≠ f → (retrieveMnemonic g q r.2).1 = (retrieveMnemonic g q w).1).
Proof.
  cbv zeta. pose proof (storeMnemonic_other_keys w f m p) as Hframe.
  split_and!.
  - intros Hsp. destruct (encrypt_run w m p Hsp) as (ct & blob & _ & _ & _ & He).
    split; [|exists blob; split; [done|by apply storeMnemonic_stored]].
    destruct (storeMnemonic_cases w f m p) as [[He' _]|(blob' & _ & Hc)];
      [congruence|].
    destruct (registry (storage w)) as [| | | |ws|]; try (rewrite Hc; by right).
    destruct (find_wallet f ws) as [[i|]|e] eqn:Ef.
    + destruct Hc as [v ->]. by left.
    + rewrite Hc. by left.
    + rewrite Hc. apply find_wallet_throws in Ef as ->. by right.
  - intros Hsp. by rewrite (storeMnemonic_thrown w f m p _ (encrypt_too_long w m p Hsp)).
  - exact Hframe.
  - intros g q Hg. rewrite !retrieveMnemonic_result. f_equal. f_equal.
    apply Hframe; [apply mnemonic_key_ne|]. by intros ?%mnemonic_key_inj.
Qed.

Lemma retrieveMnemonic_world f p w :
  (retrieveMnemonic f p w).2 = w ∨
  ∃ combined, (retrieveMnemonic f p w).2 = decrypted p combined w.
Proof.
  unfold retrieveMnemonic.
  cbv [mbind mret M_bind M_ret bind ret try_catch getItem].
  destruct (storage w !! (MNEMONIC_PREFIX ++ f)) as [[|c blob]|]; [by left| |by left].
  destruct (atob (c :: blob)) as [s|e] eqn:Ha.
  - rewrite (decrypt_run w (c :: blob) p s Ha). cbv zeta.
    right. eexists. by destruct (aes_gcm_decrypt _ _ _).
  - rewrite (decrypt_malformed w (c :: blob) p e Ha). by left.
Qed.

(** X9. [retrieveMnemonic] only reads: in every world it leaves the
    storage, the clock and the random source as they were and makes at most
    two calls to the cryptographic provider; and what it returns depends on
    nothing but the blob stored under the filename's key and the password. *)
Theorem retrieveMnemonic_read_only w f p :
  let r := retrieveMnemonic f p w in
  storage r.2 = storage w ∧
  clock_reads r.2 = clock_reads w ∧
  entropy_used r.2 = entropy_used w ∧
  (∃ cs, crypto_calls r.2 = cs ++ crypto_calls w ∧ (length cs ≤ 2)%nat) ∧
  (∀ w2, storage w2 !! (MNEMONIC_PREFIX ++ f) = storage w !! (MNEMONIC_PREFIX ++ f) →
         (retrieveMnemonic f p w2).1 = r.1).
Proof.
  cbv zeta.
  destruct (retrieveMnemonic_world f p w) as [->|[combined ->]].
  - split_and!; try done.
    + exists []. split; [done|simpl; lia].
    + intros w2 Hs. rewrite !retrieveMnemonic_result. by rewrite Hs.
  - split_and!; try done.
    + eexists [_; _]. split; [reflexivity|simpl; lia].
    + intros w2 Hs. rewrite !retrieveMnemonic_result. by rewrite Hs.
Qed.

(** X10. [hasMnemonicStored] follows the blob, not the registry. In every
    world it returns true right after [storeMnemonic] for the filename with
    a phrase short enough for [encrypt] (also when that call threw on the
    registry), what it returned before after one with a longer phrase, and
    false right after a [removeWalletFromList] for it that returned; no
    [addWalletToList] changes its answer, whatever flag is passed; and where
    it returns false, [retrieveMnemonic] returns [null] under every
    password. *)
Theorem hasMnemonicStored_tracks_blob `{!AesGcmTag} w f :
  (∀ m p, spreadable m →
          (hasMnemonicStored f (storeMnemonic f m p w).2).1 = Return true) ∧
  (∀ m p, ¬ spreadable m →
          (hasMnemonicStored f (storeMnemonic f m p w).2).1
          = (hasMnemonicStored f w).1) ∧
  ((removeWalletFromList f w).1 = Return () →
   (hasMnemonicStored f (removeWalletFromList f w).2).1 = Return false) ∧
  (∀ g net h, (hasMnemonicStored f (addWalletToList g net h w).2).1
              = (hasMnemonicStored f w).1) ∧
  ((hasMnemonicStored f w).1 = Return false →
   ∀ p, (retrieveMnemonic f p w).1 = Return None).
Proof.
  unfold hasMnemonicStored. cbv [mbind mret M_bind M_ret bind ret getItem].
  cbn [fst]. split_and!.
  - intros m p Hsp. destruct (encrypt_run w m p Hsp) as (ct & blob & _ & _ & _ & He).
    rewrite (storeMnemonic_stored w f m p blob He).
    by rewrite bool_decide_eq_true_2.
  - intros m p Hsp.
    by rewrite (storeMnemonic_thrown w f m p _ (encrypt_too_long w m p Hsp)).
  - pose proof (removeWalletFromList_cases w f) as Hc.
    destruct (registry (storage w)) as [| | | |ws|]; try by rewrite Hc.
    destruct (filter_wallets f ws) as [r|e]; rewrite Hc; [|done].
    intros _. cbn [snd storage with_storage]. rewrite lookup_delete_eq.
    by rewrite bool_decide_eq_false_2 by (by intros ?).
  - intros g net h. pose proof (addWalletToList_cases w g net h) as Hc.
    destruct (registry (storage w)) as [| | | |ws|]; try by rewrite Hc.
    destruct (find_wallet g ws) as [o|e]; [|by rewrite Hc].
    destruct Hc as (v & n & ->). cbn [snd storage with_storage].
    rewrite lookup_insert_ne by (apply not_eq_sym, mnemonic_key_ne).
    by rewrite storage_iter_tick.
  - intros Hf p. rewrite retrieveMnemonic_result.
    destruct (storage w !! (MNEMONIC_PREFIX ++ f)); [|done].
    by rewrite bool_decide_eq_true_2 in Hf.
Qed.

End Blobs.

(** ** The blob format *)

Lemma b64_encode_length (l : list N) :
  length (b64_encode l) = (4 * ((length l + 2) / 3))%nat.
Proof.
  induction l as [| a | a b | a b c r IH] using list_ind3; try done.
  cbn [b64_encode length]. rewrite IH.
  replace (S (S (S (length r))) + 2)%nat with (1 * 3 + (length r + 2))%nat by lia.
  rewrite Nat.div_add_l by done. lia.
Qed.

(** X11. The bytes of a blob survive its text form. For every byte array
    that fits one call's arguments, [btoa(String.fromCharCode(...bytes))]
    (line 77) returns a text of four characters for every three bytes begun,
    and [Uint8Array.from(atob(text), c => c.charCodeAt(0))] (line 89) reads
    the same bytes back from it. For a longer array the spread throws
    [RangeError] and there is no text. *)
Theorem blob_bytes_roundtrip `{Engine} (bs : bytes) :
  (N.of_nat (length bs) ≤ argument_limit →
   ∃ binary blob s,
     String_fromCharCode bs = Return binary ∧
     btoa binary = Return blob ∧
     length blob = (4 * ((length bs + 2) / 3))%nat ∧
     atob blob = Return s ∧
     Uint8Array_from s = bs) ∧
  (argument_limit < N.of_nat (length bs) →
   String_fromCharCode bs = Throw RangeError).
Proof.
  unfold String_fromCharCode. split; intros Hb.
  - destruct (N.leb_spec (N.of_nat (length bs)) argument_limit); [|lia].
    destruct (atob_btoa bs) as (blob & Hb64 & Ha).
    exists (char_codes bs), blob, (char_codes bs). split_and!; try done.
    + unfold btoa in Hb64.
      destruct (forallb _ (char_codes bs)); [|done].
      injection Hb64 as <-. rewrite length_fmap, b64_encode_length.
      by rewrite char_codes_val, length_fmap.
    + apply Uint8Array_from_String.
  - by destruct (N.leb_spec (N.of_nat (length bs)) argument_limit); [lia|].
Qed.

Section Layout.
Context `{WebCrypto} `{Engine}.

(** X12. The blob [encrypt] returns has the layout [decrypt] cuts up. In
    every world, for every password and every text short enough, [encrypt]
    returns a blob whose bytes are a salt of 16 bytes, an IV of 12 bytes and
    the ciphertext, in this order; for a longer text it throws [RangeError].
    Either way salt and IV are the next 28 bytes of the random source, and a
    call that follows draws the 28 bytes after them; the key is derived
    once, from the password's UTF-8 bytes and that salt; storage and clock
    are left alone. *)
Theorem encrypt_layout `{!AesGcmTag} w m p :
  (spreadable m →
   ∃ ct blob s,
     encrypt m p w = (Return blob, encrypted m p w) ∧
     atob blob = Return s ∧
     Uint8Array_from s = salt_of w ++ iv_of w ++ ct ∧
     aes_gcm_encrypt (key_of p (salt_of w)) (iv_of w) (TextEncoder_encode m) = Some ct) ∧
  (¬ spreadable m → encrypt m p w = (Throw RangeError, encrypted m p w)) ∧
  salt_of w ++ iv_of w = entropy w <$> seq (entropy_used w) 28 ∧
  entropy_used (encrypted m p w) = (entropy_used w + 28)%nat ∧
  salt_of (encrypted m p w) ++ iv_of (encrypted m p w)
    = entropy w <$> seq (entropy_used w + 28) 28 ∧
  crypto_calls (encrypted m p w) =
    CallEncrypt (iv_of w) (TextEncoder_encode m)
    :: CallDeriveKey (TextEncoder_encode p) (salt_of w) :: crypto_calls w ∧
  storage (encrypted m p w) = storage w ∧
  clock_reads (encrypted m p w) = clock_reads w.
Proof.
  split_and!; try done.
  - intros Hsp. destruct (encrypt_run w m p Hsp) as (ct & blob & Henc & _ & Ha & He).
    exists ct, blob, (char_codes (salt_of w ++ iv_of w ++ ct)).
    split_and!; try done. apply Uint8Array_from_String.
  - apply encrypt_too_long.
  - unfold salt_of, iv_of. rewrite <- fmap_app. f_equal.
    change 28%nat with (SALT_LENGTH + IV_LENGTH)%nat. by rewrite seq_app.
  - cbn [encrypted called draw entropy_used]. unfold SALT_LENGTH, IV_LENGTH. lia.
  - unfold salt_of, iv_of. cbn [encrypted called draw entropy entropy_used].
    rewrite <- fmap_app. f_equal.
    replace (entropy_used w + SALT_LENGTH + IV_LENGTH)%nat
      with (entropy_used w + 28)%nat by (unfold SALT_LENGTH, IV_LENGTH; lia).
    exact (eq_sym (seq_app SALT_LENGTH IV_LENGTH (entropy_used w + 28))).
Qed.

End Layout.

(** ** Keys the calls leave alone, and the setup flag *)

Section Frames.
Context `{JSON} `{WebCrypto} `{Engine} `{NumberFormat}.

Lemma addWalletToList_other_keys w f net h k :
  k ≠ WALLET_LIST_KEY → storage (addWalletToList f net h w).2 !! k = storage w !! k.
Proof.
  intros Hk. pose proof (addWalletToList_cases w f net h) as Hc.
  destruct (registry (storage w)) as [| | | |ws|]; try by rewrite Hc.
  destruct (find_wallet f ws) as [o|e]; [|by rewrite Hc].
  destruct Hc as (v & n & ->). cbn [snd storage with_storage].
  rewrite lookup_insert_ne by done. by rewrite storage_iter_tick.
Qed.

Lemma removeWalletFromList_other_keys w f k :
  k ≠ WALLET_LIST_KEY → k ≠ MNEMONIC_PREFIX ++ f →
  storage (removeWalletFromList f w).2 !! k = storage w !! k.
Proof.
  intros Hk1 Hk2. pose proof (removeWalletFromList_cases w f) as Hc.
  destruct (registry (storage w)) as [| | | |ws|]; try by rewrite Hc.
  destruct (filter_wallets f ws) as [r|e]; rewrite Hc; [|done].
  cbn [snd storage with_storage].
  rewrite lookup_delete_ne by done. by rewrite lookup_insert_ne.
Qed.

Lemma clearAllWalletData_other_keys w k :
  k ≠ WALLET_LIST_KEY → (∀ f, k ≠ MNEMONIC_PREFIX ++ f) →
  storage (clearAllWalletData w).2 !! k = storage w !! k.
Proof.
  intros Hk1 Hk2. rewrite clearAllWalletData_unfold.
  destruct (iterate (registry (storage w))) as [ws|e]; [|done].
  destruct (remove_mnemonics_frame ws w) as (st & Hw & Hk & _).
  destruct (remove_mnemonics ws w) as [[[]|e] w1]; cbn [fst snd] in *; subst w1.
  - cbn [storage with_storage]. rewrite lookup_delete_ne by done. by apply Hk.
  - by apply Hk.
Qed.

(** A call changes no key outside the registry key, the mnemonic keys and,
    for the two functions of the setup flag, the flag's key. *)
Lemma after_call_other_keys c w k :
  k ≠ WALLET_LIST_KEY → (∀ f, k ≠ MNEMONIC_PREFIX ++ f) →
  (k = FIRST_TIME_SETUP_KEY → c ≠ CallMarkSetup ∧ c ≠ CallResetSetup) →
  storage (after_call c w) !! k = storage w !! k.
Proof.
  intros Hk1 Hk2 Hk3.
  destruct c as [f net h|f|f m p|f p| | |]; cbn [after_call].
  - by apply addWalletToList_other_keys.
  - by apply removeWalletFromList_other_keys.
  - by apply storeMnemonic_other_keys.
  - by rewrite retrieveMnemonic_storage.
  - by apply clearAllWalletData_other_keys.
  - cbn [storage snd markFirstTimeSetupComplete setItem with_storage].
    apply lookup_insert_ne. intros E. symmetry in E. by destruct (Hk3 E).
  - cbn [storage snd resetFirstTimeSetupFlag removeItem with_storage].
    apply lookup_delete_ne. intros E. symmetry in E. by destruct (Hk3 E).
Qed.

(** X13. The calls stay within their keys. Whatever the world holds and
    whether calls return or throw, no sequence of calls to the functions of
    walletStorage.js and to the two setters of the setup flag changes a key
    other than the registry key, the keys that start with the mnemonic
    prefix and the key of the setup flag: what other parts of the
    application keep in the storage is never touched. *)
Theorem api_calls_frame (cs : list api_call) w k :
  k ≠ WALLET_LIST_KEY → (∀ f, k ≠ MNEMONIC_PREFIX ++ f) →
  k ≠ FIRST_TIME_SETUP_KEY →
  storage (after_calls cs w) !! k = storage w !! k.
Proof.
  intros Hk1 Hk2 Hk3. revert w.
  induction cs as [|c cs IH]; intros w; [done|].
  cbn [after_calls foldl]. fold (after_calls cs (after_call c w)).
  rewrite IH. by apply after_call_other_keys.
Qed.

Lemma isFirstTimeSetupNeeded_run w :
  isFirstTimeSetupNeeded w =
    (if bool_decide (storage w !! FIRST_TIME_SETUP_KEY = Some (js "true"))
     then Return false
     else length_is_zero (registry (storage w)), w).
Proof.
  unfold isFirstTimeSetupNeeded. cbv [mbind M_bind bind getItem].
  destruct (bool_decide _); [done|].
  rewrite getStoredWallets_run. done.
Qed.

(** X14. Once set, the setup flag decides. After
    [markFirstTimeSetupComplete], in every world and after every sequence of
    calls that does not contain [resetFirstTimeSetupFlag],
    [isFirstTimeSetupNeeded] returns false and leaves the world as it is,
    whatever the registry holds: also when [clearAllWalletData] emptied the
    store, and where the registry holds [null]. *)
Theorem setup_flag_sticks (cs : list api_call) w :
  CallResetSetup ∉ cs →
  let w' := after_calls cs (markFirstTimeSetupComplete w).2 in
  isFirstTimeSetupNeeded w' = (Return false, w').
Proof.
  intros Hcs. cbv zeta.
  assert (storage (markFirstTimeSetupComplete w).2 !! FIRST_TIME_SETUP_KEY
          = Some (js "true")) as Hflag by apply lookup_insert_eq.
  revert Hflag. generalize (markFirstTimeSetupComplete w).2. clear w.
  induction cs as [|c cs IH]; intros w Hflag.
  - rewrite isFirstTimeSetupNeeded_run. cbn [after_calls foldl].
    by rewrite bool_decide_eq_true_2.
  - cbn [after_calls foldl]. fold (after_calls cs (after_call c w)).
    apply not_elem_of_cons in Hcs as [Hc Hcs]. apply IH; [done|].
    assert (c = CallMarkSetup ∨ c ≠ CallMarkSetup) as [->|Hm]
      by (destruct c; (by left) || (by right)).
    + apply lookup_insert_eq.
    + rewrite after_call_other_keys; [done|apply setup_key_ne| |done].
      intros f. apply not_eq_sym, setup_key_no_mnemonic.
Qed.

End Frames.

(** ** How the calls compose *)

Lemma insert_snoc {A} (l : list A) (x y : A) : <[length l := y]> (l ++ [x]) = l ++ [y].
Proof. rewrite insert_app_r_alt by done. by rewrite Nat.sub_diag. Qed.

Lemma find_wallet_fresh f net created used h ws :
  find_wallet f ws = Return None →
  find_wallet f (ws ++ [JObj (fresh_record f net created used h)])
    = Return (Some (length ws)).
Proof.
  intros Hf. rewrite find_wallet_app by done. unfold named. simpl.
  by rewrite bool_decide_eq_true_2.
Qed.

Lemma lookup_snoc {A} (l : list A) (x : A) : (l ++ [x]) !! length l = Some x.
Proof. by rewrite lookup_app_r, Nat.sub_diag. Qed.

Lemma filter_wallets_app f ws1 ws2 r1 r2 :
  filter_wallets f ws1 = Return r1 → filter_wallets f ws2 = Return r2 →
  filter_wallets f (ws1 ++ ws2) = Return (r1 ++ r2).
Proof.
  revert r1. induction ws1 as [|v ws1 IH]; intros r1; simpl.
  - by intros [= <-].
  - destruct (named f v) as [b|]; [|done].
    destruct (filter_wallets f ws1) as [r|]; [|done].
    intros [= <-] H2. rewrite (IH r eq_refl H2). by destruct b.
Qed.

Section Flows.
Context `{JSON} `{WebCrypto} `{Engine} `{NumberFormat}.

(** X15. Registering a filename twice keeps one record. In a world whose
    registry lists records that JSON carries unchanged and none for [f],
    [addWalletToList f net h] followed by [addWalletToList f net' h'] leaves
    the old records and one record for [f] after them: its [createdAt] is
    the first clock reading of the first call, its [lastUsed] the reading of
    the second call, its [network] the second call's, and its [hasMnemonic]
    is true when either call passed true. *)
Theorem addWalletToList_twice w f net net' h h' ws :
  lists w ws → json_plain (JArr ws) → find_wallet f ws = Return None →
  let w1 := (addWalletToList f net h w).2 in
  let w2 := (addWalletToList f net' h' w1).2 in
  ∃ ps,
    (addWalletToList f net h w).1 = Return () ∧
    (addWalletToList f net' h' w1).1 = Return () ∧
    lists w2 (ws ++ [JObj ps]) ∧
    get_prop (js "filename") ps = Some (JStr f) ∧
    get_prop (js "network") ps = Some (network_val net') ∧
    get_prop (js "createdAt") ps = Some (JStr (clock w (clock_reads w))) ∧
    get_prop (js "lastUsed") ps = Some (JStr (clock w (2 + clock_reads w))) ∧
    get_prop (js "hasMnemonic") ps = Some (JBool (h || h')).
Proof.
  intros Hl Hp Hf. cbv zeta.
  rewrite (addWalletToList_new w f net h ws Hl Hf). cbn [fst snd].
  set (fr := fresh_record f net (clock w (clock_reads w))
               (clock w (S (clock_reads w))) h).
  set (w1 := with_storage _ (tick (tick w))).
  assert (json_plain (JArr (ws ++ [JObj fr]))) as Hp1
    by (apply snoc_plain; [done|apply fresh_record_plain]).
  assert (lists w1 (ws ++ [JObj fr])) as Hl1 by (by eapply lists_after_write).
  rewrite (addWalletToList_existing w1 f net' h' _ _ fr Hl1
             (find_wallet_fresh f _ _ _ _ ws Hf) (lookup_snoc ws (JObj fr))).
  cbn [fst snd]. rewrite insert_snoc.
  exists (touched net' (clock w1 (clock_reads w1)) h' fr).
  split_and!; try done.
  - eapply lists_after_write; [|done].
    apply snoc_plain; [done|]. apply touched_plain, fresh_record_plain.
  - rewrite touched_get. by rewrite !decide_False by key_ne.
  - rewrite touched_get. rewrite decide_False by key_ne.
    rewrite decide_False by key_ne. by rewrite decide_True.
  - rewrite touched_get. by rewrite !decide_False by key_ne.
  - rewrite touched_get. rewrite decide_False by key_ne. by rewrite decide_True.
  - rewrite touched_get. rewrite decide_True by done.
    destruct h'; [by rewrite orb_true_r|]. by rewrite orb_false_r.
Qed.

(** X16. Registering and removing a filename gives the list back. In a
    world whose registry lists records that JSON carries unchanged and none
    for [f], [addWalletToList f net h] followed by
    [removeWalletFromList f] returns, and [getStoredWallets] lists what it
    listed before; no blob is left under [f]'s key. *)
Theorem add_remove_roundtrip w f net h ws :
  lists w ws → json_plain (JArr ws) → find_wallet f ws = Return None →
  let w1 := (addWalletToList f net h w).2 in
  let w2 := (removeWalletFromList f w1).2 in
  (addWalletToList f net h w).1 = Return () ∧
  (removeWalletFromList f w1).1 = Return () ∧
  lists w2 ws ∧
  storage w2 !! (MNEMONIC_PREFIX ++ f) = None ∧
  (∀ k, k ≠ WALLET_LIST_KEY → k ≠ MNEMONIC_PREFIX ++ f →
        storage w2 !! k = storage w !! k).
Proof.
  intros Hl Hp Hf. cbv zeta.
  rewrite (addWalletToList_new w f net h ws Hl Hf). cbn [fst snd].
  set (fr := fresh_record f net (clock w (clock_reads w))
               (clock w (S (clock_reads w))) h).
  set (w1 := with_storage _ (tick (tick w))).
  assert (json_plain (JArr (ws ++ [JObj fr]))) as Hp1
    by (apply snoc_plain; [done|apply fresh_record_plain]).
  assert (lists w1 (ws ++ [JObj fr])) as Hl1 by (by eapply lists_after_write).
  assert (filter_wallets f (ws ++ [JObj fr]) = Return ws) as Hr.
  { rewrite (filter_wallets_app f ws [JObj fr] ws []).
    - by rewrite app_nil_r.
    - by apply filter_wallets_none.
    - unfold named. simpl. by rewrite bool_decide_eq_true_2. }
  rewrite (removeWalletFromList_run w1 f _ ws Hl1 Hr). cbn [fst snd].
  split_and!; try done.
  - by apply lists_after_remove.
  - cbn [storage with_storage]. apply lookup_delete_eq.
  - intros k Hk1 Hk2. subst w1. cbn [storage with_storage tick].
    rewrite lookup_delete_ne by done. by rewrite !lookup_insert_ne.
Qed.


(** X17. The first wallet with its phrase saved (firstTimeSetup.js,
    [handleFirstTimeSetup]). In a world whose registry lists records that
    JSON carries unchanged and none for [f], [storeMnemonic f m p] followed
    by [addWalletToList f net true] returns; afterwards the registry lists
    the old records and a new record for [f] with [hasMnemonic] true,
    stamped with the next two clock readings, and
    [retrieveMnemonic f p] returns [m], for a phrase short enough for
    [encrypt] that [TextDecoder] gives back. *)
Theorem store_then_register `{!AesGcmTag} w f m p net ws :
  spreadable m →
  lists w ws → json_plain (JArr ws) → find_wallet f ws = Return None →
  isWellFormed m = true → starts_with_BOM m = false →
  let w1 := (storeMnemonic f m p w).2 in
  let w2 := (addWalletToList f net true w1).2 in
  (storeMnemonic f m p w).1 = Return () ∧
  (addWalletToList f net true w1).1 = Return () ∧
  lists w2 (ws ++ [JObj (fresh_record f net (clock w (clock_reads w))
                           (clock w (S (clock_reads w))) true)]) ∧
  (retrieveMnemonic f p w2).1 = Return (Some m).
Proof.
  intros Hsp Hl Hp Hf Hw Hb. cbv zeta.
  destruct (encrypt_run w m p Hsp) as (ct & blob & _ & _ & _ & He).
  rewrite (storeMnemonic_run w f m p ws blob Hl He), Hf. cbn [fst snd].
  pose proof (lists_blob_stored f blob m p w ws Hl) as Hl1.
  rewrite (addWalletToList_new _ f net true ws Hl1 Hf). cbn [fst snd].
  split_and!; try done.
  - eapply lists_after_write; [|done].
    apply snoc_plain; [done|apply fresh_record_plain].
  - rewrite retrieveMnemonic_result. cbn [storage with_storage tick].
    rewrite lookup_insert_ne by (apply not_eq_sym, mnemonic_key_ne).
    unfold blob_stored. cbn [storage with_storage]. rewrite lookup_insert_eq.
    by rewrite (retrieved_encrypted w m p blob Hw Hb He).
Qed.

(** X18. Saving the phrase later erases the network (firstTimeSetup.js,
    the save button of the phrase display). In a world whose registry lists
    records that JSON carries unchanged and none for [f], and for a phrase
    short enough for [encrypt],
    [addWalletToList f net false], then [storeMnemonic f m p], then
    [addWalletToList f null true] return and leave one record for [f] after
    the old ones: [hasMnemonic] is true and [createdAt] is the first
    reading of the first call, but [network] is [null], not the network the
    wallet was registered with. *)
Theorem save_later_erases_network `{!AesGcmTag} w f m p net ws :
  spreadable m →
  lists w ws → json_plain (JArr ws) → find_wallet f ws = Return None →
  let w1 := (addWalletToList f (Some net) false w).2 in
  let w2 := (storeMnemonic f m p w1).2 in
  let w3 := (addWalletToList f None true w2).2 in
  ∃ ps,
    (addWalletToList f (Some net) false w).1 = Return () ∧
    (storeMnemonic f m p w1).1 = Return () ∧
    (addWalletToList f None true w2).1 = Return () ∧
    lists w3 (ws ++ [JObj ps]) ∧
    get_prop (js "filename") ps = Some (JStr f) ∧
    get_prop (js "network") ps = Some JNull ∧
    get_prop (js "createdAt") ps = Some (JStr (clock w (clock_reads w))) ∧
    get_prop (js "lastUsed") ps = Some (JStr (clock w (2 + clock_reads w))) ∧
    get_prop (js "hasMnemonic") ps = Some (JBool true) ∧
    is_Some (storage w3 !! (MNEMONIC_PREFIX ++ f)).
Proof.
  intros Hsp Hl Hp Hf. cbv zeta.
  rewrite (addWalletToList_new w f (Some net) false ws Hl Hf). cbn [fst snd].
  set (fr := fresh_record f (Some net) (clock w (clock_reads w))
               (clock w (S (clock_reads w))) false).
  set (w1 := with_storage _ (tick (tick w))).
  assert (json_plain (JArr (ws ++ [JObj fr]))) as Hp1
    by (apply snoc_plain; [done|apply fresh_record_plain]).
  assert (lists w1 (ws ++ [JObj fr])) as Hl1 by (by eapply lists_after_write).
  destruct (encrypt_run w1 m p Hsp) as (ct & blob & _ & _ & _ & He).
  assert (find_wallet f (ws ++ [JObj fr]) = Return (Some (length ws))) as Hf1
    by (by apply find_wallet_fresh).
  rewrite (storeMnemonic_run w1 f m p _ blob Hl1 He), Hf1. cbn [fst snd].
  rewrite (alter_lookup_insert _ _ _ _ (lookup_snoc ws (JObj fr))), insert_snoc.
  set (fr2 := set_prop (js "hasMnemonic") (JBool true) fr).
  change (set_member (js "hasMnemonic") (JBool true) (JObj fr)) with (JObj fr2).
  set (w2 := with_storage _ (blob_stored f blob m p w1)).
  assert (json_plain (JObj fr2)) as Hfr2
    by (apply set_prop_plain; [done..|apply fresh_record_plain]).
  assert (json_plain (JArr (ws ++ [JObj fr2]))) as Hp2 by (by apply snoc_plain).
  assert (lists w2 (ws ++ [JObj fr2])) as Hl2 by (by eapply lists_after_write).
  assert (find_wallet f (ws ++ [JObj fr2]) = Return (Some (length ws))) as Hf2.
  { rewrite find_wallet_app by done. unfold named. simpl.
    by rewrite bool_decide_eq_true_2. }
  rewrite (addWalletToList_existing w2 f None true _ _ fr2 Hl2 Hf2
             (lookup_snoc ws (JObj fr2))).
  cbn [fst snd]. rewrite insert_snoc.
  exists (touched None (clock w2 (clock_reads w2)) true fr2).
  split_and!; try done.
  - eapply lists_after_write; [|done]. apply snoc_plain; [done|]. by apply touched_plain.
  - cbn [storage with_storage tick]. subst w2. cbn [storage with_storage].
    rewrite !lookup_insert_ne by (apply not_eq_sym, mnemonic_key_ne).
    unfold blob_stored. cbn [storage with_storage]. rewrite lookup_insert_eq.
    by eexists.
Qed.

(** X19. [clearAllWalletData] leaves the phrases of unlisted wallets. In a
    world whose registry lists records with string filenames, none of them
    [f], [storeMnemonic f m p] of a phrase short enough for [encrypt] adds
    no record; a following [clearAllWalletData] returns and empties the
    registry, yet the blob for [f] stays: [hasMnemonicStored f] returns true
    and, for a phrase [TextDecoder] gives back, [retrieveMnemonic f p] still
    returns [m]. *)
Theorem unlisted_phrase_survives_clear `{!AesGcmTag} w f m p ws :
  spreadable m →
  lists w ws → all_named ws → f ∉ names ws →
  isWellFormed m = true → starts_with_BOM m = false →
  let w1 := (storeMnemonic f m p w).2 in
  let w2 := (clearAllWalletData w1).2 in
  (storeMnemonic f m p w).1 = Return () ∧
  lists w1 ws ∧
  (clearAllWalletData w1).1 = Return () ∧
  lists w2 [] ∧
  (hasMnemonicStored f w2).1 = Return true ∧
  (retrieveMnemonic f p w2).1 = Return (Some m).
Proof.
  intros Hsp Hl Hn Hf Hw Hb. cbv zeta.
  destruct (find_wallet_names f ws Hn) as [_ Hfind]. specialize (Hfind Hf).
  destruct (encrypt_run w m p Hsp) as (ct & blob & _ & _ & _ & He).
  rewrite (storeMnemonic_run w f m p ws blob Hl He), Hfind. cbn [fst snd].
  pose proof (lists_blob_stored f blob m p w ws Hl) as Hl1.
  rewrite (clearAllWalletData_run _ ws Hl1 Hn). cbn [fst snd].
  assert (storage (with_storage (λ st, delete WALLET_LIST_KEY (without (names ws) st))
                     (blob_stored f blob m p w)) !! (MNEMONIC_PREFIX ++ f)
          = Some blob) as Hs.
  { cbn [storage with_storage].
    rewrite lookup_delete_ne by (apply not_eq_sym, mnemonic_key_ne).
    rewrite lookup_without, decide_False.
    - unfold blob_stored. cbn [storage with_storage]. apply lookup_insert_eq.
    - intros (g & ->%mnemonic_key_inj & ?)%list_elem_of_fmap. done. }
  split_and!; try done.
  - apply lists_registry. cbn [storage with_storage]. unfold registry.
    by rewrite lookup_delete_eq.
  - unfold hasMnemonicStored. cbv [mbind mret M_bind M_ret bind ret getItem].
    cbn [fst]. rewrite Hs. by rewrite bool_decide_eq_true_2.
  - rewrite retrieveMnemonic_result, Hs.
    by rewrite (retrieved_encrypted w m p blob Hw Hb He).
Qed.

(** X20. The wizard follows the wallets. In a world whose registry lists
    records with string filenames that JSON carries unchanged,
    [isFirstTimeSetupNeeded] returns true exactly when the flag is not the
    text [true] and the list is empty; it returns false after any
    [addWalletToList]; and it returns true after [resetFirstTimeSetupFlag]
    once [clearAllWalletData] ran, or once [removeWalletFromList f] ran
    where no wallet but [f] was listed. *)
Theorem setup_needed_tracks_wallets w ws f net h :
  lists w ws → json_plain (JArr ws) → all_named ws →
  (isFirstTimeSetupNeeded w).1 =
    Return (bool_decide (storage w !! FIRST_TIME_SETUP_KEY ≠ Some (js "true"))
            && bool_decide (ws = [])) ∧
  (isFirstTimeSetupNeeded (addWalletToList f net h w).2).1 = Return false ∧
  (isFirstTimeSetupNeeded (resetFirstTimeSetupFlag (clearAllWalletData w).2).2).1
    = Return true ∧
  ((∀ g, g ∈ names ws → g = f) →
   (isFirstTimeSetupNeeded (resetFirstTimeSetupFlag (removeWalletFromList f w).2).2).1
     = Return true).
Proof.
  intros Hl Hp Hn. pose proof (all_named_objects ws Hn) as Ho.
  assert (∀ w', storage w' !! FIRST_TIME_SETUP_KEY = None → lists w' [] →
                (isFirstTimeSetupNeeded w').1 = Return true) as Hempty.
  { intros w' Hflag Hl'. rewrite isFirstTimeSetupNeeded_run, Hflag.
    rewrite bool_decide_eq_false_2 by done.
    apply lists_registry in Hl'. by rewrite Hl'. }
  assert (∀ w' ws', ws' ≠ [] → lists w' ws' →
                    (isFirstTimeSetupNeeded w').1 = Return false) as Hsome.
  { intros w' ws' Hne Hl'. rewrite isFirstTimeSetupNeeded_run.
    destruct (bool_decide _); [done|].
    apply lists_registry in Hl'. rewrite Hl'. cbn [fst length_is_zero].
    by rewrite bool_decide_eq_false_2. }
  split_and!.
  - rewrite isFirstTimeSetupNeeded_run. apply lists_registry in Hl as Hreg.
    rewrite Hreg. cbn [length_is_zero].
    destruct (decide (storage w !! FIRST_TIME_SETUP_KEY = Some (js "true"))) as [E|E].
    + rewrite bool_decide_eq_true_2 by done.
      by rewrite (bool_decide_eq_false_2 (_ ≠ _)) by (by intros ?).
    + rewrite bool_decide_eq_false_2 by done.
      by rewrite (bool_decide_eq_true_2 (_ ≠ _)) by done.
  - destruct (find_wallet_objects f ws Ho) as [[i|] Hf].
    + destruct (find_wallet_Some f ws i Hf) as (ps & Hi & _).
      rewrite (addWalletToList_existing w f net h ws i ps) by done. cbn [snd].
      eapply Hsome; [|eapply lists_after_write; [|done]].
      * intros E. apply (f_equal length) in E. rewrite length_insert in E.
        apply lookup_lt_Some in Hi. simpl in E. lia.
      * apply insert_plain; [done|]. apply touched_plain. by eapply lookup_plain.
    + rewrite (addWalletToList_new w f net h ws) by done. cbn [snd].
      eapply Hsome; [|eapply lists_after_write; [|done]].
      * by intros [_ ?]%app_eq_nil.
      * apply snoc_plain; [done|]. apply fresh_record_plain.
  - rewrite (clearAllWalletData_run w ws Hl Hn). cbn [snd].
    apply Hempty.
    + cbn [storage snd resetFirstTimeSetupFlag removeItem with_storage].
      apply lookup_delete_eq.
    + apply lists_registry.
      cbn [storage snd resetFirstTimeSetupFlag removeItem with_storage].
      rewrite registry_delete_ne by apply setup_key_ne.
      unfold registry. by rewrite lookup_delete_eq.
  - intros Hall.
    destruct (filter_wallets_total f ws (objects_not_null ws Ho)) as [r Hr].
    assert (r = []) as ->.
    { destruct r as [|v r]; [done|].
      destruct (proj1 (filter_wallets_keeps f ws (v :: r) v Hr)) as [Hin Hnv];
        [by left|].
      unfold all_named in Hn. rewrite list.Forall_forall in Hn.
      destruct (Hn v Hin) as [g Hg].
      rewrite (name_of_named f v g Hg) in Hnv.
      assert (g = f) as -> by (apply Hall, list_elem_of_omap; eauto).
      by rewrite bool_decide_eq_true_2 in Hnv. }
    rewrite (removeWalletFromList_run w f ws [] Hl Hr). cbn [snd].
    apply Hempty.
    + cbn [storage snd resetFirstTimeSetupFlag removeItem with_storage].
      apply lookup_delete_eq.
    + apply lists_registry.
      cbn [storage snd resetFirstTimeSetupFlag removeItem with_storage].
      rewrite registry_delete_ne by apply setup_key_ne.
      rewrite registry_delete_ne by apply mnemonic_key_ne.
      by apply registry_insert.
Qed.

End Flows.

(** * The reference platform meets the laws

    An executable instance of each interface: the laws the properties rest
    on can be met together. *)

Module ReferencePlatform.
Import Reference.

Lemma of_to_tree v : json_plain v → of_tree (to_tree v) = Some v.
Proof.
  induction v as [| b | x | s | l IH | ps IH] using jsval_ind; try done.
  - intros Hp%json_plain_arr. cbn [to_tree of_tree].
    replace ((fix all ts := match ts with
                            | [] => Some []
                            | t :: r => v ← of_tree t; l ← all r; Some (v :: l)
                            end) (to_tree <$> l)) with (Some l); [done|].
    symmetry. induction l as [|v l IHl]; [done|].
    inversion_clear IH as [|?? Hv Hl]. inversion_clear Hp as [|?? Hpv Hpl].
    csimpl. rewrite Hv by done. simpl. by rewrite IHl.
  - intros (_ & _ & Hp)%json_plain_obj. cbn [to_tree of_tree].
    replace ((fix all ts := match ts with
                            | [] => Some []
                            | GenNode 4 [GenLeaf (inr k); t] :: r =>
                                v ← of_tree t; l ← all r; Some ((k, v) :: l)
                            | _ => None
                            end)
             ((λ kv, GenNode 4 [GenLeaf (inr kv.1); to_tree kv.2]) <$> ps))
      with (Some ps); [done|].
    symmetry. induction ps as [|[k v] ps IHps]; [done|].
    inversion_clear IH as [|?? Hv Hl]. inversion_clear Hp as [|?? Hpv Hpl].
    csimpl. simpl in Hv. rewrite Hv by done. simpl. by rewrite IHps.
Qed.

Lemma digits_pos_digits p : digits_pos (pos_digits p) = Some p.
Proof. induction p as [p IH|p IH|]; simpl; by rewrite ?IH. Qed.

Lemma parse_marked r :
  parse (to_char16 35 :: r) = p ← digits_pos r; t ← decode p; of_tree t.
Proof.
  unfold parse. rewrite decide_False; [done|].
  intros E. apply (f_equal (λ s, proj1_sig <$> head s)) in E.
  vm_compute in E. discriminate.
Qed.

Lemma parse_stringify v : json_plain v → parse (stringify v) = Some v.
Proof.
  intros Hp.
  assert (v = JNull ∨ stringify v = to_char16 35 :: pos_digits (encode (to_tree v)))
    as [Ev|Ev] by (destruct v; auto); rewrite Ev; [done|].
  rewrite parse_marked, digits_pos_digits. cbn [mbind option_bind].
  rewrite decode_encode. cbn [mbind option_bind]. by apply of_to_tree.
Qed.

#[export] Instance json : JSON := {|
  JSON_parse := parse;
  JSON_stringify := stringify;
  JSON_parse_empty := eq_refl;
  JSON_parse_null := eq_refl;
  JSON_parse_stringify := parse_stringify;
|}.

Lemma open_seal key iv text :
  length iv = 12%nat →
  ∃ ct, seal key iv text = Some ct ∧ open key iv ct = Some text.
Proof.
  intros _. eexists. split; [done|]. unfold open.
  assert (length (tag key iv text) = 16%nat) as Ht by apply length_replicate.
  rewrite length_app, Ht.
  replace (length text + 16 - 16)%nat with (length text) by lia.
  rewrite decide_False by lia.
  rewrite take_app_length, drop_app_length. by rewrite decide_True.
Qed.

Lemma open_short key iv ct : (length ct < 16)%nat → open key iv ct = None.
Proof. intros Hlen. unfold open. by rewrite decide_True. Qed.

#[export] Instance crypto : WebCrypto := {|
  CryptoKey := bytes * bytes;
  pbkdf2_sha256 := λ _ _ password salt, (password, salt);
  aes_gcm_encrypt := seal;
  aes_gcm_decrypt := open;
  aes_gcm_correct := open_seal;
  aes_gcm_short := open_short;
|}.

Lemma seal_length key iv text ct :
  seal key iv text = Some ct → length ct = (length text + 16)%nat.
Proof.
  intros [= <-]. rewrite length_app. unfold tag. by rewrite length_replicate.
Qed.

#[export] Instance tag_length : AesGcmTag := {|
  aes_gcm_length := seal_length;
|}.

(** An engine that takes 65535 arguments in a call. *)
#[export] Instance engine : Engine := {|
  argument_limit := 65535;
|}.

#[export] Instance numbers : NumberFormat := {|
  Number_toString := number_text;
|}.

End ReferencePlatform.

(** ** An ideal platform: no two passwords share a key, no key opens
    another's ciphertext *)

Module IdealPlatform.
Import Reference.

Lemma strip_app p l : strip p (p ++ l) = Some l.
Proof.
  induction p as [|a p IH]; [done|]. simpl.
  by rewrite (Byte.byte_dec_lb eq_refl).
Qed.

Lemma strip_Some p l r : strip p l = Some r → l = p ++ r.
Proof.
  revert l. induction p as [|a p IH]; intros [|b l]; simpl; try congruence.
  destruct (Byte.eqb a b) eqn:E; [|done].
  apply Byte.byte_dec_bl in E as ->. by intros ->%IH.
Qed.


Lemma header_length key iv : (16 ≤ length (header key iv))%nat.
Proof. unfold header. rewrite length_app, length_replicate. lia. Qed.

Lemma ideal_open_seal key iv text :
  length iv = 12%nat →
  ∃ ct, ideal_seal key iv text = Some ct ∧ ideal_open key iv ct = Some text.
Proof. intros _. eexists. split; [done|]. apply strip_app. Qed.

Lemma ideal_open_short key iv ct : (length ct < 16)%nat → ideal_open key iv ct = None.
Proof.
  intros Hlen. unfold ideal_open.
  destruct (strip (header key iv) ct) as [r|] eqn:E; [|done].
  apply strip_Some in E as ->. rewrite length_app in Hlen.
  pose proof (header_length key iv). lia.
Qed.

#[export] Instance crypto : WebCrypto := {|
  CryptoKey := bytes * bytes;
  pbkdf2_sha256 := λ _ _ password salt, (password, salt);
  aes_gcm_encrypt := ideal_seal;
  aes_gcm_decrypt := ideal_open;
  aes_gcm_correct := ideal_open_seal;
  aes_gcm_short := ideal_open_short;
|}.




End IdealPlatform.

(** * Worked cases *)

Lemma phrase_spreadable : @spreadable ReferencePlatform.engine (js "abandon ability able").
Proof. by vm_compute. Qed.

Lemma empty_spreadable : @spreadable ReferencePlatform.engine [].
Proof. by vm_compute. Qed.

(** C1 fails on a string that starts with U+FEFF: [decrypt] returns the
    string without it. *)
Lemma decrypt_encrypt_drops_BOM :
  let m := to_char16 0xFEFF :: js "abandon" in
  m ≠ js "abandon" ∧
  isWellFormed m = true ∧
  @spreadable ReferencePlatform.engine m ∧
  ∀ (C : WebCrypto) (E : Engine) (T : AesGcmTag) w p,
    spreadable m →
    ∃ blob, encrypt m p w = (Return blob, encrypted m p w) ∧
            ∀ w2, (decrypt blob p w2).1 = Return (js "abandon").
Proof.
  cbv zeta. split; [done|]. split; [done|]. split; [by vm_compute|].
  intros C E T w p Hs.
  destruct (decrypt_encrypt_same_bytes w (to_char16 0xFEFF :: js "abandon") p p
              Hs eq_refl) as (blob & He & Hd).
  exists blob. split; [done|]. intros w2. rewrite Hd. by vm_compute.
Qed.

(** C2 fails on a blob of three bytes: [decrypt] derives a key from them
    and throws the cipher's error. *)
Lemma decrypt_short_blob :
  atob (js "AAAA") = Return (to_char16 <$> [0; 0; 0]) ∧
  ∀ (C : WebCrypto) w p,
    decrypt (js "AAAA") p w =
      (Throw OperationError,
       called (CallDecrypt [] [])
         (called (CallDeriveKey (TextEncoder_encode p) [x00; x00; x00]) w)).
Proof.
  assert (atob (js "AAAA") = Return (to_char16 <$> [0; 0; 0])) as Ha
    by (by vm_compute).
  split; [done|]. intros C w p.
  rewrite (decrypt_run w _ p _ Ha). cbv zeta.
  change (Uint8Array_from (to_char16 <$> [0; 0; 0])) with [x00; x00; x00].
  by rewrite aes_gcm_short by (simpl; lia).
Qed.


(** C6 where the registry key holds the text [null]:
    [removeWalletFromList] throws and leaves everything in place, the blob
    included. *)
Lemma removeWalletFromList_corrupt_registry :
  ∃ (w : world) (f : jsstring),
    storage w !! WALLET_LIST_KEY = Some (js "null") ∧
    storage w !! (MNEMONIC_PREFIX ++ f) = Some (js "blob") ∧
    ∀ J : JSON, removeWalletFromList f w = (Throw TypeError, w).
Proof.
  exists (world_with (<[WALLET_LIST_KEY := js "null"]>
                        (<[MNEMONIC_PREFIX ++ js "w1" := js "blob"]> ∅))
                     frozen_clock), (js "w1").
  split_and!.
  - apply lookup_insert_eq.
  - cbn [storage world_with]. rewrite lookup_insert_ne by (intros E; by apply (mnemonic_key_ne (js "w1"))).
    apply lookup_insert_eq.
  - intros J. unfold removeWalletFromList. cbv [mbind M_bind bind].
    rewrite getStoredWallets_run. unfold registry.
    cbn [storage world_with]. rewrite lookup_insert_eq.
    change (js "null") with (to_char16 110 :: js "ull") at 1.
    change (to_char16 110 :: js "ull") with (js "null").
    by rewrite JSON_parse_null.
Qed.

Lemma TextEncoder_encode_letters n :
  TextEncoder_encode (replicate n (to_char16 97)) = replicate n (to_byte 97).
Proof.
  unfold TextEncoder_encode.
  induction n as [|n IH]; [done|].
  cbn [replicate fmap list_fmap].
  change (proj1_sig (to_char16 97)) with 97%N.
  cbn [to_scalars].
  change (is_high_surrogate 97) with false. change (is_low_surrogate 97) with false.
  cbv iota. cbn [flat_map]. by rewrite IH.
Qed.

Lemma long_phrase_length :
  N.of_nat (length (TextEncoder_encode long_phrase)) = 130000.
Proof.
  unfold long_phrase. rewrite TextEncoder_encode_letters, length_replicate.
  apply N2Nat.id.
Qed.

Lemma long_phrase_too_long : ¬ @spreadable ReferencePlatform.engine long_phrase.
Proof.
  unfold spreadable. rewrite long_phrase_length.
  change (@argument_limit ReferencePlatform.engine) with 65535. lia.
Qed.

(** C7 fails on a phrase of 130000 letters, on every engine that takes
    fewer than 130044 arguments: [storeMnemonic] throws [RangeError] and
    stores no blob. *)
Lemma storeMnemonic_long_phrase :
  let w := world_with ∅ frozen_clock in
  let f := js "w9" in
  let p := js "pw" in
  @argument_limit ReferencePlatform.engine < 130044 ∧
  ∀ (J : JSON) (C : WebCrypto) (E : Engine) (T : AesGcmTag),
    argument_limit < 130044 →
    storeMnemonic f long_phrase p w = (Throw RangeError, encrypted long_phrase p w) ∧
    storage (storeMnemonic f long_phrase p w).2 !! (MNEMONIC_PREFIX ++ f) = None.
Proof.
  cbv zeta. split; [done|]. intros J C E T Hlim.
  assert (¬ spreadable long_phrase) as Hs.
  { unfold spreadable. rewrite long_phrase_length. lia. }
  by rewrite (storeMnemonic_thrown _ _ _ _ _ (encrypt_too_long _ _ _ Hs)).
Qed.

(** C8 where the registry key holds the text [null]: [getStoredWallets]
    returns [null], which is no list. *)
Lemma getStoredWallets_null_registry :
  storage damaged_world !! WALLET_LIST_KEY = Some (js "null") ∧
  ∀ J : JSON, getStoredWallets damaged_world = (Return JNull, damaged_world).
Proof.
  split; [apply lookup_insert_eq|]. intros J.
  rewrite getStoredWallets_run. unfold registry, damaged_world.
  cbn [storage world_with]. rewrite lookup_insert_eq.
  change (js "null") with (to_char16 110 :: js "ull") at 1.
  change (to_char16 110 :: js "ull") with (js "null").
  by rewrite JSON_parse_null.
Qed.

(** C9 fails when the clock moves between the two readings. *)
Lemma createdAt_lastUsed_differ :
  ∃ (w : world) (f : jsstring),
    storage w = ∅ ∧
    ∀ J : JSON,
      find_wallet f [] = Return None ∧ lists w [] ∧
      ∃ ws', lists (addWalletToList f None false w).2 ws' ∧
             field_of (js "createdAt") f ws' = Some (JStr (js "2025-01-01T00:00:00.999Z")) ∧
             field_of (js "lastUsed") f ws' = Some (JStr (js "2025-01-01T00:00:01.000Z")).
Proof.
  exists (world_with ∅ ticking_clock), (js "w1"). split; [done|]. intros J.
  assert (lists (world_with ∅ ticking_clock) []) as Hl by done.
  split_and!; try done.
  rewrite (addWalletToList_new (world_with ∅ ticking_clock) (js "w1") None false
             [] Hl eq_refl).
  cbn [snd]. eexists. split.
  - eapply lists_after_write; [|done].
    apply (snoc_plain []); [done|]. apply fresh_record_plain.
  - unfold field_of. rewrite fresh_record_found by done. by split.
Qed.

(** ** The theorems at work on the reference platform *)

Lemma saved_world_lists ws clk :
  json_plain (JArr ws) → @lists ReferencePlatform.json (saved_world ws clk) ws.
Proof.
  intros Hp. apply lists_registry.
  apply (@registry_insert ReferencePlatform.json _ _ Hp).
Qed.

Lemma w1_record_plain : json_plain (JArr [JObj w1_record]).
Proof. apply json_plain_arr. constructor; [apply fresh_record_plain | done]. Qed.

(** C1 at work: a phrase and the empty string come back from the reference
    cipher. *)
Lemma decrypt_encrypt_roundtrip_witness :
  let w := world_with ∅ frozen_clock in
  let m := js "abandon ability able" in
  let p := js "correct horse" in
  (@spreadable ReferencePlatform.engine m ∧
   isWellFormed m = true ∧ starts_with_BOM m = false ∧
   ∃ blob w1,
     @encrypt ReferencePlatform.crypto ReferencePlatform.engine m p w = (Return blob, w1) ∧
     ∀ w2, (@decrypt ReferencePlatform.crypto blob p w2).1 = Return m) ∧
  (@spreadable ReferencePlatform.engine [] ∧
   ∃ blob w1,
     @encrypt ReferencePlatform.crypto ReferencePlatform.engine [] p w = (Return blob, w1) ∧
     ∀ w2, (@decrypt ReferencePlatform.crypto blob p w2).1 = Return []).
Proof.
  cbv zeta. split.
  - split; [exact phrase_spreadable|]. split; [reflexivity|]. split; [reflexivity|].
    exact (@decrypt_encrypt_roundtrip ReferencePlatform.crypto ReferencePlatform.engine
             ReferencePlatform.tag_length _ _ _ phrase_spreadable eq_refl eq_refl).
  - split; [exact empty_spreadable|].
    exact (@decrypt_encrypt_roundtrip ReferencePlatform.crypto ReferencePlatform.engine
             ReferencePlatform.tag_length _ _ _ empty_spreadable eq_refl eq_refl).
Defined.

(** C5 at work: wallet [w1], its phrase saved, is registered again without
    one. *)
Lemma hasMnemonic_monotone_witness :
  let w := saved_world [JObj w1_record] frozen_clock in
  @lists ReferencePlatform.json w [JObj w1_record] ∧
  json_plain (JArr [JObj w1_record]) ∧
  field_of (js "hasMnemonic") (js "w1") [JObj w1_record] = Some (JBool true) ∧
  ∃ ws',
    @lists ReferencePlatform.json
      (@addWalletToList ReferencePlatform.json (js "w1") (Some (js "mainnet")) false w).2 ws' ∧
    field_of (js "hasMnemonic") (js "w1") ws' = Some (JBool true).
Proof.
  cbv zeta.
  pose proof (saved_world_lists _ frozen_clock w1_record_plain) as Hl.
  pose proof w1_record_plain as Hp.
  split; [exact Hl|]. split; [exact Hp|]. split; [reflexivity|].
  apply (@hasMnemonic_monotone ReferencePlatform.json _ _ _ _ Hl Hp). reflexivity.
Defined.

(** X21 at work: wallet [w1] is removed twice. *)
Lemma removeWalletFromList_idempotent_witness :
  let w := saved_world [JObj w1_record] frozen_clock in
  let f := js "w1" in
  let w1 := (@removeWalletFromList ReferencePlatform.json f w).2 in
  let w2 := (@removeWalletFromList ReferencePlatform.json f w1).2 in
  @lists ReferencePlatform.json w [JObj w1_record] ∧
  json_plain (JArr [JObj w1_record]) ∧
  (JNull ∉ [JObj w1_record]) ∧
  (@removeWalletFromList ReferencePlatform.json f w).1 = Return () ∧
  (@removeWalletFromList ReferencePlatform.json f w1).1 = Return () ∧
  w2 = w1 ∧
  storage w1 !! (MNEMONIC_PREFIX ++ f) = None ∧
  (∀ k, k ≠ WALLET_LIST_KEY → k ≠ MNEMONIC_PREFIX ++ f →
        storage w1 !! k = storage w !! k) ∧
  ∃ ws1, @lists ReferencePlatform.json w1 ws1 ∧
         find_wallet f ws1 = Return None ∧
         sublist ws1 [JObj w1_record] ∧
         (∀ v, v ∈ ws1 ↔ v ∈ [JObj w1_record] ∧ named f v = Return false) ∧
         (find_wallet f [JObj w1_record] = Return None → ws1 = [JObj w1_record]).
Proof.
  cbv zeta.
  pose proof (saved_world_lists _ frozen_clock w1_record_plain) as Hl.
  pose proof w1_record_plain as Hp.
  assert (JNull ∉ [JObj w1_record]) as Hn.
  { intros [E|E]%elem_of_cons; [discriminate E | by apply elem_of_nil in E]. }
  split; [exact Hl|]. split; [exact Hp|]. split; [exact Hn|].
  exact (@removeWalletFromList_idempotent ReferencePlatform.json _ (js "w1") _ Hl Hp Hn).
Defined.

(** C7 at work: a phrase is stored for the registered wallet [w1]. *)
Lemma storeMnemonic_spec_witness :
  let w := saved_world [JObj w1_record] frozen_clock in
  let f := js "w1" in
  let m := js "abandon ability able" in
  let p := js "correct horse" in
  let w' := (@storeMnemonic ReferencePlatform.json ReferencePlatform.crypto
               ReferencePlatform.engine f m p w).2 in
  @spreadable ReferencePlatform.engine m ∧
  @lists ReferencePlatform.json w [JObj w1_record] ∧
  json_plain (JArr [JObj w1_record]) ∧
  ∃ blob ws',
    @encrypt ReferencePlatform.crypto ReferencePlatform.engine m p w
      = (Return blob, encrypted m p w) ∧
    storage w' !! (MNEMONIC_PREFIX ++ f) = Some blob ∧
    @lists ReferencePlatform.json w' ws' ∧
    length ws' = length [JObj w1_record] ∧
    (field_of (js "hasMnemonic") f ws' = Some (JBool true) ↔
     ∃ i, find_wallet f [JObj w1_record] = Return (Some i)) ∧
    (find_wallet f [JObj w1_record] = Return None →
     ws' = [JObj w1_record] ∧
     (@storeMnemonic ReferencePlatform.json ReferencePlatform.crypto
        ReferencePlatform.engine f m p w).1 = Return ()) ∧
    (∀ i, find_wallet f [JObj w1_record] = Return (Some i) →
          (@storeMnemonic ReferencePlatform.json ReferencePlatform.crypto
             ReferencePlatform.engine f m p w).1 = Return ()).
Proof.
  cbv zeta.
  pose proof (saved_world_lists _ frozen_clock w1_record_plain) as Hl.
  pose proof w1_record_plain as Hp.
  split; [exact phrase_spreadable|]. split; [exact Hl|]. split; [exact Hp|].
  exact (@storeMnemonic_spec ReferencePlatform.json ReferencePlatform.crypto
           ReferencePlatform.engine ReferencePlatform.tag_length _ (js "w1")
           (js "abandon ability able") (js "correct horse") _ phrase_spreadable Hl Hp).
Defined.

(** C9 at work: wallet [w1] is registered while the clock moves on. *)
Lemma addWalletToList_new_record_witness :
  let w := world_with ∅ ticking_clock in
  let f := js "w1" in
  let net := Some (js "testnet-10") in
  let created := js "2025-01-01T00:00:00.999Z" in
  let used := js "2025-01-01T00:00:01.000Z" in
  let w' := (@addWalletToList ReferencePlatform.json f net false w).2 in
  let ws' := [JObj (fresh_record f net created used false)] in
  @lists ReferencePlatform.json w [] ∧ json_plain (JArr []) ∧
  find_wallet f [] = Return None ∧
  (@addWalletToList ReferencePlatform.json f net false w).1 = Return () ∧
  @lists ReferencePlatform.json w' ws' ∧
  record_for f ws' = Some (fresh_record f net created used false) ∧
  field_of (js "createdAt") f ws' = Some (JStr created) ∧
  field_of (js "lastUsed") f ws' = Some (JStr used) ∧
  (field_of (js "createdAt") f ws' = field_of (js "lastUsed") f ws' ↔
   created = used).
Proof.
  cbv zeta.
  assert (@lists ReferencePlatform.json (world_with ∅ ticking_clock) []) as Hl
    by reflexivity.
  split; [exact Hl|]. split; [exact I|]. split; [reflexivity|].
  exact (@addWalletToList_new_record ReferencePlatform.json _ (js "w1")
           (Some (js "testnet-10")) false [] Hl I eq_refl).
Defined.

(** C10 at work: wallet [w1] is registered again on another network. *)
Lemma addWalletToList_frame_witness :
  let w := saved_world [JObj w1_record] ticking_clock in
  let f := js "w1" in
  let net := Some (js "mainnet") in
  let w' := (@addWalletToList ReferencePlatform.json f net false w).2 in
  @lists ReferencePlatform.json w [JObj w1_record] ∧
  json_plain (JArr [JObj w1_record]) ∧
  find_wallet f [JObj w1_record] = Return (Some 0%nat) ∧
  [JObj w1_record] !! 0%nat = Some (JObj w1_record) ∧
  ∃ ws' ps',
    (@addWalletToList ReferencePlatform.json f net false w).1 = Return () ∧
    @lists ReferencePlatform.json w' ws' ∧
    length ws' = length [JObj w1_record] ∧
    (∀ j, j ≠ 0%nat → ws' !! j = [JObj w1_record] !! j) ∧
    find_wallet f ws' = Return (Some 0%nat) ∧
    ws' !! 0%nat = Some (JObj ps') ∧
    get_prop (js "createdAt") ps' = get_prop (js "createdAt") w1_record ∧
    get_prop (js "filename") ps' = get_prop (js "filename") w1_record ∧
    (∀ k, k ∉ [js "network"; js "lastUsed"; js "hasMnemonic"] →
          get_prop k ps' = get_prop k w1_record) ∧
    get_prop (js "network") ps' = Some (network_val net) ∧
    get_prop (js "lastUsed") ps' = Some (JStr (clock w (clock_reads w))) ∧
    get_prop (js "hasMnemonic") ps' = get_prop (js "hasMnemonic") w1_record ∧
    (∀ k, k ≠ WALLET_LIST_KEY → storage w' !! k = storage w !! k).
Proof.
  cbv zeta.
  pose proof (saved_world_lists _ ticking_clock w1_record_plain) as Hl.
  pose proof w1_record_plain as Hp.
  split; [exact Hl|]. split; [exact Hp|]. split; [reflexivity|].
  split; [reflexivity|].
  exact (@addWalletToList_frame ReferencePlatform.json _ (js "w1") (Some (js "mainnet"))
           false _ 0%nat w1_record Hl Hp eq_refl eq_refl).
Defined.

(** C2 at work: text that is no base64, and a blob of three bytes. *)
Lemma decrypt_guard_witness :
  let w := world_with ∅ frozen_clock in
  @decrypt ReferencePlatform.crypto (js "not base64!") (js "correct horse") w
    = (Throw InvalidCharacterError, w) ∧
  (@decrypt ReferencePlatform.crypto (js "AAAA") (js "correct horse") w).1
    = Throw OperationError.
Proof.
  cbv zeta.
  destruct (@decrypt_guard ReferencePlatform.crypto (world_with ∅ frozen_clock)
              (js "not base64!") (js "correct horse")) as [Hm _].
  destruct (@decrypt_guard ReferencePlatform.crypto (world_with ∅ frozen_clock)
              (js "AAAA") (js "correct horse")) as [_ Hs].
  split.
  - apply (Hm InvalidCharacterError). by vm_compute.
  - apply (Hs (to_char16 <$> [0; 0; 0])); [by vm_compute | simpl; lia].
Defined.


(** ** The further properties at work on the reference platform *)

Lemma w1_record_named : all_named [JObj w1_record].
Proof. constructor; [by eexists|constructor]. Qed.

(** X1 at work: the store that lists wallet [w1] and holds its blob is
    cleared. *)
Lemma clearAllWalletData_effect_witness :
  let w := saved_world [JObj w1_record] frozen_clock in
  let w' := (@clearAllWalletData ReferencePlatform.json ReferencePlatform.numbers w).2 in
  @lists ReferencePlatform.json w [JObj w1_record] ∧
  all_named [JObj w1_record] ∧
  (@clearAllWalletData ReferencePlatform.json ReferencePlatform.numbers w).1 = Return () ∧
  storage w' !! WALLET_LIST_KEY = None ∧
  @lists ReferencePlatform.json w' [] ∧
  storage w' !! (MNEMONIC_PREFIX ++ js "w1") = None.
Proof.
  cbv zeta.
  pose proof (saved_world_lists _ frozen_clock w1_record_plain) as Hl.
  pose proof w1_record_named as Hn.
  destruct (@clearAllWalletData_effect ReferencePlatform.json ReferencePlatform.numbers
              _ _ Hl Hn) as (Hr & Hk & Hl' & Hb & _).
  split; [exact Hl|]. split; [exact Hn|]. split; [exact Hr|].
  split; [exact Hk|]. split; [exact Hl'|].
  apply Hb. left.
Defined.

(** X3 at work: the same store is cleared twice. *)
Lemma clearAllWalletData_idempotent_witness :
  let w := saved_world [JObj w1_record] frozen_clock in
  let w' := (@clearAllWalletData ReferencePlatform.json ReferencePlatform.numbers w).2 in
  (@clearAllWalletData ReferencePlatform.json ReferencePlatform.numbers w).1 = Return () ∧
  @lists ReferencePlatform.json w' [] ∧
  @clearAllWalletData ReferencePlatform.json ReferencePlatform.numbers w' = (Return (), w').
Proof.
  cbv zeta.
  assert ((@clearAllWalletData ReferencePlatform.json ReferencePlatform.numbers
             (saved_world [JObj w1_record] frozen_clock)).1 = Return ()) as Hr.
  { by rewrite (@clearAllWalletData_run ReferencePlatform.json ReferencePlatform.numbers
               _ _ (saved_world_lists _ frozen_clock w1_record_plain) w1_record_named). }
  split; [exact Hr|].
  exact (@clearAllWalletData_idempotent ReferencePlatform.json ReferencePlatform.numbers
           _ Hr).
Defined.

(** X4 at work: the session, from an empty storage. *)
Lemma tidy_registry_kept_witness :
  let w := world_with ∅ frozen_clock in
  @tidy_registry ReferencePlatform.json w ∧
  Forall (@short_call ReferencePlatform.engine) session ∧
  @all_return ReferencePlatform.json ReferencePlatform.crypto ReferencePlatform.engine
    ReferencePlatform.numbers session w ∧
  @tidy_registry ReferencePlatform.json
    (@after_calls ReferencePlatform.json ReferencePlatform.crypto ReferencePlatform.engine
       ReferencePlatform.numbers session w).
Proof.
  cbv zeta.
  assert (@tidy_registry ReferencePlatform.json (world_with ∅ frozen_clock)) as Hw
    by (by apply (@tidy_registry_empty ReferencePlatform.json)).
  assert (Forall (@short_call ReferencePlatform.engine) session) as Hs.
  { unfold session. repeat apply list.Forall_cons_2; try exact I;
      [exact phrase_spreadable|apply list.Forall_nil_2]. }
  destruct (@tidy_registry_kept ReferencePlatform.json ReferencePlatform.crypto
              ReferencePlatform.engine ReferencePlatform.numbers
              ReferencePlatform.tag_length session _ Hw) as [Hend Hret].
  split; [exact Hw|]. split; [exact Hs|]. split; [exact (Hret Hs)|exact Hend].
Defined.

(** X7 at work: a phrase is stored and read back where the registry holds
    [null]. *)
Lemma store_retrieve_roundtrip_witness :
  let f := js "w1" in
  let m := js "abandon ability able" in
  let p := js "correct horse" in
  let w' := (@storeMnemonic ReferencePlatform.json ReferencePlatform.crypto
               ReferencePlatform.engine f m p damaged_world).2 in
  @spreadable ReferencePlatform.engine m ∧
  isWellFormed m = true ∧ starts_with_BOM m = false ∧
  (@retrieveMnemonic ReferencePlatform.crypto f p w').1 = Return (Some m).
Proof.
  cbv zeta. split; [exact phrase_spreadable|]. split; [reflexivity|].
  split; [reflexivity|].
  exact (proj1 (@store_retrieve_roundtrip ReferencePlatform.json ReferencePlatform.crypto
                  ReferencePlatform.engine ReferencePlatform.tag_length
                  damaged_world (js "w1") (js "abandon ability able")
                  (js "correct horse") phrase_spreadable eq_refl eq_refl)).
Defined.

(** X8 at work: a phrase and the long phrase are stored where the registry
    holds [null]. *)
Lemma storeMnemonic_frame_witness :
  let f := js "w1" in
  let p := js "correct horse" in
  let store m := @storeMnemonic ReferencePlatform.json ReferencePlatform.crypto
                   ReferencePlatform.engine f m p damaged_world in
  (store (js "abandon ability able")).1 = Throw TypeError ∧
  is_Some (storage (store (js "abandon ability able")).2 !! (MNEMONIC_PREFIX ++ f)) ∧
  (store long_phrase).1 = Throw RangeError ∧
  storage (store long_phrase).2 = storage damaged_world.
Proof.
  cbv zeta.
  destruct (@storeMnemonic_frame ReferencePlatform.json ReferencePlatform.crypto
              ReferencePlatform.engine ReferencePlatform.tag_length
              damaged_world (js "w1") (js "abandon ability able") (js "correct horse"))
    as (Hshort & _).
  destruct (@storeMnemonic_frame ReferencePlatform.json ReferencePlatform.crypto
              ReferencePlatform.engine ReferencePlatform.tag_length
              damaged_world (js "w1") long_phrase (js "correct horse"))
    as (_ & Hlong & _).
  destruct (Hshort phrase_spreadable) as (Hr & blob & _ & Hb).
  destruct Hlong as [Ht Hst].
  { exact long_phrase_too_long. }
  split; [|split; [by exists blob|by split]].
  destruct Hr as [Hr|Hr]; [|exact Hr].
  destruct (@storeMnemonic_cases ReferencePlatform.json ReferencePlatform.crypto
              ReferencePlatform.engine damaged_world (js "w1")
              (js "abandon ability able") (js "correct horse"))
    as [[_ Hc]|(blob' & _ & Hc)]; simpl in Hc; rewrite Hc in Hr; discriminate Hr.
Defined.

(** X10 at work: after a phrase is stored for [w1] where the registry holds
    [null], [hasMnemonicStored] returns true. *)
Lemma hasMnemonicStored_tracks_blob_witness :
  let f := js "w1" in
  let w' := (@storeMnemonic ReferencePlatform.json ReferencePlatform.crypto
               ReferencePlatform.engine f (js "abandon ability able")
               (js "correct horse") damaged_world).2 in
  (hasMnemonicStored f w').1 = Return true ∧
  (hasMnemonicStored f damaged_world).1 = Return false ∧
  (@retrieveMnemonic ReferencePlatform.crypto f (js "correct horse") damaged_world).1
    = Return None.
Proof.
  cbv zeta.
  destruct (@hasMnemonicStored_tracks_blob ReferencePlatform.json ReferencePlatform.crypto
              ReferencePlatform.engine ReferencePlatform.tag_length
              damaged_world (js "w1")) as (Hs & _ & _ & _ & Hn).
  split; [exact (Hs _ _ phrase_spreadable)|].
  assert ((hasMnemonicStored (js "w1") damaged_world).1 = Return false) as Hf
    by reflexivity.
  split; [exact Hf|exact (Hn Hf _)].
Defined.

(** X12 at work: a phrase is encrypted on the reference platform. *)
Lemma encrypt_layout_witness :
  let w := world_with ∅ frozen_clock in
  let m := js "abandon ability able" in
  let p := js "correct horse" in
  ∃ ct blob s,
    @encrypt ReferencePlatform.crypto ReferencePlatform.engine m p w
      = (Return blob, encrypted m p w) ∧
    atob blob = Return s ∧
    Uint8Array_from s = replicate 28 x00 ++ ct ∧
    (@encrypt ReferencePlatform.crypto ReferencePlatform.engine long_phrase p w).1
      = Throw RangeError.
Proof.
  cbv zeta.
  destruct (@encrypt_layout ReferencePlatform.crypto ReferencePlatform.engine
              ReferencePlatform.tag_length (world_with ∅ frozen_clock)
              (js "abandon ability able") (js "correct horse"))
    as (Hshort & _).
  destruct (@encrypt_layout ReferencePlatform.crypto ReferencePlatform.engine
              ReferencePlatform.tag_length (world_with ∅ frozen_clock)
              long_phrase (js "correct horse"))
    as (_ & Hlong & _).
  destruct (Hshort phrase_spreadable) as (ct & blob & s & He & Ha & Hu & _).
  exists ct, blob, s. split; [exact He|]. split; [exact Ha|]. split; [exact Hu|].
  by rewrite (Hlong long_phrase_too_long).
Defined.

Lemma last_wallet_key_free :
  js "kaspa_last_wallet" ≠ WALLET_LIST_KEY ∧
  (∀ f, js "kaspa_last_wallet" ≠ MNEMONIC_PREFIX ++ f) ∧
  js "kaspa_last_wallet" ≠ FIRST_TIME_SETUP_KEY.
Proof.
  split_and!; [key_ne| |key_ne].
  intros f E. apply (f_equal (λ s, proj1_sig <$> take 7 s)) in E.
  vm_compute in E. discriminate.
Qed.

(** X13 at work: the session leaves the key of the last wallet alone. *)
Lemma api_calls_frame_witness :
  let k := js "kaspa_last_wallet" in
  let w := world_with (<[k := js "w1"]> ∅) frozen_clock in
  k ≠ WALLET_LIST_KEY ∧ (∀ f, k ≠ MNEMONIC_PREFIX ++ f) ∧ k ≠ FIRST_TIME_SETUP_KEY ∧
  storage (@after_calls ReferencePlatform.json ReferencePlatform.crypto ReferencePlatform.engine
             ReferencePlatform.numbers session w) !! k = storage w !! k.
Proof.
  cbv zeta. destruct last_wallet_key_free as (H1 & H2 & H3).
  split; [exact H1|]. split; [exact H2|]. split; [exact H3|].
  exact (@api_calls_frame ReferencePlatform.json ReferencePlatform.crypto ReferencePlatform.engine
           ReferencePlatform.numbers session _ _ H1 H2 H3).
Defined.

(** X14 at work: after the flag is set where the registry holds [null], the
    session leaves the wizard switched off. *)
Lemma setup_flag_sticks_witness :
  let w' := @after_calls ReferencePlatform.json ReferencePlatform.crypto ReferencePlatform.engine
              ReferencePlatform.numbers session
              (markFirstTimeSetupComplete damaged_world).2 in
  (CallResetSetup ∉ session) ∧
  @isFirstTimeSetupNeeded ReferencePlatform.json w' = (Return false, w').
Proof.
  cbv zeta.
  assert (CallResetSetup ∉ session) as Hs.
  { unfold session. intros Hin.
    repeat (apply elem_of_cons in Hin as [Hin|Hin]; [discriminate Hin|]).
    by apply elem_of_nil in Hin. }
  split; [exact Hs|].
  exact (@setup_flag_sticks ReferencePlatform.json ReferencePlatform.crypto ReferencePlatform.engine
           ReferencePlatform.numbers session damaged_world Hs).
Defined.

(** X15 at work: wallet [w1] is registered twice while the clock moves. *)
Lemma addWalletToList_twice_witness :
  let w := world_with ∅ ticking_clock in
  let f := js "w1" in
  let w1 := (@addWalletToList ReferencePlatform.json f (Some (js "testnet-10")) false w).2 in
  let w2 := (@addWalletToList ReferencePlatform.json f (Some (js "mainnet")) true w1).2 in
  @lists ReferencePlatform.json w [] ∧ json_plain (JArr []) ∧
  find_wallet f [] = Return None ∧
  ∃ ps,
    @lists ReferencePlatform.json w2 [JObj ps] ∧
    get_prop (js "network") ps = Some (JStr (js "mainnet")) ∧
    get_prop (js "createdAt") ps = Some (JStr (js "2025-01-01T00:00:00.999Z")) ∧
    get_prop (js "lastUsed") ps = Some (JStr (js "2025-01-01T00:00:01.000Z")) ∧
    get_prop (js "hasMnemonic") ps = Some (JBool true).
Proof.
  cbv zeta.
  assert (@lists ReferencePlatform.json (world_with ∅ ticking_clock) []) as Hl
    by reflexivity.
  split; [exact Hl|]. split; [exact I|]. split; [reflexivity|].
  destruct (@addWalletToList_twice ReferencePlatform.json _ (js "w1")
              (Some (js "testnet-10")) (Some (js "mainnet")) false true [] Hl I eq_refl)
    as (ps & _ & _ & Hl2 & _ & Hn & Hc & Hu & Hm).
  exists ps. split; [exact Hl2|]. split; [exact Hn|]. split; [exact Hc|].
  split; [exact Hu|exact Hm].
Defined.

(** X16 at work: wallet [w1] is registered and removed. *)
Lemma add_remove_roundtrip_witness :
  let w := world_with ∅ frozen_clock in
  let f := js "w1" in
  let w1 := (@addWalletToList ReferencePlatform.json f None false w).2 in
  let w2 := (@removeWalletFromList ReferencePlatform.json f w1).2 in
  @lists ReferencePlatform.json w [] ∧ json_plain (JArr []) ∧
  find_wallet f [] = Return None ∧
  (@removeWalletFromList ReferencePlatform.json f w1).1 = Return () ∧
  @lists ReferencePlatform.json w2 [].
Proof.
  cbv zeta.
  assert (@lists ReferencePlatform.json (world_with ∅ frozen_clock) []) as Hl
    by reflexivity.
  split; [exact Hl|]. split; [exact I|]. split; [reflexivity|].
  destruct (@add_remove_roundtrip ReferencePlatform.json _ (js "w1") None false []
              Hl I eq_refl) as (_ & Hr & Hl2 & _).
  split; [exact Hr|exact Hl2].
Defined.

(** X17 at work: the first wallet is set up with its phrase saved. *)
Lemma store_then_register_witness :
  let w := world_with ∅ frozen_clock in
  let f := js "w1" in
  let m := js "abandon ability able" in
  let p := js "correct horse" in
  let w1 := (@storeMnemonic ReferencePlatform.json ReferencePlatform.crypto
               ReferencePlatform.engine f m p w).2 in
  let w2 := (@addWalletToList ReferencePlatform.json f (Some (js "testnet-10")) true w1).2 in
  @spreadable ReferencePlatform.engine m ∧
  @lists ReferencePlatform.json w [] ∧ json_plain (JArr []) ∧
  find_wallet f [] = Return None ∧
  isWellFormed m = true ∧ starts_with_BOM m = false ∧
  @lists ReferencePlatform.json w2
    [JObj (fresh_record f (Some (js "testnet-10")) (js "2025-01-01T00:00:00.000Z")
             (js "2025-01-01T00:00:00.000Z") true)] ∧
  (@retrieveMnemonic ReferencePlatform.crypto f p w2).1 = Return (Some m).
Proof.
  cbv zeta.
  assert (@lists ReferencePlatform.json (world_with ∅ frozen_clock) []) as Hl
    by reflexivity.
  split; [exact phrase_spreadable|].
  split; [exact Hl|]. split; [exact I|]. split; [reflexivity|].
  split; [reflexivity|]. split; [reflexivity|].
  destruct (@store_then_register ReferencePlatform.json ReferencePlatform.crypto
              ReferencePlatform.engine ReferencePlatform.tag_length _
              (js "w1") (js "abandon ability able") (js "correct horse")
              (Some (js "testnet-10")) [] phrase_spreadable Hl I eq_refl eq_refl eq_refl)
    as (_ & _ & Hl2 & Hr).
  split; [exact Hl2|exact Hr].
Defined.

(** X18 at work: wallet [w1] is registered on testnet-10 and its phrase
    saved afterwards. *)
Lemma save_later_erases_network_witness :
  let w := world_with ∅ frozen_clock in
  let f := js "w1" in
  let m := js "abandon ability able" in
  let p := js "correct horse" in
  let w1 := (@addWalletToList ReferencePlatform.json f (Some (js "testnet-10")) false w).2 in
  let w2 := (@storeMnemonic ReferencePlatform.json ReferencePlatform.crypto
               ReferencePlatform.engine f m p w1).2 in
  let w3 := (@addWalletToList ReferencePlatform.json f None true w2).2 in
  @spreadable ReferencePlatform.engine m ∧
  @lists ReferencePlatform.json w [] ∧ json_plain (JArr []) ∧
  find_wallet f [] = Return None ∧
  ∃ ps,
    @lists ReferencePlatform.json w3 [JObj ps] ∧
    get_prop (js "network") ps = Some JNull ∧
    get_prop (js "hasMnemonic") ps = Some (JBool true).
Proof.
  cbv zeta.
  assert (@lists ReferencePlatform.json (world_with ∅ frozen_clock) []) as Hl
    by reflexivity.
  split; [exact phrase_spreadable|].
  split; [exact Hl|]. split; [exact I|]. split; [reflexivity|].
  destruct (@save_later_erases_network ReferencePlatform.json ReferencePlatform.crypto
              ReferencePlatform.engine ReferencePlatform.tag_length
              _ (js "w1") (js "abandon ability able") (js "correct horse")
              (js "testnet-10") [] phrase_spreadable Hl I eq_refl)
    as (ps & _ & _ & _ & Hl3 & _ & Hn & _ & _ & Hm & _).
  exists ps. split; [exact Hl3|]. split; [exact Hn|exact Hm].
Defined.

(** X19 at work: a phrase is stored for the unlisted wallet [w2] and the
    store that lists [w1] is cleared. *)
Lemma unlisted_phrase_survives_clear_witness :
  let w := saved_world [JObj w1_record] frozen_clock in
  let f := js "w2" in
  let m := js "abandon ability able" in
  let p := js "correct horse" in
  let w1 := (@storeMnemonic ReferencePlatform.json ReferencePlatform.crypto
               ReferencePlatform.engine f m p w).2 in
  let w2 := (@clearAllWalletData ReferencePlatform.json ReferencePlatform.numbers w1).2 in
  @spreadable ReferencePlatform.engine m ∧
  @lists ReferencePlatform.json w [JObj w1_record] ∧ all_named [JObj w1_record] ∧
  (f ∉ names [JObj w1_record]) ∧
  isWellFormed m = true ∧ starts_with_BOM m = false ∧
  @lists ReferencePlatform.json w2 [] ∧
  (hasMnemonicStored f w2).1 = Return true ∧
  (@retrieveMnemonic ReferencePlatform.crypto f p w2).1 = Return (Some m).
Proof.
  cbv zeta.
  pose proof (saved_world_lists _ frozen_clock w1_record_plain) as Hl.
  pose proof w1_record_named as Hn.
  assert (js "w2" ∉ names [JObj w1_record]) as Hf.
  { change (names [JObj w1_record]) with [js "w1"].
    intros [E|E]%elem_of_cons; [revert E; key_ne|by apply elem_of_nil in E]. }
  split; [exact phrase_spreadable|].
  split; [exact Hl|]. split; [exact Hn|]. split; [exact Hf|].
  split; [reflexivity|]. split; [reflexivity|].
  destruct (@unlisted_phrase_survives_clear ReferencePlatform.json
              ReferencePlatform.crypto ReferencePlatform.engine ReferencePlatform.numbers
              ReferencePlatform.tag_length _ (js "w2")
              (js "abandon ability able") (js "correct horse") _ phrase_spreadable
              Hl Hn Hf eq_refl eq_refl) as (_ & _ & _ & Hl2 & Hh & Hr).
  split; [exact Hl2|]. split; [exact Hh|exact Hr].
Defined.

(** X20 at work: the store that lists only wallet [w1], with the flag not
    set. *)
Lemma setup_needed_tracks_wallets_witness :
  let w := saved_world [JObj w1_record] frozen_clock in
  let f := js "w1" in
  @lists ReferencePlatform.json w [JObj w1_record] ∧
  json_plain (JArr [JObj w1_record]) ∧ all_named [JObj w1_record] ∧
  (@isFirstTimeSetupNeeded ReferencePlatform.json w).1 = Return false ∧
  (@isFirstTimeSetupNeeded ReferencePlatform.json
     (resetFirstTimeSetupFlag
        (@clearAllWalletData ReferencePlatform.json ReferencePlatform.numbers w).2).2).1
    = Return true ∧
  (@isFirstTimeSetupNeeded ReferencePlatform.json
     (resetFirstTimeSetupFlag (@removeWalletFromList ReferencePlatform.json f w).2).2).1
    = Return true.
Proof.
  cbv zeta.
  pose proof (saved_world_lists _ frozen_clock w1_record_plain) as Hl.
  pose proof w1_record_plain as Hp. pose proof w1_record_named as Hn.
  destruct (@setup_needed_tracks_wallets ReferencePlatform.json
              ReferencePlatform.numbers _ _ (js "w1") None false Hl Hp Hn)
    as (H1 & _ & H3 & H4).
  split; [exact Hl|]. split; [exact Hp|]. split; [exact Hn|].
  split; [|split; [exact H3|]].
  - rewrite H1. reflexivity.
  - apply H4. change (names [JObj w1_record]) with [js "w1"].
    intros g [->|E]%elem_of_cons; [reflexivity|].
    apply elem_of_nil in E. destruct E.
Defined.
